(** * Pinguclaw: the OneBot transport client and the CQ text codec

    A shallow embedding of
    - [libs/cq]: the CQ markup parser ([parseInboundCQ]), the outbound
      builder ([buildOutboundSegments]) and the plain-text projection
      ([toPlainText]);
    - [libs/onebot]: the helpers of [util.ts] and the websocket client
      [OneBotWsClient], as a labelled transition system over the events of
      the Node runtime (caller invocations, socket events, timers and
      promise continuations).

    Conventions of the embedding.
    - A JavaScript string is a Rocq [string], one character per code unit;
      the whitespace class of [trim] and of the regular expression [\s] is
      the part of the ECMAScript class that lies below code unit 256.
    - A JavaScript object used as a dictionary ([Record<string, unknown>])
      is a [gmap string JsValue].
    - A JavaScript [Map] is an insertion-ordered association list, because
      [rejectAllPending] iterates it.
    - Numbers that the client only counts with or compares are [Z]; the
      numbers a caller passes in ([timeoutMs], the result of
      [Math.random]) are rationals or one of the three non-finite
      doubles. *)

From Stdlib Require Import QArith Qround.
Close Scope Q_scope.
From Stdlib Require Import Ascii String DecimalString DecimalPos DecimalZ.
From stdpp Require Import base option list gmap strings.
From Equations Require Import Equations.

Local Open Scope string_scope.
Local Open Scope list_scope.
Local Open Scope Z_scope.

(* ================================================================== *)
(** * JavaScript string primitives                                     *)
(* ================================================================== *)

Module JsString.

(** [WhiteSpace] and [LineTerminator] below code unit 256: TAB, LF, VT,
    FF, CR, SP and NBSP. *)
Definition is_space (c : ascii) : bool :=
  match N_of_ascii c with
  | 9%N | 10%N | 11%N | 12%N | 13%N | 32%N | 160%N => true
  | _ => false
  end.

Fixpoint trimStart (s : string) : string :=
  match s with
  | String c s' => if is_space c then trimStart s' else s
  | EmptyString => EmptyString
  end.

Fixpoint trimEnd (s : string) : string :=
  match s with
  | EmptyString => EmptyString
  | String c s' =>
      match trimEnd s' with
      | EmptyString => if is_space c then EmptyString else String c EmptyString
      | t => String c t
      end
  end.

(** [String.prototype.trim]. *)
Definition trim (s : string) : string := trimEnd (trimStart s).

(** [s.length], as a natural number. *)
Definition len (s : string) : nat := String.length s.

Fixpoint drop (n : nat) (s : string) : string :=
  match n, s with
  | O, _ => s
  | S n', String _ s' => drop n' s'
  | S _, EmptyString => EmptyString
  end.

Fixpoint take (n : nat) (s : string) : string :=
  match n, s with
  | S n', String c s' => String c (take n' s')
  | _, _ => EmptyString
  end.

(** [s.slice(b, e)] for [0 <= b] and [0 <= e]; an end before the start
    gives the empty string, as in JavaScript. *)
Definition slice (s : string) (b e : nat) : string := take (e - b) (drop b s).

(** [s.slice(b)]. *)
Definition slice_from (s : string) (b : nat) : string := drop b s.

(** [s.indexOf(c)] for a one-character needle: [-1] when absent. *)
Fixpoint indexOf (c : ascii) (s : string) : Z :=
  match s with
  | EmptyString => -1
  | String a s' =>
      if Ascii.eqb a c then 0
      else let i := indexOf c s' in if i <? 0 then -1 else i + 1
  end.

(** [s.split(sep)] for a one-character separator: never the empty list,
    [split sep ""] is [[""]]. *)
Fixpoint split (sep : ascii) (s : string) : list string :=
  match s with
  | EmptyString => [EmptyString]
  | String c s' =>
      if Ascii.eqb c sep then EmptyString :: split sep s'
      else match split sep s' with
           | h :: t => String c h :: t
           | [] => [String c EmptyString]
           end
  end.

(** [parts.join(sep)]. *)
Definition join (sep : string) (parts : list string) : string :=
  String.concat sep parts.

(** [s.replace(/&amp;/g, "&")]: leftmost, non-overlapping. *)
Fixpoint unescape_amp (s : string) : string :=
  match s with
  | String "&" (String "a" (String "m" (String "p" (String ";" r)))) =>
      String "&" (unescape_amp r)
  | String c s' => String c (unescape_amp s')
  | EmptyString => EmptyString
  end.

(** [s.replace(/\s+/g, " ")]: [in_run] tells that the previous character
    belonged to a whitespace run that has already been replaced. *)
Fixpoint collapse_spaces_from (in_run : bool) (s : string) : string :=
  match s with
  | EmptyString => EmptyString
  | String c s' =>
      if is_space c
      then if in_run then collapse_spaces_from true s'
           else String " " (collapse_spaces_from true s')
      else String c (collapse_spaces_from false s')
  end.

Definition collapse_spaces (s : string) : string :=
  collapse_spaces_from false s.

(** [String(n)] for an integer [n]. *)
Definition of_Z (n : Z) : string := NilZero.string_of_int (Z.to_int n).

(** A string is falsy exactly when it is empty. *)
Definition truthy (s : string) : bool :=
  match s with EmptyString => false | _ => true end.

End JsString.

(* ================================================================== *)
(** * JavaScript values held in segment data                           *)
(* ================================================================== *)

(** The values of a [Record<string, unknown>] that the codec reads:
    primitives only. *)
Inductive JsValue : Type :=
| VUndefined
| VNull
| VBool (b : bool)
| VNum (n : Z)
| VStr (s : string).

(** [String(v)]. *)
Definition js_String (v : JsValue) : string :=
  match v with
  | VUndefined => "undefined"
  | VNull => "null"
  | VBool true => "true"
  | VBool false => "false"
  | VNum n => JsString.of_Z n
  | VStr s => s
  end.

(** [o ?? d] on a property read: a missing property reads [undefined]. *)
Definition nullish_or (o : option JsValue) (d : JsValue) : JsValue :=
  match o with
  | None | Some VUndefined | Some VNull => d
  | Some v => v
  end.

(** [obj[key] = value] on a plain object: the key [__proto__] reaches the
    prototype setter, which ignores a primitive and creates no property. *)
Definition obj_set (key : string) (value : JsValue)
           (obj : gmap string JsValue) : gmap string JsValue :=
  if String.eqb key "__proto__" then obj else <[key := value]> obj.

(* ================================================================== *)
(** * The CQ codec                                                     *)
(* ================================================================== *)

Module CQ.
Import JsString.

(** [CQSegmentNormalized]; the builder's [Segment] is the same record
    without [raw].  The [type] field is the run-time string. *)
Record Segment : Type := mkSegment {
  seg_type : string;
  seg_data : gmap string JsValue;
  seg_raw : option string;
}.

(** [CQBuildPayload]: an absent or [null] field is [None]. *)
Record CQBuildPayload : Type := mkPayload {
  text : option string;
  replyToId : option string;
  mentions : option (list string);
}.

(** The known type names of [CQSegmentType], without [unknown]. *)
Definition known_type (t : string) : bool :=
  String.eqb t "text" || String.eqb t "at" || String.eqb t "reply"
  || String.eqb t "image" || String.eqb t "file" || String.eqb t "record".

(** ** render.ts *)

(** The loop body of [buildOutboundSegments], for one mention. *)
Definition push_mention (segments : list Segment) (mention : string) : list Segment :=
  let qq := trim mention in
  if truthy qq
  then segments
         ++ [mkSegment "at" {[ "qq" := VStr qq ]} None]
         ++ [mkSegment "text" {[ "text" := VStr " " ]} None]
  else segments.

Definition buildOutboundSegments (payload : CQBuildPayload) : list Segment :=
  let segments : list Segment :=
    match replyToId payload with
    | Some id =>
        if truthy id then [mkSegment "reply" {[ "id" := VStr id ]} None] else []
    | None => []
    end in
  let segments := fold_left push_mention (default [] (mentions payload)) segments in
  match text payload with
  | Some t =>
      let t := trim t in
      if truthy t
      then segments ++ [mkSegment "text" {[ "text" := VStr t ]} None]
      else segments
  | None => segments
  end.

(** ** The projection of a parse result (toPlainText and friends) *)

(** What one segment pushes on [out]; [None] when it pushes nothing. *)
Definition plain_piece (seg : Segment) : option string :=
  if String.eqb (seg_type seg) "text" then
    Some match seg_data seg !! "text" with
         | Some (VStr s) => s
         | _ => ""
         end
  else if String.eqb (seg_type seg) "at" then
    let qq := trim (js_String (nullish_or (seg_data seg !! "qq") (VStr ""))) in
    Some (if truthy qq then "@" +:+ qq else "@")
  else if String.eqb (seg_type seg) "image" then Some "[image]"
  else if String.eqb (seg_type seg) "file" then Some "[file]"
  else if String.eqb (seg_type seg) "record" then Some "[audio]"
  else None.

Definition toPlainText (segments : list Segment) : string :=
  let out := omap plain_piece segments in
  trim (collapse_spaces (join "" out)).

Definition extractMentions (segments : list Segment) : list string :=
  filter (fun s => truthy s = true)
    (map (fun seg => trim (js_String (nullish_or (seg_data seg !! "qq") (VStr ""))))
       (filter (fun seg => seg_type seg = "at") segments)).

Fixpoint extractReplyId (segments : list Segment) : option string :=
  match segments with
  | [] => None
  | seg :: rest =>
      if String.eqb (seg_type seg) "reply" then
        let id := trim (js_String (nullish_or (seg_data seg !! "id") (VStr ""))) in
        if truthy id then Some id else extractReplyId rest
      else extractReplyId rest
  end.

(** A media reference: the segment type and the trimmed [url], or
    [file] when [url] is [null] or [undefined]. *)
Record MediaRef : Type := mkMediaRef {
  ref_type : string;
  ref_value : string;
}.

Definition is_media (t : string) : bool :=
  String.eqb t "image" || String.eqb t "file" || String.eqb t "record".

(** What one segment pushes on [out] in [extractMediaRefs]. *)
Definition media_ref (seg : Segment) : option MediaRef :=
  if is_media (seg_type seg) then
    let value :=
      trim (js_String
              (nullish_or (seg_data seg !! "url")
                 (nullish_or (seg_data seg !! "file") (VStr "")))) in
    if truthy value then Some (mkMediaRef (seg_type seg) value) else None
  else None.

Definition extractMediaRefs (segments : list Segment) : list MediaRef :=
  omap media_ref segments.

(** ** The parser *)

(** [{ cqType: type, ...data }]: the spread properties are written after
    [cqType], so a property of [data] named [cqType] replaces it. *)
Definition with_cqType (type : string) (data : gmap string JsValue)
  : gmap string JsValue :=
  data ∪ {[ "cqType" := VStr type ]}.

(** The body of the [for (const kv of attrs.split(","))] loop. *)
Definition parse_attr (data : gmap string JsValue) (kv : string)
  : gmap string JsValue :=
  let idx := indexOf "=" kv in
  if idx <=? 0 then data
  else
    let key := trim (slice kv 0 (Z.to_nat idx)) in
    let value := unescape_amp (trim (slice_from kv (Z.to_nat (idx + 1)))) in
    obj_set key (VStr value) data.

Definition parse_attrs (attrs : string) : gmap string JsValue :=
  if truthy attrs then fold_left parse_attr (split "," attrs) ∅ else ∅.

(** [typePart?.trim() || "unknown"]. *)
Definition type_of_body (body : string) : string :=
  match split "," body with
  | typePart :: _ =>
      let t := trim typePart in if truthy t then t else "unknown"
  | [] => "unknown"
  end.

Definition parseCQBody (body : string) : Segment :=
  let raw := "[CQ:" +:+ body +:+ "]" in
  let type := type_of_body body in
  let rest := tail (split "," body) in
  let data := parse_attrs (join "," rest) in
  if known_type type
  then mkSegment type data (Some raw)
  else mkSegment "unknown" (with_cqType type data) (Some raw).

(** *** The regular expression [/\[CQ:([^[\]]+)\]/g] *)

Definition is_bracket (c : ascii) : bool :=
  Ascii.eqb c "[" || Ascii.eqb c "]".

(** A bracket-free string: the language of the capture group. *)
Fixpoint bracket_free (s : string) : bool :=
  match s with
  | EmptyString => true
  | String c s' => negb (is_bracket c) && bracket_free s'
  end.

(** [s] contains a markup token: a substring ["[CQ:" body "]"] with a
    non-empty bracket-free body. *)
Definition has_token (s : string) : Prop :=
  exists pre body post,
    s = pre +:+ "[CQ:" +:+ body +:+ "]" +:+ post
    /\ body <> "" /\ bracket_free body = true.

(** The longest bracket-free prefix of [s], and what follows it. *)
Fixpoint span_body (s : string) : string * string :=
  match s with
  | EmptyString => (EmptyString, EmptyString)
  | String c s' =>
      if is_bracket c then (EmptyString, s)
      else let '(b, r) := span_body s' in (String c b, r)
  end.

(** A match that starts at the first character of [s]: the capture
    group.  The group is greedy; a shorter group cannot help, since the
    character after it would be bracket-free and not the closing
    bracket. *)
Definition match_here (s : string) : option string :=
  match s with
  | String "[" (String "C" (String "Q" (String ":" r))) =>
      match span_body r with
      | (String c b, String "]" _) => Some (String c b)
      | _ => None
      end
  | _ => None
  end.

(** The leftmost match in [s], where [s] starts at index [i] of the
    input: [match.index], [match[1]] and the length of [match[0]]. *)
Fixpoint search (s : string) (i : nat) : option (nat * string * nat) :=
  match match_here s with
  | Some body => Some (i, body, (5 + len body)%nat)
  | None =>
      match s with
      | EmptyString => None
      | String _ s' => search s' (S i)
      end
  end.

(** [re.exec(input)] with [re.lastIndex = lastIndex]. *)
Definition re_exec (input : string) (lastIndex : nat) : option (nat * string * nat) :=
  search (drop lastIndex input) lastIndex.

Lemma span_body_len r b r' :
  span_body r = (b, r') -> (len r = len b + len r')%nat.
Proof.
  revert b r'. induction r as [|a r IH]; intros b r' E; simpl in E.
  - inversion E; reflexivity.
  - destruct (is_bracket a).
    + inversion E; reflexivity.
    + destruct (span_body r) as [b0 r0]. inversion E; subst.
      specialize (IH _ _ eq_refl). unfold len in *. simpl. lia.
Qed.

Lemma match_here_len s body :
  match_here s = Some body -> (0 < len body /\ 5 + len body <= len s)%nat.
Proof.
  unfold match_here. intros H.
  repeat match type of H with
         | match ?x with _ => _ end = _ =>
             let E := fresh "E" in destruct x eqn:E; try discriminate
         | (if ?x then _ else _) = _ =>
             let E := fresh "E" in destruct x eqn:E; try discriminate
         end.
  inversion H; subst; clear H.
  match goal with E : span_body _ = _ |- _ => apply span_body_len in E end.
  unfold len in *. simpl in *. lia.
Qed.

Lemma search_bounds s i idx body n :
  search s i = Some (idx, body, n) ->
  (i <= idx /\ idx + n <= i + len s /\ 5 < n)%nat.
Proof.
  revert i. induction s as [|c s IH]; intros i H; cbn [search] in H.
  - discriminate.
  - destruct (match_here (String c s)) as [b|] eqn:Hm.
    + apply match_here_len in Hm. injection H as <- <- <-. lia.
    + apply IH in H. unfold len in *. simpl. lia.
Qed.

Lemma len_drop n s : (len (drop n s) = len s - n)%nat.
Proof.
  revert s. induction n as [|n IH]; intros [|c s]; simpl; try reflexivity; try lia.
  apply IH.
Qed.

Lemma re_exec_bounds input cursor idx body n :
  re_exec input cursor = Some (idx, body, n) ->
  (cursor <= idx /\ idx + n <= len input /\ 5 < n)%nat.
Proof.
  unfold re_exec. intros H. apply search_bounds in H.
  rewrite len_drop in H. lia.
Qed.

(** Keeps the equation of a scrutinee for the termination argument. *)
Definition inspect {A : Type} (x : A) : { y : A | x = y } := exist _ x eq_refl.

Definition text_segment (s : string) : Segment :=
  mkSegment "text" {[ "text" := VStr s ]} None.

(** The [while ((match = re.exec(input)) != null)] loop: the segments
    pushed so far and the cursor, at loop exit. *)
Equations? scan_tokens (input : string) (cursor : nat) (segments : list Segment)
  : list Segment * nat by wf (len input - cursor)%nat lt :=
  scan_tokens input cursor segments with inspect (re_exec input cursor) := {
    | exist _ (Some (idx, body, n)) Hm =>
        let segments :=
          if (cursor <? idx)%nat
          then segments ++ [text_segment (slice input cursor idx)]
          else segments in
        scan_tokens input (idx + n) (segments ++ [parseCQBody body])
    | exist _ None _ => (segments, cursor) }.
Proof. apply re_exec_bounds in Hm. lia. Qed.

Definition parseStringInput (input : string) : list Segment :=
  let '(segments, cursor) := scan_tokens input 0 [] in
  let segments :=
    if (cursor <? len input)%nat
    then segments ++ [text_segment (slice_from input cursor)]
    else segments in
  match segments with
  | [] => [text_segment input]
  | _ => segments
  end.

(** One element of an already-structured message: [it_type] is [Some]
    when [typeof seg?.type === "string"], [it_data] is [Some] when
    [seg.data] is a non-null object. *)
Record ArrayItem : Type := mkItem {
  it_type : option string;
  it_data : option (gmap string JsValue);
}.

Definition parseArrayItem (item : ArrayItem) : Segment :=
  let type := default "unknown" (it_type item) in
  let data := default ∅ (it_data item) in
  if known_type type
  then mkSegment type data None
  else mkSegment "unknown" (with_cqType type data) None.

Definition parseArrayInput (input : list ArrayItem) : list Segment :=
  map parseArrayItem input.

(** [string | unknown[] | undefined | null]. *)
Inductive CQInput : Type :=
| InString (s : string)
| InArray (items : list ArrayItem)
| InAbsent.

Definition parseInboundCQ (input : CQInput) : list Segment :=
  match input with
  | InString s => parseStringInput s
  | InArray items => parseArrayInput items
  | InAbsent => []
  end.

End CQ.

(* ================================================================== *)
(** * The OneBot websocket client                                      *)
(* ================================================================== *)

(** The client is an object driven by the Node event loop.  Its methods
    and callbacks run to completion one at a time, so the embedding is a
    deterministic transition function [step] over a [World]: the fields of
    the object, the armed timers, the closure variables of every socket
    created by [connect], the promise continuations that are queued, and
    the chronological [trace] of what the client did to the outside
    (events emitted, promises settled, timers set and cleared, socket
    calls).

    What the environment decides is an argument of the event: the clock
    ([Date.now()]), the random draw ([Math.random()]), the [readyState] of
    the socket, whether a socket call throws, and the outcome of
    [JSON.parse] on an inbound frame.

    Assumptions of the embedding.
    - Listeners are observers: [emit] hands them the payload and they do
      not call back into the client while it is dispatching.
    - The two continuation kinds that the client itself awaits (the
      [.catch] of a reconnect attempt and the rest of [disconnect] after
      its [await]) are events of their own, enabled once queued; the
      [.finally] that clears [connectPromise] runs with the settlement.
    - [new WebSocket(...)] does not throw.
    - The constants of [const.ts] are not part of the sources at hand; the
      constructor takes them as the defaults [Defaults]. *)

Module OneBot.
Import JsString.

Definition SockId := nat.
Definition TimerId := nat.
Definition PromiseId := nat.
Bind Scope nat_scope with SockId TimerId PromiseId.

(** ** util.ts *)

(** A double as a caller can pass it: a rational, or not finite. *)
Inductive number : Type :=
| Finite (q : Q)
| NaN
| PosInfinity
| NegInfinity.

Definition clampMs (value : number) (fallback : Z) : Z :=
  match value with
  | Finite q => if Qle_bool 0 q then Qfloor q else fallback
  | NaN | PosInfinity | NegInfinity => fallback
  end.

(** The result of [JSON.parse]. *)
#[local] Unset Elimination Schemes.
Inductive json : Type :=
| JNull
| JBool (b : bool)
| JNumber (q : Q)
| JString (s : string)
| JArray (items : list json)
| JObject (props : list (string * json)).
#[local] Set Elimination Schemes.

Fixpoint assoc (name : string) (props : list (string * json)) : option json :=
  match props with
  | [] => None
  | (k, v) :: rest => if String.eqb k name then Some v else assoc name rest
  end.

(** [value.name] for one of the names the client reads ([status],
    [retcode], [echo], [post_type]); an array has none of them. *)
Definition get_prop (name : string) (value : json) : option json :=
  match value with
  | JObject props => assoc name props
  | _ => None
  end.

Definition isRecord (value : json) : bool :=
  match value with
  | JObject _ | JArray _ => true
  | _ => false
  end.

Definition is_string (o : option json) : bool :=
  match o with Some (JString _) => true | _ => false end.

Definition is_number (o : option json) : bool :=
  match o with Some (JNumber _) => true | _ => false end.

Definition isEventPacket (value : json) : bool :=
  isRecord value && is_string (get_prop "post_type" value).

Definition isApiResponsePacket (value : json) : bool :=
  isRecord value && is_string (get_prop "status" value)
  && is_number (get_prop "retcode" value).

(** ** types.ts *)

Inductive OneBotClientState : Type :=
| idle | connecting | open | closing | closed | reconnecting.

(** [WebSocket.readyState]. *)
Inductive ReadyState : Type := CONNECTING | OPEN | CLOSING | CLOSED.

Record OneBotActionRequest : Type := mkRequest {
  req_action : string;
  req_params : option json;
  req_echo : string;
}.

Record OneBotCloseEvent : Type := mkCloseEvent {
  close_code : Z;
  close_reason : string;
  wasClean : bool;
}.

Record OneBotReconnectEvent : Type := mkReconnectEvent {
  attempt : Z;
  delayMs : Z;
  reconnect_reason : string;
}.

Record OneBotTimeoutEvent : Type := mkTimeoutEvent {
  timeout_action : string;
  timeout_echo : string;
  timeout_timeoutMs : Z;
}.

(** The errors made by [createClientError], by the place that makes
    them; [message] gives the text. *)
Inductive OneBotClientError : Type :=
| WebSocketError
| ConnectFailed
| ClosedBeforeOpen (code : Z) (reason : string)
| NotConnected
| ActionTimeout (action : string) (timeoutMs : Z)
| SendFailed (action : string)
| ParseFailed
| UnsupportedPayload
| Disconnected
| SocketClosed (code : Z) (reason : string)
| ReconnectExhausted (maxAttempts : Z) (reason : string)
| ReconnectAttemptFailed
| HeartbeatTimeout (timeoutMs : Z)
| CloseFailed.

Definition message (e : OneBotClientError) : string :=
  match e with
  | WebSocketError => "WebSocket error"
  | ConnectFailed => "WebSocket connect failed"
  | ClosedBeforeOpen code reason =>
      "WebSocket closed before open (" +:+ of_Z code +:+ " " +:+ reason +:+ ")"
  | NotConnected => "WebSocket is not connected"
  | ActionTimeout action timeoutMs =>
      "OneBot action timeout: " +:+ action +:+ " (" +:+ of_Z timeoutMs +:+ "ms)"
  | SendFailed action => "Failed to send action: " +:+ action
  | ParseFailed => "Failed to parse inbound JSON"
  | UnsupportedPayload => "Received unsupported OneBot payload"
  | Disconnected => "Disconnected"
  | SocketClosed code reason =>
      "WebSocket closed (" +:+ of_Z code +:+ " " +:+ reason +:+ ")"
  | ReconnectExhausted maxAttempts reason =>
      "Reconnect exhausted after " +:+ of_Z maxAttempts +:+ " attempts ("
      +:+ reason +:+ ")"
  | ReconnectAttemptFailed => "Reconnect attempt failed"
  | HeartbeatTimeout timeoutMs =>
      "Heartbeat timeout after " +:+ of_Z timeoutMs +:+ "ms"
  | CloseFailed => "Failed to close timed-out socket"
  end.

Inductive Direction : Type := dir_in | dir_out.

Inductive RawData : Type :=
| RawText (text : string)
| RawJson (payload : json)
| RawRequest (payload : OneBotActionRequest).

(** [OneBotClientEventMap]: an event name with its payload. *)
Inductive ClientEvent : Type :=
| ev_open
| ev_close (e : OneBotCloseEvent)
| ev_reconnecting (e : OneBotReconnectEvent)
| ev_error (e : OneBotClientError)
| ev_raw (direction : Direction) (data : RawData)
| ev_event (payload : json)
| ev_message (payload : json)
| ev_notice (payload : json)
| ev_request (payload : json)
| ev_meta_event (payload : json)
| ev_response (payload : json)
| ev_timeout (e : OneBotTimeoutEvent).

(** [PendingRequest]: [promise] stands for the pair [resolve]/[reject]. *)
Record PendingRequest : Type := mkPending {
  action : string;
  timeoutMs : Z;
  promise : PromiseId;
  timer : TimerId;
}.

(** The options after the constructor has filled in the defaults.  The
    heartbeat timeout is an integer number of milliseconds when given. *)
Record Options : Type := mkOptions {
  url : string;
  accessToken : option string;
  reconnect : bool;
  reconnectBaseDelayMs : Z;
  reconnectMaxAttempts : Z;
  reconnectMaxDelayMs : Z;
  requestTimeoutMs : Z;
  heartbeatTimeoutMs : option Z;
}.

(** [OneBotWsClientOptions], as the caller writes them. *)
Record OneBotWsClientOptions : Type := mkRawOptions {
  raw_url : string;
  raw_accessToken : option string;
  raw_reconnect : option bool;
  raw_reconnectBaseDelayMs : option number;
  raw_reconnectMaxAttempts : option number;
  raw_reconnectMaxDelayMs : option number;
  raw_requestTimeoutMs : option number;
  raw_heartbeatTimeoutMs : option Z;
}.

(** const.ts. *)
Record Defaults : Type := mkDefaults {
  DEFAULT_RECONNECT_ENABLED : bool;
  DEFAULT_RECONNECT_BASE_DELAY_MS : Z;
  DEFAULT_RECONNECT_MAX_ATTEMPTS : Z;
  DEFAULT_RECONNECT_MAX_DELAY_MS : Z;
  DEFAULT_REQUEST_TIMEOUT_MS : Z;
}.

Definition of_int (n : Z) : number := Finite (inject_Z n).

(** The option object built by the constructor. *)
Definition resolve_options (d : Defaults) (o : OneBotWsClientOptions) : Options :=
  mkOptions
    (raw_url o)
    (raw_accessToken o)
    (default (DEFAULT_RECONNECT_ENABLED d) (raw_reconnect o))
    (clampMs (default (of_int (DEFAULT_RECONNECT_BASE_DELAY_MS d))
                (raw_reconnectBaseDelayMs o))
       (DEFAULT_RECONNECT_BASE_DELAY_MS d))
    (clampMs (default (of_int (DEFAULT_RECONNECT_MAX_ATTEMPTS d))
                (raw_reconnectMaxAttempts o))
       (DEFAULT_RECONNECT_MAX_ATTEMPTS d))
    (clampMs (default (of_int (DEFAULT_RECONNECT_MAX_DELAY_MS d))
                (raw_reconnectMaxDelayMs o))
       (DEFAULT_RECONNECT_MAX_DELAY_MS d))
    (clampMs (default (of_int (DEFAULT_REQUEST_TIMEOUT_MS d))
                (raw_requestTimeoutMs o))
       (DEFAULT_REQUEST_TIMEOUT_MS d))
    (raw_heartbeatTimeoutMs o).

(** ** The world *)

(** What an armed timer runs when it fires. *)
Inductive TimerTask : Type :=
| RequestTimeout (echo : string) (action : string) (timeoutMs : Z) (p : PromiseId)
| ReconnectFire (nextAttempt : Z)
| HeartbeatCheck (timeoutMs : Z).

(** The closure variables of one [connect] attempt and the listeners
    that wait on its socket: [catchers] counts the [.catch] handlers of
    reconnect timers attached to the attempt, [closeWaiters] the
    [once("close")] listeners of suspended [disconnect] calls. *)
Record SockLocals : Type := mkLocals {
  opened : bool;
  settled : bool;
  catchers : nat;
  closeWaiters : nat;
}.

Inductive Effect : Type :=
| Emit (e : ClientEvent)
| Resolve (p : PromiseId) (value : json)
| Reject (p : PromiseId) (error : OneBotClientError)
| SetTimeout (t : TimerId) (ms : Z)
| SetInterval (t : TimerId) (ms : Z)
| ClearTimeout (t : TimerId)
| ClearInterval (t : TimerId)
| NewWebSocket (s : SockId) (url : string) (authorization : option string)
| WsSend (s : SockId) (frame : OneBotActionRequest)
| WsClose (s : SockId) (code : Z) (reason : string)
| ConnectResolved (s : SockId)
| ConnectRejected (s : SockId) (error : OneBotClientError)
| DisconnectReturned.

(** The fields of the class. *)
Record OneBotWsClient : Type := mkClient {
  options : Options;
  ws : option SockId;
  state : OneBotClientState;
  manuallyClosed : bool;
  connectPromise : option SockId;
  reconnectAttempt : Z;
  reconnectTimer : option TimerId;
  lastInboundAt : Z;
  heartbeatTimer : option TimerId;
  echoSeq : Z;
  pendingRequests : list (string * PendingRequest);
}.

Record World : Type := mkWorld {
  self : OneBotWsClient;
  timers : gmap nat TimerTask;
  sockets : gmap nat SockLocals;
  fresh : nat;
  catchJobs : nat;
  resumeJobs : nat;
  trace : list Effect;
}.

Definition set_ws (v : option SockId) (c : OneBotWsClient) : OneBotWsClient :=
  mkClient (options c) v (state c) (manuallyClosed c) (connectPromise c) (reconnectAttempt c) (reconnectTimer c) (lastInboundAt c) (heartbeatTimer c) (echoSeq c) (pendingRequests c).

Definition set_state (v : OneBotClientState) (c : OneBotWsClient) : OneBotWsClient :=
  mkClient (options c) (ws c) v (manuallyClosed c) (connectPromise c) (reconnectAttempt c) (reconnectTimer c) (lastInboundAt c) (heartbeatTimer c) (echoSeq c) (pendingRequests c).

Definition set_manuallyClosed (v : bool) (c : OneBotWsClient) : OneBotWsClient :=
  mkClient (options c) (ws c) (state c) v (connectPromise c) (reconnectAttempt c) (reconnectTimer c) (lastInboundAt c) (heartbeatTimer c) (echoSeq c) (pendingRequests c).

Definition set_connectPromise (v : option SockId) (c : OneBotWsClient) : OneBotWsClient :=
  mkClient (options c) (ws c) (state c) (manuallyClosed c) v (reconnectAttempt c) (reconnectTimer c) (lastInboundAt c) (heartbeatTimer c) (echoSeq c) (pendingRequests c).

Definition set_reconnectAttempt (v : Z) (c : OneBotWsClient) : OneBotWsClient :=
  mkClient (options c) (ws c) (state c) (manuallyClosed c) (connectPromise c) v (reconnectTimer c) (lastInboundAt c) (heartbeatTimer c) (echoSeq c) (pendingRequests c).

Definition set_reconnectTimer (v : option TimerId) (c : OneBotWsClient) : OneBotWsClient :=
  mkClient (options c) (ws c) (state c) (manuallyClosed c) (connectPromise c) (reconnectAttempt c) v (lastInboundAt c) (heartbeatTimer c) (echoSeq c) (pendingRequests c).

Definition set_lastInboundAt (v : Z) (c : OneBotWsClient) : OneBotWsClient :=
  mkClient (options c) (ws c) (state c) (manuallyClosed c) (connectPromise c) (reconnectAttempt c) (reconnectTimer c) v (heartbeatTimer c) (echoSeq c) (pendingRequests c).

Definition set_heartbeatTimer (v : option TimerId) (c : OneBotWsClient) : OneBotWsClient :=
  mkClient (options c) (ws c) (state c) (manuallyClosed c) (connectPromise c) (reconnectAttempt c) (reconnectTimer c) (lastInboundAt c) v (echoSeq c) (pendingRequests c).

Definition set_echoSeq (v : Z) (c : OneBotWsClient) : OneBotWsClient :=
  mkClient (options c) (ws c) (state c) (manuallyClosed c) (connectPromise c) (reconnectAttempt c) (reconnectTimer c) (lastInboundAt c) (heartbeatTimer c) v (pendingRequests c).

Definition set_pendingRequests (v : list (string * PendingRequest)) (c : OneBotWsClient) : OneBotWsClient :=
  mkClient (options c) (ws c) (state c) (manuallyClosed c) (connectPromise c) (reconnectAttempt c) (reconnectTimer c) (lastInboundAt c) (heartbeatTimer c) (echoSeq c) v.

Definition set_self (v : OneBotWsClient) (w : World) : World :=
  mkWorld v (timers w) (sockets w) (fresh w) (catchJobs w) (resumeJobs w) (trace w).

Definition set_timers (v : gmap nat TimerTask) (w : World) : World :=
  mkWorld (self w) v (sockets w) (fresh w) (catchJobs w) (resumeJobs w) (trace w).

Definition set_sockets (v : gmap nat SockLocals) (w : World) : World :=
  mkWorld (self w) (timers w) v (fresh w) (catchJobs w) (resumeJobs w) (trace w).

Definition set_fresh (v : nat) (w : World) : World :=
  mkWorld (self w) (timers w) (sockets w) v (catchJobs w) (resumeJobs w) (trace w).

Definition set_catchJobs (v : nat) (w : World) : World :=
  mkWorld (self w) (timers w) (sockets w) (fresh w) v (resumeJobs w) (trace w).

Definition set_resumeJobs (v : nat) (w : World) : World :=
  mkWorld (self w) (timers w) (sockets w) (fresh w) (catchJobs w) v (trace w).

Definition set_trace (v : list Effect) (w : World) : World :=
  mkWorld (self w) (timers w) (sockets w) (fresh w) (catchJobs w) (resumeJobs w) v.


(** ** A JavaScript [Map] with string keys, in insertion order *)

Fixpoint map_get {V : Type} (k : string) (m : list (string * V)) : option V :=
  match m with
  | [] => None
  | (k', v) :: rest => if String.eqb k' k then Some v else map_get k rest
  end.

(** [set] keeps the position of a key that is present. *)
Fixpoint map_set {V : Type} (k : string) (v : V) (m : list (string * V))
  : list (string * V) :=
  match m with
  | [] => [(k, v)]
  | (k', v') :: rest =>
      if String.eqb k' k then (k', v) :: rest else (k', v') :: map_set k v rest
  end.

Fixpoint map_delete {V : Type} (k : string) (m : list (string * V))
  : list (string * V) :=
  match m with
  | [] => []
  | (k', v') :: rest =>
      if String.eqb k' k then map_delete k rest else (k', v') :: map_delete k rest
  end.

(** ** Primitive moves *)

Definition log (e : Effect) (w : World) : World :=
  set_trace (trace w ++ [e]) w.

Definition on_self (f : OneBotWsClient -> OneBotWsClient) (w : World) : World :=
  set_self (f (self w)) w.

(** [this.emit(event, payload)]. *)
Definition emit (e : ClientEvent) (w : World) : World := log (Emit e) w.

Definition transitionTo (next : OneBotClientState) (w : World) : World :=
  on_self (set_state next) w.

(** [setTimeout(task, ms)]: the handle is [fresh w]. *)
Definition setTimeout (task : TimerTask) (ms : Z) (w : World) : World :=
  log (SetTimeout (fresh w) ms)
    (set_fresh (S (fresh w)) (set_timers (<[fresh w := task]> (timers w)) w)).

Definition setInterval (task : TimerTask) (ms : Z) (w : World) : World :=
  log (SetInterval (fresh w) ms)
    (set_fresh (S (fresh w)) (set_timers (<[fresh w := task]> (timers w)) w)).

Definition clearTimeout (t : TimerId) (w : World) : World :=
  log (ClearTimeout t) (set_timers (delete t (timers w)) w).

Definition clearInterval (t : TimerId) (w : World) : World :=
  log (ClearInterval t) (set_timers (delete t (timers w)) w).

Definition set_pending (m : list (string * PendingRequest)) (w : World) : World :=
  on_self (set_pendingRequests m) w.

(** ** Private methods *)

Definition clearReconnectTimer (w : World) : World :=
  match reconnectTimer (self w) with
  | None => w
  | Some t => on_self (set_reconnectTimer None) (clearTimeout t w)
  end.

Definition stopHeartbeatMonitor (w : World) : World :=
  match heartbeatTimer (self w) with
  | None => w
  | Some t => on_self (set_heartbeatTimer None) (clearInterval t w)
  end.

Definition startHeartbeatMonitor (w : World) : World :=
  let w := stopHeartbeatMonitor w in
  match heartbeatTimeoutMs (options (self w)) with
  | None => w
  | Some timeoutMs =>
      if timeoutMs <=? 0 then w
      else
        let checkInterval := Z.max 1000 (timeoutMs / 2) in
        let t := fresh w in
        on_self (set_heartbeatTimer (Some t))
          (setInterval (HeartbeatCheck timeoutMs) checkInterval w)
  end.

(** The loop of [rejectAllPending] over the entries of the map. *)
Fixpoint reject_entries (error : OneBotClientError)
         (entries : list (string * PendingRequest)) (w : World) : World :=
  match entries with
  | [] => w
  | (echo, pending) :: rest =>
      let w := clearTimeout (timer pending) w in
      let w := log (Reject (promise pending) error) w in
      let w := set_pending (map_delete echo (pendingRequests (self w))) w in
      reject_entries error rest w
  end.

Definition rejectAllPending (error : OneBotClientError) (w : World) : World :=
  reject_entries error (pendingRequests (self w)) w.

(** [Math.floor(Math.random() * 300)]. *)
Definition jitter (random : Q) : Z := Qfloor (random * 300)%Q.

(** [Math.min(reconnectMaxDelayMs, reconnectBaseDelayMs * 2 ** (nextAttempt - 1))].
    On doubles the product is exact until it overflows to [Infinity],
    where the minimum is [reconnectMaxDelayMs] as it is here. *)
Definition exponentialDelay (o : Options) (nextAttempt : Z) : Z :=
  Z.min (reconnectMaxDelayMs o) (reconnectBaseDelayMs o * 2 ^ (nextAttempt - 1)).

Definition scheduleReconnect (reason : string) (random : Q) (w : World) : World :=
  match reconnectTimer (self w) with
  | Some _ => w
  | None =>
      let nextAttempt := reconnectAttempt (self w) + 1 in
      let o := options (self w) in
      if reconnectMaxAttempts o <? nextAttempt then
        emit (ev_error (ReconnectExhausted (reconnectMaxAttempts o) reason)) w
      else
        let delayMs := exponentialDelay o nextAttempt + jitter random in
        let w := transitionTo reconnecting w in
        let w := emit (ev_reconnecting (mkReconnectEvent nextAttempt delayMs reason)) w in
        let t := fresh w in
        on_self (set_reconnectTimer (Some t))
          (setTimeout (ReconnectFire nextAttempt) delayMs w)
  end.

Definition handleSocketClose (event : OneBotCloseEvent) (random : Q) (w : World)
  : World :=
  let w := stopHeartbeatMonitor w in
  let w := on_self (set_ws None) w in
  let w := transitionTo closed w in
  let w := emit (ev_close event) w in
  let w := rejectAllPending
             (SocketClosed (close_code event) (close_reason event)) w in
  if manuallyClosed (self w) then w
  else if negb (reconnect (options (self w))) then w
  else scheduleReconnect ("close:" +:+ of_Z (close_code event)) random w.

(** The outcome of [JSON.parse(toText(rawData))]. *)
Inductive Inbound : Type :=
| Unparseable (text : string)
| Parsed (payload : json).

Definition dispatch_event (payload : json) (w : World) : World :=
  let w := emit (ev_event payload) w in
  match get_prop "post_type" payload with
  | Some (JString t) =>
      if String.eqb t "message" then emit (ev_message payload) w
      else if String.eqb t "notice" then emit (ev_notice payload) w
      else if String.eqb t "request" then emit (ev_request payload) w
      else if String.eqb t "meta_event" then emit (ev_meta_event payload) w
      else w
  | _ => w
  end.

Definition handleInbound (data : Inbound) (w : World) : World :=
  match data with
  | Unparseable text =>
      emit (ev_error ParseFailed) (emit (ev_raw dir_in (RawText text)) w)
  | Parsed payload =>
      let w := emit (ev_raw dir_in (RawJson payload)) w in
      if isApiResponsePacket payload then
        let w := emit (ev_response payload) w in
        match get_prop "echo" payload with
        | Some (JString echo) =>
            match map_get echo (pendingRequests (self w)) with
            | Some pending =>
                let w := clearTimeout (timer pending) w in
                let w := set_pending (map_delete echo (pendingRequests (self w))) w in
                log (Resolve (promise pending) payload) w
            | None => w
            end
        | _ => w
        end
      else if isEventPacket payload then dispatch_event payload w
      else emit (ev_error UnsupportedPayload) w
  end.

Definition echo_token (now seq : Z) : string :=
  "ob_" +:+ of_Z now +:+ "_" +:+ of_Z seq.

(** [generateEcho]: the token, and the world with the counter moved. *)
Definition generateEcho (now : Z) (w : World) : string * World :=
  let seq := echoSeq (self w) + 1 in
  (echo_token now seq, on_self (set_echoSeq seq) w).

(** ** Public methods *)

Definition add_catcher (l : SockLocals) : SockLocals :=
  mkLocals (opened l) (settled l) (S (catchers l)) (closeWaiters l).

Definition add_closeWaiter (l : SockLocals) : SockLocals :=
  mkLocals (opened l) (settled l) (catchers l) (S (closeWaiters l)).

Definition authorization (o : Options) : option string :=
  match accessToken o with
  | Some token => if truthy token then Some ("Bearer " +:+ token) else None
  | None => None
  end.

(** [connect()]; [via_reconnect] tells that the caller is the reconnect
    timer, which attaches a [.catch] to the promise it gets. *)
Definition connect (via_reconnect : bool) (w : World) : World :=
  match state (self w) with
  | open => w
  | _ =>
      match connectPromise (self w) with
      | Some s =>
          if via_reconnect
          then set_sockets (alter add_catcher s (sockets w)) w
          else w
      | None =>
          let w := on_self (set_manuallyClosed false) w in
          let w := clearReconnectTimer w in
          let w := transitionTo connecting w in
          let s := fresh w in
          let w := set_fresh (S s) w in
          let o := options (self w) in
          let w := log (NewWebSocket s (url o) (authorization o)) w in
          let locals := mkLocals false false (if via_reconnect then 1 else 0) 0 in
          let w := set_sockets (<[s := locals]> (sockets w)) w in
          let w := on_self (set_ws (Some s)) w in
          on_self (set_connectPromise (Some s)) w
      end
  end.

(** [resolve()] or [reject(error)] of the promise of attempt [s], guarded
    by its [settled] flag, with the [.finally] that follows. *)
Definition settle_connect (s : SockId) (l : SockLocals)
           (error : option OneBotClientError) (w : World) : World :=
  if settled l then w
  else
    let l' := mkLocals (opened l) true (catchers l) (closeWaiters l) in
    let w := set_sockets (<[s := l']> (sockets w)) w in
    let w := on_self (set_connectPromise None) w in
    match error with
    | None => log (ConnectResolved s) w
    | Some e =>
        set_catchJobs (catchJobs w + catchers l)%nat (log (ConnectRejected s e) w)
    end.

(** [ws.on("open", ...)]. *)
Definition on_open (s : SockId) (l : SockLocals) (now : Z) (w : World) : World :=
  let l := mkLocals true (settled l) (catchers l) (closeWaiters l) in
  let w := set_sockets (<[s := l]> (sockets w)) w in
  let w := on_self (set_reconnectAttempt 0) w in
  let w := on_self (set_lastInboundAt now) w in
  let w := startHeartbeatMonitor w in
  let w := transitionTo open w in
  let w := emit ev_open w in
  settle_connect s l None w.

(** [ws.on("message", ...)]. *)
Definition on_message (now : Z) (data : Inbound) (w : World) : World :=
  handleInbound data (on_self (set_lastInboundAt now) w).

(** [ws.on("error", ...)]. *)
Definition on_error (s : SockId) (l : SockLocals) (w : World) : World :=
  let w := emit (ev_error WebSocketError) w in
  if opened l then w else settle_connect s l (Some ConnectFailed) w.

(** [ws.on("close", ...)], then the [once("close")] listeners of
    suspended [disconnect] calls. *)
Definition on_close (s : SockId) (l : SockLocals) (code : Z) (reason : string)
           (random : Q) (w : World) : World :=
  let w := handleSocketClose (mkCloseEvent code reason true) random w in
  let w := if opened l then w
           else settle_connect s l (Some (ClosedBeforeOpen code reason)) w in
  match sockets w !! s with
  | Some l' =>
      set_resumeJobs (resumeJobs w + closeWaiters l')%nat
        (set_sockets
           (<[s := mkLocals (opened l') (settled l') (catchers l') 0]> (sockets w)) w)
  | None => w
  end.

(** [disconnect(code, reason)] up to its return or its [await]. *)
Definition disconnect (code : Z) (reason : string) (readyState : ReadyState)
           (close_throws : bool) (w : World) : World :=
  let w := on_self (set_manuallyClosed true) w in
  let w := clearReconnectTimer w in
  let w := stopHeartbeatMonitor w in
  let w := transitionTo closing w in
  match ws (self w) with
  | None =>
      let w := transitionTo closed w in
      log DisconnectReturned (rejectAllPending Disconnected w)
  | Some s =>
      match readyState with
      | CLOSED =>
          let w := on_self (set_ws None) w in
          let w := transitionTo closed w in
          log DisconnectReturned (rejectAllPending Disconnected w)
      | _ =>
          if close_throws then set_resumeJobs (S (resumeJobs w)) w
          else
            set_sockets (alter add_closeWaiter s (sockets w))
              (log (WsClose s code reason) w)
      end
  end.

(** The rest of [disconnect] after the [await]. *)
Definition disconnect_resume (w : World) : World :=
  let w := transitionTo closed w in
  log DisconnectReturned (rejectAllPending Disconnected w).

Inductive CallResult : Type :=
| Thrown (error : OneBotClientError)
| Returned (p : PromiseId).

(** [callAction(action, params, { timeoutMs, echo })]. *)
Definition callAction (action : string) (params : option json)
           (timeoutMs : option number) (echo : option string)
           (readyState : ReadyState) (now : Z) (send_throws : bool)
           (w : World) : CallResult * World :=
  match ws (self w), state (self w), readyState with
  | Some s, open, OPEN =>
      let o := options (self w) in
      let timeoutMs :=
        clampMs (default (of_int (requestTimeoutMs o)) timeoutMs)
          (requestTimeoutMs o) in
      let '(echo, w) :=
        match echo with
        | Some e => (e, w)
        | None => generateEcho now w
        end in
      let payload := mkRequest action params echo in
      let w := emit (ev_raw dir_out (RawRequest payload)) w in
      let p := fresh w in
      let w := set_fresh (S p) w in
      let t := fresh w in
      let w := setTimeout (RequestTimeout echo action timeoutMs p) timeoutMs w in
      let w := set_pending
                 (map_set echo (mkPending action timeoutMs p t)
                    (pendingRequests (self w))) w in
      if send_throws then
        let w :=
          match map_get echo (pendingRequests (self w)) with
          | Some pending =>
              set_pending (map_delete echo (pendingRequests (self w)))
                (clearTimeout (timer pending) w)
          | None => w
          end in
        (Returned p, log (Reject p (SendFailed action)) w)
      else (Returned p, log (WsSend s payload) w)
  | _, _, _ => (Thrown NotConnected, w)
  end.

(** ** Timer callbacks *)

Definition run_task (t : TimerId) (task : TimerTask) (now : Z)
           (close_throws : bool) (w : World) : World :=
  match task with
  | RequestTimeout echo action timeoutMs p =>
      let w := set_timers (delete t (timers w)) w in
      let w := set_pending (map_delete echo (pendingRequests (self w))) w in
      let w := emit (ev_timeout (mkTimeoutEvent action echo timeoutMs)) w in
      log (Reject p (ActionTimeout action timeoutMs)) w
  | ReconnectFire nextAttempt =>
      let w := set_timers (delete t (timers w)) w in
      let w := on_self (set_reconnectTimer None) w in
      let w := on_self (set_reconnectAttempt nextAttempt) w in
      connect true w
  | HeartbeatCheck timeoutMs =>
      if now - lastInboundAt (self w) <=? timeoutMs then w
      else
        let w := emit (ev_error (HeartbeatTimeout timeoutMs)) w in
        match ws (self w) with
        | Some s =>
            if close_throws then emit (ev_error CloseFailed) w
            else log (WsClose s 4000 "heartbeat timeout") w
        | None => w
        end
  end.

(** The [.catch] of a reconnect attempt. *)
Definition connect_catch (random : Q) (w : World) : World :=
  let w := emit (ev_error ReconnectAttemptFailed) w in
  scheduleReconnect "connect_failed" random w.

(** ** The event loop *)

Inductive Event : Type :=
| CallConnect
| CallDisconnect (code : Z) (reason : string)
    (readyState : ReadyState) (close_throws : bool)
| CallAction (action : string) (params : option json)
    (timeoutMs : option number) (echo : option string)
    (readyState : ReadyState) (now : Z) (send_throws : bool)
| SocketOpen (s : SockId) (now : Z)
| SocketMessage (s : SockId) (now : Z) (data : Inbound)
| SocketError (s : SockId)
| SocketClose (s : SockId) (code : Z) (reason : string) (random : Q)
| TimerFires (t : TimerId) (now : Z) (close_throws : bool)
| RunConnectCatch (random : Q)
| RunDisconnectResume.

(** One turn of the loop.  An event that cannot happen (a socket that
    was never created, a timer that is not armed, a continuation that is
    not queued) changes nothing. *)
Definition step (ev : Event) (w : World) : World :=
  match ev with
  | CallConnect => connect false w
  | CallDisconnect code reason readyState close_throws =>
      disconnect code reason readyState close_throws w
  | CallAction action params timeoutMs echo readyState now send_throws =>
      snd (callAction action params timeoutMs echo readyState now send_throws w)
  | SocketOpen s now =>
      match sockets w !! s with
      | Some l => on_open s l now w
      | None => w
      end
  | SocketMessage s now data =>
      match sockets w !! s with
      | Some _ => on_message now data w
      | None => w
      end
  | SocketError s =>
      match sockets w !! s with
      | Some l => on_error s l w
      | None => w
      end
  | SocketClose s code reason random =>
      match sockets w !! s with
      | Some l => on_close s l code reason random w
      | None => w
      end
  | TimerFires t now close_throws =>
      match timers w !! t with
      | Some task => run_task t task now close_throws w
      | None => w
      end
  | RunConnectCatch random =>
      match catchJobs w with
      | S n => connect_catch random (set_catchJobs n w)
      | O => w
      end
  | RunDisconnectResume =>
      match resumeJobs w with
      | S n => disconnect_resume (set_resumeJobs n w)
      | O => w
      end
  end.

Definition run (evs : list Event) (w : World) : World :=
  fold_left (fun w ev => step ev w) evs w.

(** [new OneBotWsClient(options)]. *)
Definition init (o : Options) : World :=
  mkWorld (mkClient o None idle false None 0 None 0 None 0 []) ∅ ∅ 0 0 0 [].

Definition reachable (w : World) : Prop :=
  exists o evs, w = run evs (init o).

End OneBot.

(* ================================================================== *)
(** * The channel plugin: what is sent, and the id lists of the config *)
(* ================================================================== *)

Module QQ.
Import JsString CQ.

(** ** send.ts *)

(** The [message] that [dispatchQQMessage] hands to [sendByTarget]: a
    string, or an array of segments. *)
Inductive OutboundMessage : Type :=
| MessageText (text : string)
| MessageSegments (segments : list Segment).

(** [dispatchQQMessage], from the call of [buildOutboundSegments] on:
    the payload has the text and the reply target and no mentions; one
    lone text segment is sent as a plain string. *)
Definition outbound_message (text : string) (replyToId : option string)
  : OutboundMessage :=
  let segments := buildOutboundSegments (mkPayload (Some text) replyToId None) in
  if (length segments <=? 1)%nat
     && match segments with
        | seg :: _ => String.eqb (seg_type seg) "text"
        | [] => false
        end
  then MessageText
         (js_String
            (nullish_or
               match segments with
               | seg :: _ => seg_data seg !! "text"
               | [] => None
               end (VStr "")))
  else MessageSegments segments.

(** ** config.ts *)

(** A character of the separator class [[,\s]]. *)
Definition is_separator (c : ascii) : bool :=
  Ascii.eqb c "," || is_space c.

(** [raw.split(/[,\s]+/g)]: the pieces between the maximal runs of
    separators; [in_run] tells that the previous character was a
    separator.  A string that starts or ends with a separator has an
    empty first or last piece. *)
Fixpoint split_separators (in_run : bool) (s : string) : list string :=
  match s with
  | EmptyString => [EmptyString]
  | String c s' =>
      if is_separator c then
        if in_run then split_separators true s'
        else EmptyString :: split_separators true s'
      else
        match split_separators false s' with
        | piece :: pieces => String c piece :: pieces
        | [] => [String c EmptyString]
        end
  end.

(** [splitIdList(raw)]; [None] is an absent or [null] argument. *)
Definition splitIdList (raw : option string) : list string :=
  match raw with
  | Some r =>
      if truthy r
      then filter (fun entry => truthy entry = true)
             (map trim (split_separators false r))
      else []
  | None => []
  end.

End QQ.

(* ================================================================== *)
(** * Properties of the CQ codec                                       *)
(* ================================================================== *)

Module CQProps.
Import JsString CQ.

Lemma append_cons c s t : String c s +:+ t = String c (s +:+ t).
Proof. reflexivity. Qed.

Lemma append_nil t : "" +:+ t = t.
Proof. reflexivity. Qed.

Lemma scan_tokens_unfold input cursor segments :
  scan_tokens input cursor segments =
  match re_exec input cursor with
  | Some (idx, body, n) =>
      scan_tokens input (idx + n)
        ((if (cursor <? idx)%nat
          then segments ++ [text_segment (slice input cursor idx)]
          else segments) ++ [parseCQBody body])
  | None => (segments, cursor)
  end.
Proof.
  funelim (scan_tokens input cursor segments).
  - rewrite Hm. reflexivity.
  - match goal with E : re_exec _ _ = None |- _ => rewrite E end. reflexivity.
Qed.

Lemma span_body_spec r b r' :
  span_body r = (b, r') -> r = b +:+ r' /\ bracket_free b = true.
Proof.
  revert b r'. induction r as [|a r IH]; intros b r' E; cbn [span_body] in E.
  - injection E as <- <-. split; reflexivity.
  - destruct (is_bracket a) eqn:Ha.
    + injection E as <- <-. split; reflexivity.
    + destruct (span_body r) as [b0 r0]. injection E as <- <-.
      destruct (IH _ _ eq_refl) as [-> Hb]. split; [reflexivity|].
      cbn [bracket_free]. rewrite Ha, Hb. reflexivity.
Qed.

Lemma span_body_append b post :
  bracket_free b = true ->
  span_body (b +:+ String "]" post) = (b, String "]" post).
Proof.
  induction b as [|c b IH]; intros Hb.
  - reflexivity.
  - cbn [bracket_free] in Hb. apply andb_true_iff in Hb as [Hc Hb].
    apply negb_true_iff in Hc.
    rewrite append_cons. cbn [span_body]. rewrite Hc, (IH Hb). reflexivity.
Qed.

Lemma match_here_sound s body :
  match_here s = Some body ->
  exists post, s = "[CQ:" +:+ body +:+ "]" +:+ post
               /\ body <> "" /\ bracket_free body = true.
Proof.
  unfold match_here. intros H.
  repeat match type of H with
         | match ?x with _ => _ end = _ =>
             let E := fresh "E" in destruct x eqn:E; try discriminate
         | (if ?x then _ else _) = _ =>
             let E := fresh "E" in destruct x eqn:E; try discriminate
         end.
  injection H as <-.
  match goal with E : span_body _ = _ |- _ =>
    apply span_body_spec in E as [-> Hb] end.
  eexists. split; [reflexivity|]. split; [discriminate|assumption].
Qed.

Lemma match_here_complete body post :
  body <> "" -> bracket_free body = true ->
  match_here ("[CQ:" +:+ body +:+ "]" +:+ post) = Some body.
Proof.
  intros Hne Hb. rewrite !append_cons, !append_nil. cbn [match_here].
  rewrite (span_body_append body post Hb).
  destruct body; [congruence|reflexivity].
Qed.

Lemma search_sound s i idx body n :
  search s i = Some (idx, body, n) -> has_token s.
Proof.
  revert i. induction s as [|c s IH]; intros i H; cbn [search] in H.
  - discriminate.
  - destruct (match_here (String c s)) as [b|] eqn:Hm.
    + injection H as <- <- <-.
      apply match_here_sound in Hm as (post & -> & Hne & Hb).
      exists "", b, post. auto.
    + apply IH in H as (pre & b & post & -> & Hne & Hb).
      exists (String c pre), b, post. auto.
Qed.

Lemma no_token_no_match input :
  ~ has_token input -> re_exec input 0 = None.
Proof.
  intros Hno. unfold re_exec. cbn [drop].
  destruct (search input 0) as [[[idx body] n]|] eqn:E; [|reflexivity].
  exfalso. apply Hno. eapply search_sound, E.
Qed.

Lemma drop_len s : drop (len s) s = "".
Proof. induction s as [|c s IH]; [reflexivity|exact IH]. Qed.

Lemma len_append s t : len (s +:+ t) = (len s + len t)%nat.
Proof.
  induction s as [|c s IH]; [reflexivity|].
  rewrite append_cons. unfold len in *. cbn [String.length]. lia.
Qed.

(** A whole-input token: one match at index 0, none after it. *)
Lemma scan_single_token body :
  body <> "" -> bracket_free body = true ->
  scan_tokens ("[CQ:" +:+ body +:+ "]") 0 []
  = ([parseCQBody body], (5 + len body)%nat).
Proof.
  intros Hne Hb.
  pose proof (match_here_complete body "" Hne Hb) as Hm.
  rewrite scan_tokens_unfold.
  unfold re_exec at 1. cbn [drop]. 
  replace (search ("[CQ:" +:+ body +:+ "]") 0) with (Some (0%nat, body, (5 + len body)%nat)).
  2:{ symmetry. rewrite !append_cons, !append_nil in *.
      cbn [search]. rewrite Hm. reflexivity. }
  change (0 <? 0)%nat with false. cbn iota. rewrite app_nil_l.
  change (0 + (5 + len body))%nat with (5 + len body)%nat.
  assert (Hlen : (5 + len body)%nat = len ("[CQ:" +:+ body +:+ "]")).
  { rewrite !len_append. unfold len. cbn [String.length]. lia. }
  rewrite scan_tokens_unfold. unfold re_exec.
  rewrite Hlen at 1. rewrite drop_len. reflexivity.
Qed.

Lemma search_complete pre body post i :
  body <> "" -> bracket_free body = true ->
  is_Some (search (pre +:+ "[CQ:" +:+ body +:+ "]" +:+ post) i).
Proof.
  intros Hne Hb. revert i. induction pre as [|c pre IH]; intros i.
  - rewrite append_nil. pose proof (match_here_complete body post Hne Hb) as Hm.
    rewrite !append_cons, !append_nil in *. cbn [search]. rewrite Hm. eauto.
  - rewrite append_cons. cbn [search].
    destruct (match_here _); [eauto|apply IH].
Qed.

(** The regular expression decides [has_token]. *)
Lemma has_token_iff s : has_token s <-> is_Some (re_exec s 0).
Proof.
  unfold re_exec. cbn [drop]. split.
  - intros (pre & body & post & -> & Hne & Hb). apply search_complete; assumption.
  - intros [[[idx body] n] E]. eapply search_sound, E.
Qed.

Lemma parseStringInput_tokenless s :
  ~ has_token s -> parseStringInput s = [text_segment s].
Proof.
  intros Hno. unfold parseStringInput.
  rewrite scan_tokens_unfold, (no_token_no_match s Hno).
  destruct s as [|c s]; reflexivity.
Qed.

Lemma parseStringInput_single_token body :
  body <> "" -> bracket_free body = true ->
  parseStringInput ("[CQ:" +:+ body +:+ "]") = [parseCQBody body].
Proof.
  intros Hne Hb. unfold parseStringInput.
  rewrite (scan_single_token body Hne Hb).
  assert (Hlen : (5 + len body)%nat = len ("[CQ:" +:+ body +:+ "]")).
  { rewrite !len_append. unfold len. cbn [String.length]. lia. }
  rewrite Hlen, Nat.ltb_irrefl. reflexivity.
Qed.

(** C7: building outbound segments from the text "hi", the mention
    "123" and the reply target "9" yields exactly the ordered list
    reply(id 9), at(qq 123), text " ", text "hi"; the plain-text projection
    of that list is "@123 hi". *)
Theorem build_outbound_then_plain_text :
  let segments :=
    buildOutboundSegments (mkPayload (Some "hi") (Some "9") (Some ["123"])) in
  segments = [ mkSegment "reply" {[ "id" := VStr "9" ]} None;
               mkSegment "at" {[ "qq" := VStr "123" ]} None;
               mkSegment "text" {[ "text" := VStr " " ]} None;
               mkSegment "text" {[ "text" := VStr "hi" ]} None ]
  /\ toPlainText segments = "@123 hi".
Proof. split; vm_compute; reflexivity. Qed.

(** C8, as the claim states it, fails on the empty string: parsing [""]
    does not yield the empty list, the fallback of [parseStringInput]
    pushes one text segment that holds the empty string. *)
Lemma parse_empty_string_not_empty :
  parseInboundCQ (InString "") = [text_segment ""]
  /\ parseInboundCQ (InString "") <> [].
Proof. split; [vm_compute; reflexivity|discriminate]. Qed.

(** C8, amended: for every input string that contains no bracketed
    markup token, the empty string included, string parsing yields
    exactly one text segment holding the verbatim input; for absent input
    (null or undefined) parsing yields the empty segment list. *)
Theorem parse_tokenless_input (s : string) (Hno : ~ has_token s) :
  parseInboundCQ (InString s) = [text_segment s]
  /\ parseInboundCQ InAbsent = [].
Proof.
  split; [|reflexivity]. cbn [parseInboundCQ].
  apply parseStringInput_tokenless, Hno.
Qed.

Lemma parse_tokenless_input_witness :
  parseInboundCQ (InString "plain words [CQ:] here")
  = [text_segment "plain words [CQ:] here"]
  /\ parseInboundCQ InAbsent = [].
Proof.
  apply parse_tokenless_input.
  intros H. apply has_token_iff in H. vm_compute in H.
  destruct H as [x H]. discriminate H.
Defined.

(** C9, as the claim states it, fails when the token has an attribute
    named [cqType]: in the segment parsed from [[CQ:poke,cqType=at]] no
    key of the data map holds the original type name [poke]. *)
Lemma unknown_token_type_name_lost :
  ~ (exists seg key,
        parseInboundCQ (InString "[CQ:poke,cqType=at]") = [seg]
        /\ seg_type seg = "unknown"
        /\ seg_data seg !! key = Some (VStr "poke")).
Proof.
  intros (seg & key & Hp & _ & Hk).
  assert (E : parseInboundCQ (InString "[CQ:poke,cqType=at]")
              = [mkSegment "unknown" {[ "cqType" := VStr "at" ]}
                   (Some "[CQ:poke,cqType=at]")])
    by (vm_compute; reflexivity).
  rewrite E in Hp. injection Hp as <-. cbn [seg_data] in Hk.
  apply lookup_singleton_Some in Hk as [_ Hk]. discriminate Hk.
Qed.

Example parse_hello :
  parseInboundCQ (InString "hello [CQ:at,qq=42] world")
  = [ text_segment "hello ";
      mkSegment "at" {[ "qq" := VStr "42" ]} (Some "[CQ:at,qq=42]");
      text_segment " world" ].
Proof. vm_compute. reflexivity. Qed.

Example plain_hello :
  toPlainText (parseInboundCQ (InString "hello [CQ:at,qq=42] world"))
  = "hello @42 world".
Proof. vm_compute. reflexivity. Qed.

End CQProps.

(* ================================================================== *)
(** * More of the CQ codec: whitespace, round trips, media references  *)
(* ================================================================== *)

Module CQMore.
Import JsString CQ CQProps.

(** ** Whitespace *)

Lemma trimStart_head s :
  match trimStart s with
  | String c _ => is_space c = false
  | EmptyString => True
  end.
Proof.
  induction s as [|c s IH]; cbn [trimStart]; [exact I|].
  destruct (is_space c) eqn:E; [exact IH|exact E].
Qed.

Lemma trimStart_fixed c s : is_space c = false -> trimStart (String c s) = String c s.
Proof. intros E. cbn [trimStart]. rewrite E. reflexivity. Qed.

(** [trimEnd] keeps the first character of a string that starts with a
    character that is not whitespace. *)
Lemma trimEnd_cons c s :
  is_space c = false ->
  trimEnd (String c s) = String c (trimEnd s).
Proof.
  intros E. cbn [trimEnd]. destruct (trimEnd s); [rewrite E|]; reflexivity.
Qed.

Lemma trimEnd_idem s : trimEnd (trimEnd s) = trimEnd s.
Proof.
  induction s as [|c s IH]; [reflexivity|].
  cbn [trimEnd]. destruct (trimEnd s) as [|d t] eqn:E.
  - destruct (is_space c) eqn:Ec; [reflexivity|].
    cbn [trimEnd]. rewrite Ec. reflexivity.
  - change (trimEnd (String c (String d t))) with
      (match trimEnd (String d t) with
       | EmptyString => if is_space c then EmptyString else String c EmptyString
       | t' => String c t'
       end).
    rewrite IH. reflexivity.
Qed.

Lemma trimStart_trimEnd_head c s :
  is_space c = false ->
  match trimEnd (String c s) with
  | String d _ => is_space d = false
  | EmptyString => False
  end.
Proof. intros E. rewrite trimEnd_cons by exact E. exact E. Qed.

(** After [trim], the string neither starts nor ends with whitespace,
    so trimming again changes nothing. *)
Lemma trim_idem s : trim (trim s) = trim s.
Proof.
  unfold trim. pose proof (trimStart_head s) as H.
  destruct (trimStart s) as [|c t]; [reflexivity|].
  rewrite (trimEnd_cons c t H), (trimStart_fixed _ _ H).
  rewrite (trimEnd_cons c (trimEnd t) H), trimEnd_idem. reflexivity.
Qed.

Lemma truthy_trim_nonempty s : truthy s = true <-> s <> "".
Proof. destruct s; cbn; split; intros H; congruence. Qed.

(** ** The shape of what the builder makes *)

Definition reply_segment (id : string) : Segment :=
  mkSegment "reply" {[ "id" := VStr id ]} None.

Definition at_segment (qq : string) : Segment :=
  mkSegment "at" {[ "qq" := VStr qq ]} None.

(** The segments of the reply target, of one mention and of the text. *)
Definition reply_part (replyToId : option string) : list Segment :=
  match replyToId with
  | Some id => if truthy id then [reply_segment id] else []
  | None => []
  end.

Definition mention_part (mention : string) : list Segment :=
  if truthy (trim mention)
  then [at_segment (trim mention); text_segment " "]
  else [].

Definition text_part (text : option string) : list Segment :=
  match text with
  | Some t => if truthy (trim t) then [text_segment (trim t)] else []
  | None => []
  end.

Lemma fold_push_mention ms : forall acc,
  fold_left push_mention ms acc = acc ++ flat_map mention_part ms.
Proof.
  induction ms as [|m ms IH]; intros acc; cbn [fold_left flat_map].
  - rewrite app_nil_r. reflexivity.
  - rewrite IH. unfold push_mention, mention_part.
    destruct (truthy (trim m)); cbn [app]; rewrite <- ?app_assoc; reflexivity.
Qed.

Lemma buildOutboundSegments_parts p :
  buildOutboundSegments p
  = reply_part (replyToId p)
    ++ flat_map mention_part (default [] (mentions p))
    ++ text_part (text p).
Proof.
  unfold buildOutboundSegments. cbv zeta. rewrite fold_push_mention.
  unfold text_part, reply_part.
  destruct (text p) as [t|]; [destruct (truthy (trim t))|];
    rewrite <- ?app_assoc, ?app_nil_r; reflexivity.
Qed.

(** ** Reading back what the builder made *)

Lemma extractReplyId_app a b :
  extractReplyId (a ++ b)
  = match extractReplyId a with
    | Some id => Some id
    | None => extractReplyId b
    end.
Proof.
  induction a as [|seg a IH]; [reflexivity|].
  cbn [app extractReplyId].
  destruct (String.eqb (seg_type seg) "reply"); [|exact IH].
  destruct (truthy _); [reflexivity|exact IH].
Qed.

Lemma extractReplyId_no_reply segs :
  Forall (fun seg => String.eqb (seg_type seg) "reply" = false) segs ->
  extractReplyId segs = None.
Proof.
  induction 1 as [|seg segs H _ IH]; [reflexivity|].
  cbn [extractReplyId]. rewrite H. exact IH.
Qed.

Lemma mention_part_no_reply ms :
  Forall (fun seg => String.eqb (seg_type seg) "reply" = false)
    (flat_map mention_part ms).
Proof.
  induction ms as [|m ms IH]; [constructor|].
  cbn [flat_map]. apply Forall_app. split; [|exact IH].
  unfold mention_part. destruct (truthy (trim m)); repeat constructor.
Qed.

Lemma text_part_no_reply t :
  Forall (fun seg => String.eqb (seg_type seg) "reply" = false) (text_part t).
Proof.
  unfold text_part. destruct t as [t|]; [destruct (truthy (trim t))|];
    repeat constructor.
Qed.

(** X2: the reply target that [extractReplyId] reads back from the
    segments built by [buildOutboundSegments] is the trimmed [replyToId]
    of the payload when that is not blank, and [null] otherwise; a
    reply target made of whitespace only is put in a reply segment by the
    builder and is not read back. *)
Theorem build_then_extract_reply_id (p : CQBuildPayload) :
  extractReplyId (buildOutboundSegments p)
  = match replyToId p with
    | Some id => if truthy (trim id) then Some (trim id) else None
    | None => None
    end.
Proof.
  rewrite buildOutboundSegments_parts, !extractReplyId_app.
  rewrite (extractReplyId_no_reply _ (mention_part_no_reply _)),
    (extractReplyId_no_reply _ (text_part_no_reply _)).
  unfold reply_part. destruct (replyToId p) as [id|]; [|reflexivity].
  destruct id as [|c id]; [reflexivity|].
  cbn [truthy extractReplyId reply_segment seg_type seg_data].
  rewrite lookup_singleton_eq. cbn [String.eqb Ascii.eqb Bool.eqb nullish_or js_String].
  destruct (truthy (trim (String c id))); reflexivity.
Qed.

Lemma extractMentions_app a b :
  extractMentions (a ++ b) = extractMentions a ++ extractMentions b.
Proof.
  unfold extractMentions. rewrite filter_app, map_app, filter_app. reflexivity.
Qed.

Lemma extractMentions_mention_part m :
  extractMentions (mention_part m)
  = if truthy (trim m) then [trim m] else [].
Proof.
  unfold mention_part. destruct (truthy (trim m)) eqn:E; [|reflexivity].
  unfold extractMentions, at_segment, text_segment.
  rewrite filter_cons_True by reflexivity.
  rewrite filter_cons_False by (cbn; discriminate).
  rewrite filter_nil. cbn [map seg_data].
  rewrite lookup_singleton_eq. cbn [nullish_or js_String].
  rewrite trim_idem, filter_cons_True by exact E. reflexivity.
Qed.

(** X3: the mentions that [extractMentions] reads back from the
    segments built by [buildOutboundSegments] are the trimmed mentions of
    the payload, in order, without the blank ones; the reply target and
    the text add none. *)
Theorem build_then_extract_mentions (p : CQBuildPayload) :
  extractMentions (buildOutboundSegments p)
  = filter (fun qq => truthy qq = true) (map trim (default [] (mentions p))).
Proof.
  rewrite buildOutboundSegments_parts, !extractMentions_app.
  assert (Hr : extractMentions (reply_part (replyToId p)) = []).
  { unfold reply_part. destruct (replyToId p) as [id|]; [|reflexivity].
    destruct (truthy id); [|reflexivity].
    unfold extractMentions. rewrite filter_cons_False by (cbn; discriminate).
    reflexivity. }
  assert (Ht : extractMentions (text_part (text p)) = []).
  { unfold text_part. destruct (text p) as [t|]; [|reflexivity].
    destruct (truthy (trim t)); [|reflexivity].
    unfold extractMentions. rewrite filter_cons_False by (cbn; discriminate).
    reflexivity. }
  rewrite Hr, Ht, app_nil_r. cbn [app].
  induction (default [] (mentions p)) as [|m ms IH]; [reflexivity|].
  cbn [flat_map map]. rewrite extractMentions_app, extractMentions_mention_part, IH.
  destruct (truthy (trim m)) eqn:E.
  - rewrite filter_cons_True by exact E. reflexivity.
  - rewrite filter_cons_False by (rewrite E; discriminate). reflexivity.
Qed.

(** ** The plain text of what the builder made *)

Lemma append_assoc (a b c : string) : (a +:+ b) +:+ c = a +:+ (b +:+ c).
Proof.
  induction a as [|x a IH]; [reflexivity|]. rewrite !append_cons, IH. reflexivity.
Qed.

Lemma append_empty_r (a : string) : a +:+ "" = a.
Proof.
  induction a as [|x a IH]; [reflexivity|]. rewrite append_cons, IH. reflexivity.
Qed.

Lemma join_empty_cons (x : string) (l : list string) :
  join "" (x :: l) = x +:+ join "" l.
Proof.
  unfold join. destruct l as [|y l]; cbn [String.concat].
  - rewrite append_empty_r. reflexivity.
  - reflexivity.
Qed.

Lemma join_empty_app (a b : list string) :
  join "" (a ++ b) = join "" a +:+ join "" b.
Proof.
  induction a as [|x a IH]; [reflexivity|].
  cbn [app]. rewrite !join_empty_cons, IH, append_assoc. reflexivity.
Qed.

Lemma plain_piece_at qq :
  truthy (trim qq) = true ->
  plain_piece (at_segment qq) = Some ("@" +:+ trim qq).
Proof.
  intros E. unfold plain_piece, at_segment. cbn [seg_type seg_data].
  rewrite lookup_singleton_eq. cbn [String.eqb Ascii.eqb Bool.eqb nullish_or js_String].
  rewrite E. reflexivity.
Qed.

Lemma plain_piece_text t : plain_piece (text_segment t) = Some t.
Proof.
  unfold plain_piece, text_segment. cbn [seg_type seg_data].
  rewrite lookup_singleton_eq. reflexivity.
Qed.

(** The words that the mentions put in the plain text. *)
Definition mention_words (ms : list string) : string :=
  join "" (map (fun qq => "@" +:+ qq +:+ " ")
             (filter (fun qq => truthy qq = true) (map trim ms))).

Lemma plain_pieces_mentions ms :
  join "" (omap plain_piece (flat_map mention_part ms)) = mention_words ms.
Proof.
  unfold mention_words. induction ms as [|m ms IH]; [reflexivity|].
  cbn [flat_map map]. rewrite omap_app, join_empty_app, IH.
  unfold mention_part. destruct (truthy (trim m)) eqn:E.
  - rewrite filter_cons_True by exact E. cbn [map omap list_omap].
    rewrite plain_piece_at by (rewrite trim_idem; exact E).
    rewrite plain_piece_text, trim_idem, !join_empty_cons.
    change (join "" []) with "". rewrite append_empty_r, !append_assoc.
    reflexivity.
  - rewrite filter_cons_False by (rewrite E; discriminate). reflexivity.
Qed.

(** X4: the plain text of the segments built by
    [buildOutboundSegments] is, after whitespace runs are collapsed and
    the ends trimmed, one word [@qq] followed by a space for every
    mention that is not blank and then the trimmed text; the reply
    target leaves no trace in it. *)
Theorem build_then_plain_text (p : CQBuildPayload) :
  toPlainText (buildOutboundSegments p)
  = trim (collapse_spaces
            (mention_words (default [] (mentions p))
             +:+ match text p with Some t => trim t | None => "" end)).
Proof.
  unfold toPlainText. cbv zeta.
  rewrite buildOutboundSegments_parts, !omap_app, !join_empty_app.
  rewrite plain_pieces_mentions.
  assert (Hr : omap plain_piece (reply_part (replyToId p)) = []).
  { unfold reply_part. destruct (replyToId p) as [id|]; [|reflexivity].
    destruct (truthy id); reflexivity. }
  rewrite Hr. change (join "" []) with "". rewrite append_nil.
  unfold text_part. destruct (text p) as [t|]; [|reflexivity].
  destruct (truthy (trim t)) eqn:E.
  - cbn [omap list_omap]. rewrite plain_piece_text, join_empty_cons.
    change (join "" []) with "". rewrite append_empty_r. reflexivity.
  - destruct (trim t); [reflexivity|discriminate].
Qed.

(** ** Outbound segments fed back to the parser *)

(** A segment as an element of an array message. *)
Definition as_item (seg : Segment) : ArrayItem :=
  mkItem (Some (seg_type seg)) (Some (seg_data seg)).

Definition plain_known (seg : Segment) : Prop :=
  known_type (seg_type seg) = true /\ seg_raw seg = None.

Lemma parseArrayItem_known seg :
  plain_known seg -> parseArrayItem (as_item seg) = seg.
Proof.
  intros [Hk Hr]. unfold parseArrayItem, as_item.
  cbn [it_type it_data default from_option id]. rewrite Hk. destruct seg as [t d r]. cbn in Hr. subst r. reflexivity.
Qed.

Lemma buildOutboundSegments_plain_known p :
  Forall plain_known (buildOutboundSegments p).
Proof.
  rewrite buildOutboundSegments_parts. rewrite !Forall_app. repeat split.
  - unfold reply_part. destruct (replyToId p) as [id|]; [|constructor].
    destruct (truthy id); repeat constructor.
  - induction (default [] (mentions p)) as [|m ms IH]; [constructor|].
    cbn [flat_map]. apply Forall_app. split; [|exact IH].
    unfold mention_part. destruct (truthy (trim m)); repeat constructor.
  - unfold text_part. destruct (text p) as [t|]; [|constructor].
    destruct (truthy (trim t)); repeat constructor.
Qed.

(** X5: the segments built by [buildOutboundSegments], given to
    [parseInboundCQ] as an array message, are parsed to themselves: every
    one has a known type, so none is turned into an [unknown] segment and
    no data is changed. *)
Theorem build_then_parse_array (p : CQBuildPayload) :
  parseInboundCQ (InArray (map as_item (buildOutboundSegments p)))
  = buildOutboundSegments p.
Proof.
  cbn [parseInboundCQ]. unfold parseArrayInput. rewrite map_map.
  pose proof (buildOutboundSegments_plain_known p) as H.
  induction H as [|seg segs Hs _ IH]; [reflexivity|].
  cbn [map]. rewrite (parseArrayItem_known seg Hs), IH. reflexivity.
Qed.

(** ** Media references *)

Lemma media_ref_spec seg r :
  media_ref seg = Some r ->
  is_media (ref_type r) = true /\ ref_type r = seg_type seg
  /\ ref_value r <> "" /\ trim (ref_value r) = ref_value r.
Proof.
  unfold media_ref. destruct (is_media (seg_type seg)) eqn:Hm; [|discriminate].
  destruct (truthy _) eqn:Ht; [|discriminate].
  intros [= <-]. cbn [ref_type ref_value]. repeat split.
  - exact Hm.
  - apply truthy_trim_nonempty, Ht.
  - apply trim_idem.
Qed.

(** X6: every media reference that [extractMediaRefs] returns has the
    type [image], [file] or [record] of a segment of the input, and a
    value that is not empty and has no whitespace at its ends; there are
    at most as many references as segments, and the segments built by
    [buildOutboundSegments] have none. *)
Theorem media_refs_well_formed (segments : list Segment) (p : CQBuildPayload) :
  Forall (fun r => is_media (ref_type r) = true
                   /\ (exists seg, seg ∈ segments /\ seg_type seg = ref_type r)
                   /\ ref_value r <> ""
                   /\ trim (ref_value r) = ref_value r)
    (extractMediaRefs segments)
  /\ (length (extractMediaRefs segments) <= length segments)%nat
  /\ extractMediaRefs (buildOutboundSegments p) = [].
Proof.
  unfold extractMediaRefs. split; [|split].
  - apply Forall_forall. intros r Hr.
    apply list_elem_of_omap in Hr as (seg & Hin & Hm).
    apply media_ref_spec in Hm as (H1 & H2 & H3 & H4).
    split; [exact H1|]. split; [exists seg; auto|]. split; assumption.
  - induction segments as [|seg segs IH]; [reflexivity|].
    change (omap media_ref (seg :: segs))
      with (match media_ref seg with
            | Some r => r :: omap media_ref segs
            | None => omap media_ref segs
            end).
    destruct (media_ref seg); cbn [length]; lia.
  - assert (Hn : Forall (fun seg => is_media (seg_type seg) = false)
                   (buildOutboundSegments p)).
    { rewrite buildOutboundSegments_parts. rewrite !Forall_app. repeat split.
      - unfold reply_part. destruct (replyToId p) as [id|]; [|constructor].
        destruct (truthy id); repeat constructor.
      - induction (default [] (mentions p)) as [|m ms IH]; [constructor|].
        cbn [flat_map]. apply Forall_app. split; [|exact IH].
        unfold mention_part. destruct (truthy (trim m)); repeat constructor.
      - unfold text_part. destruct (text p) as [t|]; [|constructor].
        destruct (truthy (trim t)); repeat constructor. }
    induction Hn as [|seg segs Hs _ IH]; [reflexivity|].
    cbn [omap list_omap]. unfold media_ref at 1. rewrite Hs. exact IH.
Qed.

(** ** The plain text is tidy *)

(** Every whitespace character of [s] is a single space that follows a
    character that is not whitespace, and [s] does not end with one;
    [after_space] tells that the character before [s] was whitespace or
    that [s] is the start of the text. *)
Fixpoint tidy_from (after_space : bool) (s : string) : bool :=
  match s with
  | EmptyString => negb after_space
  | String c s' =>
      if is_space c
      then Ascii.eqb c " " && negb after_space && tidy_from true s'
      else tidy_from false s'
  end.

(** A tidy text: empty, or words separated by single spaces. *)
Definition tidy (s : string) : bool :=
  match s with
  | EmptyString => true
  | _ => tidy_from true s
  end.

(** The same without the condition on the end of the string. *)
Fixpoint spaced_from (after_space : bool) (s : string) : bool :=
  match s with
  | EmptyString => true
  | String c s' =>
      if is_space c
      then Ascii.eqb c " " && negb after_space && spaced_from true s'
      else spaced_from false s'
  end.

Lemma is_space_space : is_space " " = true.
Proof. reflexivity. Qed.

Lemma collapse_spaced b s : spaced_from b (collapse_spaces_from b s) = true.
Proof.
  revert b. induction s as [|c s IH]; intros b; cbn [collapse_spaces_from].
  - reflexivity.
  - destruct (is_space c) eqn:Ec.
    + destruct b; [apply IH|].
      cbn [spaced_from]. rewrite is_space_space. cbn. apply IH.
    + cbn [spaced_from]. rewrite Ec. apply IH.
Qed.

Lemma spaced_weaken b s : spaced_from b s = true -> spaced_from false s = true.
Proof.
  destruct s as [|c s]; [reflexivity|]. cbn [spaced_from].
  destruct (is_space c); [|auto]. destruct b; [|auto].
  rewrite andb_false_r. discriminate.
Qed.

Lemma trimStart_spaced b s :
  spaced_from b s = true -> spaced_from true (trimStart s) = true.
Proof.
  revert b. induction s as [|c s IH]; intros b H; cbn [trimStart].
  - reflexivity.
  - cbn [spaced_from] in H. destruct (is_space c) eqn:Ec.
    + apply andb_true_iff in H as [_ H]. apply (IH _ H).
    + cbn [spaced_from]. rewrite Ec. exact H.
Qed.

Lemma trimEnd_tidy_from b s :
  spaced_from b s = true ->
  match trimEnd s with
  | EmptyString => True
  | t => tidy_from b t = true
  end.
Proof.
  revert b. induction s as [|c s IH]; intros b H; [exact I|].
  cbn [spaced_from] in H. cbn [trimEnd].
  destruct (is_space c) eqn:Ec.
  - apply andb_true_iff in H as [H1 H]. specialize (IH true H).
    destruct (trimEnd s) as [|d t]; [exact I|].
    cbn [tidy_from]. rewrite Ec, H1. exact IH.
  - specialize (IH false H).
    destruct (trimEnd s) as [|d t]; cbn [tidy_from]; rewrite Ec; [reflexivity|].
    exact IH.
Qed.

Lemma trim_collapse_tidy s : tidy (trim (collapse_spaces s)) = true.
Proof.
  unfold trim, collapse_spaces.
  pose proof (trimStart_spaced false _ (collapse_spaced false s)) as H.
  apply trimEnd_tidy_from in H. unfold tidy.
  destruct (trimEnd _); [reflexivity|exact H].
Qed.

Lemma collapse_tidy_from b s :
  tidy_from b s = true -> collapse_spaces_from b s = s.
Proof.
  revert b. induction s as [|c s IH]; intros b H; [reflexivity|].
  cbn [tidy_from] in H. cbn [collapse_spaces_from].
  destruct (is_space c) eqn:Ec.
  - apply andb_true_iff in H as [H1 H]. apply andb_true_iff in H1 as [Hc Hb].
    destruct b; [discriminate|]. rewrite (IH _ H).
    apply Ascii.eqb_eq in Hc. subst c. reflexivity.
  - rewrite (IH _ H). reflexivity.
Qed.

Lemma tidy_from_head s :
  tidy_from true s = true ->
  match s with String c _ => is_space c = false | EmptyString => False end.
Proof.
  destruct s as [|c s]; cbn [tidy_from]; [discriminate|].
  destruct (is_space c); [|reflexivity].
  rewrite andb_false_r. discriminate.
Qed.

Lemma trimEnd_tidy_fixed b s : tidy_from b s = true -> trimEnd s = s.
Proof.
  revert b. induction s as [|c s IH]; intros b H; [reflexivity|].
  cbn [tidy_from] in H. cbn [trimEnd].
  destruct (is_space c) eqn:Ec.
  - apply andb_true_iff in H as [_ H]. rewrite (IH _ H).
    destruct s; [discriminate H|reflexivity].
  - rewrite (IH _ H). destruct s; reflexivity.
Qed.

Lemma tidy_fixed s :
  tidy s = true -> trim (collapse_spaces s) = s.
Proof.
  unfold tidy. destruct s as [|c s]; [reflexivity|]. intros H.
  pose proof (tidy_from_head _ H) as Hc. cbn beta iota in Hc.
  unfold collapse_spaces. cbn [collapse_spaces_from]. rewrite Hc.
  cbn [tidy_from] in H. rewrite Hc in H.
  rewrite (collapse_tidy_from _ _ H).
  unfold trim. rewrite (trimStart_fixed _ _ Hc).
  apply (trimEnd_tidy_fixed true). cbn [tidy_from]. rewrite Hc. exact H.
Qed.

(** X7: the plain text that [toPlainText] returns is tidy, for every
    list of segments: it has no whitespace at its ends, and inside it
    every run of whitespace (tabs, line breaks and no-break spaces
    included) has become one space.  Taking the plain text of that text
    again returns it unchanged. *)
Theorem plain_text_is_tidy (segments : list Segment) :
  tidy (toPlainText segments) = true
  /\ toPlainText [text_segment (toPlainText segments)] = toPlainText segments.
Proof.
  assert (H : tidy (toPlainText segments) = true) by apply trim_collapse_tidy.
  split; [exact H|].
  unfold toPlainText at 1. cbv zeta. cbn [omap list_omap].
  rewrite plain_piece_text, join_empty_cons.
  change (join "" []) with "". rewrite append_empty_r.
  apply tidy_fixed, H.
Qed.

(** ** The string parser loses nothing *)

Lemma take_drop n s : take n s +:+ drop n s = s.
Proof.
  revert s. induction n as [|n IH]; intros [|c s]; cbn [take drop]; try reflexivity.
  rewrite append_cons, IH. reflexivity.
Qed.

Lemma take_add n m s : take (n + m) s = take n s +:+ take m (drop n s).
Proof.
  revert s. induction n as [|n IH]; intros s; [reflexivity|].
  destruct s as [|c s]; cbn [Nat.add take drop].
  - destruct m; reflexivity.
  - rewrite append_cons, IH. reflexivity.
Qed.

Lemma take_app_len a b : take (len a) (a +:+ b) = a.
Proof.
  induction a as [|c a IH]; [destruct b; reflexivity|].
  rewrite append_cons. unfold len in *. cbn [String.length take].
  rewrite IH. reflexivity.
Qed.

Lemma take_all n s : (len s <= n)%nat -> take n s = s.
Proof.
  revert s. induction n as [|n IH]; intros [|c s] H; cbn [take]; try reflexivity.
  - unfold len in H. cbn in H. lia.
  - rewrite IH; [reflexivity|]. unfold len in *. cbn in H. lia.
Qed.

Lemma drop_add n m s : drop (n + m) s = drop m (drop n s).
Proof.
  revert s. induction n as [|n IH]; intros s; [reflexivity|].
  destruct s as [|c s]; cbn [Nat.add drop]; [destruct m; reflexivity|apply IH].
Qed.

Lemma drop_app_len a b : drop (len a) (a +:+ b) = b.
Proof.
  induction a as [|c a IH]; [reflexivity|].
  rewrite append_cons. exact IH.
Qed.

(** Where the leftmost match lies. *)
Lemma search_position s i idx body n :
  search s i = Some (idx, body, n) ->
  exists pre post,
    s = pre +:+ ("[CQ:" +:+ body +:+ "]") +:+ post
    /\ idx = (i + len pre)%nat /\ n = (5 + len body)%nat.
Proof.
  revert i. induction s as [|c s IH]; intros i H; cbn [search] in H.
  - discriminate.
  - destruct (match_here (String c s)) as [b|] eqn:Hm.
    + injection H as <- <- <-.
      apply match_here_sound in Hm as (post & E & _ & _).
      exists "", post. rewrite append_nil. repeat split.
      * rewrite E, !append_assoc. reflexivity.
      * unfold len. cbn. lia.
    + apply IH in H as (pre & post & -> & -> & ->).
      exists (String c pre), post. repeat split.
      unfold len. cbn [String.length]. lia.
Qed.

(** The text of the input that a segment stands for: the token, or the
    text of a text segment. *)
Definition source_of (seg : Segment) : string :=
  match seg_raw seg with
  | Some raw => raw
  | None =>
      match seg_data seg !! "text" with
      | Some (VStr t) => t
      | _ => ""
      end
  end.

Definition sources (segments : list Segment) : string :=
  join "" (map source_of segments).

Lemma sources_app a b : sources (a ++ b) = sources a +:+ sources b.
Proof. unfold sources. rewrite map_app. apply join_empty_app. Qed.

Lemma source_of_text t : source_of (text_segment t) = t.
Proof.
  unfold source_of, text_segment. cbn [seg_raw seg_data].
  rewrite lookup_singleton_eq. reflexivity.
Qed.

Lemma source_of_token body : source_of (parseCQBody body) = "[CQ:" +:+ body +:+ "]".
Proof. unfold source_of, parseCQBody. destruct (known_type _); reflexivity. Qed.

Lemma sources_single seg : sources [seg] = source_of seg.
Proof. unfold sources. cbn [map]. rewrite join_empty_cons. apply append_empty_r. Qed.

(** A segment that the string parser makes. *)
Definition parsed_piece (seg : Segment) : Prop :=
  (exists t, seg = text_segment t) \/ (exists body, seg = parseCQBody body).

(** The loop of [parseStringInput]: it only appends, what it appends
    stands for the input between the two cursors, and the cursor stays
    inside the input. *)
Lemma scan_tokens_spec input cursor segments :
  (cursor <= len input)%nat ->
  exists pieces cursor',
    scan_tokens input cursor segments = (segments ++ pieces, cursor')
    /\ (cursor <= cursor' <= len input)%nat
    /\ take cursor input +:+ sources pieces = take cursor' input
    /\ Forall parsed_piece pieces.
Proof.
  remember (len input - cursor)%nat as k eqn:Hk.
  revert cursor segments Hk.
  induction k as [k IH] using lt_wf_ind. intros cursor segments Hk Hc.
  rewrite scan_tokens_unfold.
  destruct (re_exec input cursor) as [[[idx body] n]|] eqn:Hm.
  - (* a match *)
    pose proof (re_exec_bounds _ _ _ _ _ Hm) as (Hb1 & Hb2 & Hb3).
    unfold re_exec in Hm.
    apply search_position in Hm as (pre & post & Hd & -> & ->).
    set (tok := "[CQ:" +:+ body +:+ "]") in *.
    assert (Htok : len tok = (5 + len body)%nat).
    { subst tok. rewrite !len_append. unfold len. cbn [String.length]. lia. }
    assert (Hpre : slice input cursor (cursor + len pre) = pre).
    { unfold slice. replace (cursor + len pre - cursor)%nat with (len pre) by lia.
      rewrite Hd. apply take_app_len. }
    assert (Htake : take (cursor + len pre + (5 + len body)) input
                    = take cursor input +:+ pre +:+ tok).
    { rewrite <- Nat.add_assoc, take_add, Hd. f_equal.
      rewrite take_add, take_app_len, drop_app_len, <- Htok, take_app_len.
      reflexivity. }
    rewrite Hpre.
    match goal with
    | |- context [scan_tokens input ?c ?sg] =>
        destruct (IH (len input - c)%nat ltac:(lia) c sg eq_refl ltac:(lia))
          as (pieces & c' & E & Hr & Hs & Hp)
    end.
    rewrite E.
    destruct (cursor <? cursor + len pre)%nat eqn:Hlt.
    + exists ([text_segment pre; parseCQBody body] ++ pieces), c'.
      rewrite <- !app_assoc. cbn [app].
      split; [reflexivity|]. split; [lia|]. split.
      * change (text_segment pre :: parseCQBody body :: pieces)
          with ([text_segment pre] ++ [parseCQBody body] ++ pieces).
        rewrite !sources_app, !sources_single, source_of_text, source_of_token.
        fold tok. rewrite <- Hs, Htake, !append_assoc. reflexivity.
      * constructor; [left; eauto|]. constructor; [right; eauto|exact Hp].
    + apply Nat.ltb_ge in Hlt.
      assert (Hnil : pre = "")
        by (destruct pre; [reflexivity|unfold len in Hlt; cbn in Hlt; lia]).
      exists ([parseCQBody body] ++ pieces), c'.
      rewrite <- !app_assoc. cbn [app].
      split; [reflexivity|]. split; [lia|]. split.
      * change (parseCQBody body :: pieces) with ([parseCQBody body] ++ pieces).
        rewrite sources_app, sources_single, source_of_token.
        fold tok. rewrite <- Hs, Htake, Hnil, append_nil, !append_assoc.
        reflexivity.
      * constructor; [right; eauto|exact Hp].
  - (* no match *)
    exists [], cursor. rewrite app_nil_r.
    split; [reflexivity|]. split; [lia|]. split; [|constructor].
    unfold sources. cbn. apply append_empty_r.
Qed.

Lemma parseStringInput_spec input :
  sources (parseStringInput input) = input
  /\ Forall parsed_piece (parseStringInput input)
  /\ parseStringInput input <> [].
Proof.
  unfold parseStringInput.
  destruct (scan_tokens_spec input 0 [] ltac:(lia))
    as (pieces & c' & E & Hr & Hs & Hp).
  rewrite E. cbn [app take] in *. rewrite append_nil in Hs.
  destruct (c' <? len input)%nat eqn:Hlt.
  - assert (Hall : sources (pieces ++ [text_segment (slice_from input c')]) = input).
    { rewrite sources_app, sources_single, source_of_text, Hs.
      apply take_drop. }
    assert (Hf : Forall parsed_piece (pieces ++ [text_segment (slice_from input c')])).
    { apply Forall_app. split; [exact Hp|]. constructor; [left; eauto|constructor]. }
    destruct (pieces ++ [text_segment (slice_from input c')]) as [|x l] eqn:El.
    + destruct pieces; discriminate El.
    + split; [exact Hall|]. split; [exact Hf|discriminate].
  - apply Nat.ltb_ge in Hlt. rewrite (take_all _ _ Hlt) in Hs.
    destruct pieces as [|x l].
    + unfold sources in Hs. cbn in Hs. subst input.
      split; [rewrite sources_single; apply source_of_text|].
      split; [constructor; [left; eauto|constructor]|discriminate].
    + split; [exact Hs|]. split; [exact Hp|discriminate].
Qed.

(** X8: the string parser loses no character: for every input string,
    the tokens kept in [raw] and the texts of the text segments of
    [parseInboundCQ], put one after the other in the order of the
    segments, give back the input; the result is never the empty list. *)
Theorem parse_string_lossless (input : string) :
  sources (parseInboundCQ (InString input)) = input
  /\ parseInboundCQ (InString input) <> [].
Proof.
  destruct (parseStringInput_spec input) as (H1 & _ & H3). auto.
Qed.

(** The seven names of [CQSegmentType]. *)
Definition segment_type (t : string) : bool :=
  known_type t || String.eqb t "unknown".

Lemma parseCQBody_type body : segment_type (seg_type (parseCQBody body)) = true.
Proof.
  unfold parseCQBody, segment_type. cbv zeta.
  destruct (known_type (type_of_body body)) eqn:E; cbn [seg_type].
  - rewrite E. reflexivity.
  - reflexivity.
Qed.

Lemma parseArrayItem_type item : segment_type (seg_type (parseArrayItem item)) = true.
Proof.
  unfold parseArrayItem, segment_type. cbv zeta.
  destruct (known_type (default "unknown" (it_type item))) eqn:E; cbn [seg_type].
  - rewrite E. reflexivity.
  - reflexivity.
Qed.

(** X9: whatever the input (a string, an array of items of any shape,
    or nothing), the type of every segment that [parseInboundCQ] returns
    is one of the seven names [text], [at], [reply], [image], [file],
    [record] and [unknown]; a segment got from an array item has no
    [raw], a token segment got from a string keeps its token there. *)
Theorem parse_segment_types (input : CQInput) :
  Forall (fun seg => segment_type (seg_type seg) = true) (parseInboundCQ input)
  /\ match input with
     | InString _ =>
         Forall (fun seg => seg_type seg = "text" \/ is_Some (seg_raw seg))
           (parseInboundCQ input)
     | InArray items =>
         Forall (fun seg => seg_raw seg = None) (parseInboundCQ input)
         /\ length (parseInboundCQ input) = length items
     | InAbsent => parseInboundCQ input = []
     end.
Proof.
  destruct input as [s|items|]; cbn [parseInboundCQ].
  - destruct (parseStringInput_spec s) as (_ & Hp & _).
    split; eapply Forall_impl; try exact Hp.
    + intros seg [[t ->]|[body ->]]; [reflexivity|apply parseCQBody_type].
    + intros seg [[t ->]|[body ->]]; [left; reflexivity|right].
      unfold parseCQBody. destruct (known_type _); cbn [seg_raw]; eauto.
  - unfold parseArrayInput. split; [|split].
    + apply Forall_forall. intros seg Hin.
      apply list_elem_of_In, in_map_iff in Hin as (item & <- & _).
      apply parseArrayItem_type.
    + apply Forall_forall. intros seg Hin.
      apply list_elem_of_In, in_map_iff in Hin as (item & <- & _).
      unfold parseArrayItem. destruct (known_type _); reflexivity.
    + apply length_map.
  - split; [constructor|reflexivity].
Qed.

(** X10: a message string without markup token is read as its own
    text: its plain text is the input with every whitespace run collapsed
    to one space and the ends trimmed, it mentions nobody, replies to
    nothing and carries no media reference. *)
Theorem parse_plain_message (s : string) (Hno : ~ has_token s) :
  let segments := parseInboundCQ (InString s) in
  toPlainText segments = trim (collapse_spaces s)
  /\ extractMentions segments = []
  /\ extractReplyId segments = None
  /\ extractMediaRefs segments = [].
Proof.
  cbn [parseInboundCQ]. rewrite (parseStringInput_tokenless s Hno).
  split; [|split; [|split]]; reflexivity.
Qed.

Lemma parse_plain_message_witness :
  let segments := parseInboundCQ (InString "  good   morning [CQ:] ") in
  toPlainText segments = "good morning [CQ:]"
  /\ extractMentions segments = []
  /\ extractReplyId segments = None
  /\ extractMediaRefs segments = [].
Proof.
  apply (parse_plain_message "  good   morning [CQ:] ").
  intros H. apply has_token_iff in H. vm_compute in H.
  destruct H as [x H]. discriminate H.
Defined.

(** ** The data of parsed tokens *)

(** A data map whose values are all strings and that has no property
    named [__proto__]. *)
Definition string_data (data : gmap string JsValue) : Prop :=
  map_Forall (fun k v => k <> "__proto__" /\ exists s, v = VStr s) data.

Lemma string_data_parse_attr data kv :
  string_data data -> string_data (parse_attr data kv).
Proof.
  intros H. unfold parse_attr. cbv zeta.
  destruct (indexOf "=" kv <=? 0); [exact H|].
  unfold obj_set. destruct (String.eqb _ "__proto__") eqn:E; [exact H|].
  apply map_Forall_insert_2; [|exact H].
  split; [|eauto]. intros Hk. rewrite Hk in E. discriminate E.
Qed.

Lemma string_data_parse_attrs attrs : string_data (parse_attrs attrs).
Proof.
  unfold parse_attrs. destruct (truthy attrs); [|apply map_Forall_empty].
  assert (H : forall l data, string_data data ->
                             string_data (fold_left parse_attr l data)).
  { induction l as [|kv l IH]; intros data Hd; [exact Hd|].
    cbn [fold_left]. apply IH, string_data_parse_attr, Hd. }
  apply H, map_Forall_empty.
Qed.

Lemma string_data_parseCQBody body : string_data (seg_data (parseCQBody body)).
Proof.
  unfold parseCQBody. cbv zeta. destruct (known_type _); cbn [seg_data].
  - apply string_data_parse_attrs.
  - unfold with_cqType. intros k v Hk.
    apply lookup_union_Some_raw in Hk as [Hk|[_ Hk]].
    + apply (string_data_parse_attrs _ k v Hk).
    + apply lookup_singleton_Some in Hk as [<- <-].
      split; [discriminate|eauto].
Qed.

(** X11: in every segment that [parseInboundCQ] makes from a string,
    every value of the data object is a string, and no property is named
    [__proto__]: an attribute of that name in a token is dropped by the
    assignment [data[key] = value]. *)
Theorem parsed_data_is_strings (input : string) :
  Forall (fun seg => string_data (seg_data seg)) (parseInboundCQ (InString input)).
Proof.
  cbn [parseInboundCQ]. destruct (parseStringInput_spec input) as (_ & Hp & _).
  eapply Forall_impl; [exact Hp|].
  intros seg [[t ->]|[body ->]]; [|apply string_data_parseCQBody].
  unfold text_segment. cbn [seg_data]. intros k v Hk.
  apply lookup_singleton_Some in Hk as [<- <-]. split; [discriminate|eauto].
Qed.

End CQMore.

(* ================================================================== *)
(** * The attributes of a token                                        *)
(* ================================================================== *)

Module CQAttrs.
Import JsString CQ CQProps CQMore.

(** The character [c] does not occur in [s]. *)
Fixpoint free_of (c : ascii) (s : string) : bool :=
  match s with
  | EmptyString => true
  | String a s' => negb (Ascii.eqb a c) && free_of c s'
  end.

(** The piece [kv] of a token body is the attribute [key = value]: it
    has an [=] after at least one character, the key is the trimmed
    text before the first [=] and the value is the trimmed text after
    it with every [&amp;] replaced by [&]. *)
Definition attribute (kv key value : string) : Prop :=
  exists k0 v0,
    kv = k0 +:+ String "=" v0
    /\ k0 <> "" /\ free_of "=" k0 = true
    /\ key = trim k0 /\ value = unescape_amp (trim v0).

Definition has_key (key kv : string) : Prop :=
  exists value, attribute kv key value.

(** What one turn of the loop of [parseCQBody] reads from a piece. *)
Definition attr_of (kv : string) : option (string * string) :=
  let idx := indexOf "=" kv in
  if idx <=? 0 then None
  else Some (trim (slice kv 0 (Z.to_nat idx)),
             unescape_amp (trim (slice_from kv (Z.to_nat (idx + 1))))).

(** The value that the last attribute of [pieces] with key [key] gives. *)
Definition value_for (key : string) (kv : string) : option string :=
  match attr_of kv with
  | Some (k, v) => if String.eqb k key then Some v else None
  | None => None
  end.

Definition last_value (key : string) (pieces : list string) : option string :=
  last (omap (value_for key) pieces).

(** [typePart?.trim() || "unknown"] *)
Definition type_name (typePart : string) : string :=
  if truthy (trim typePart) then trim typePart else "unknown".

Lemma parse_attr_attr_of data kv :
  parse_attr data kv
  = match attr_of kv with
    | Some (k, v) => obj_set k (VStr v) data
    | None => data
    end.
Proof. unfold parse_attr, attr_of. destruct (indexOf "=" kv <=? 0); reflexivity. Qed.

(** ** [indexOf] *)

Lemma indexOf_range c s : -1 <= indexOf c s.
Proof.
  induction s as [|a s IH]; cbn [indexOf]; [lia|].
  destruct (Ascii.eqb a c); [lia|].
  destruct (indexOf c s <? 0) eqn:E; [lia|]. apply Z.ltb_ge in E. lia.
Qed.

Lemma indexOf_app c k0 v0 :
  free_of c k0 = true -> indexOf c (k0 +:+ String c v0) = Z.of_nat (len k0).
Proof.
  induction k0 as [|a k0 IH]; intros H.
  - rewrite append_nil. cbn [indexOf]. rewrite Ascii.eqb_refl. reflexivity.
  - cbn [free_of] in H. apply andb_true_iff in H as [Ha H].
    rewrite append_cons. cbn [indexOf].
    destruct (Ascii.eqb a c); [discriminate|].
    rewrite (IH H).
    destruct (Z.of_nat (len k0) <? 0) eqn:E; [apply Z.ltb_lt in E; lia|].
    unfold len. cbn [String.length]. lia.
Qed.

Lemma indexOf_found c s :
  0 <= indexOf c s ->
  exists k0 v0,
    s = k0 +:+ String c v0 /\ free_of c k0 = true
    /\ indexOf c s = Z.of_nat (len k0).
Proof.
  induction s as [|a s IH]; cbn [indexOf]; [lia|].
  destruct (Ascii.eqb_spec a c) as [->|Hne].
  - intros _. exists "", s. auto.
  - destruct (indexOf c s <? 0) eqn:E; [lia|]. apply Z.ltb_ge in E. intros _.
    destruct (IH E) as (k0 & v0 & -> & Hf & Hi).
    exists (String a k0), v0. rewrite append_cons. split; [reflexivity|].
    split.
    + cbn [free_of]. rewrite Hf. destruct (Ascii.eqb_spec a c); [contradiction|reflexivity].
    + rewrite Hi. unfold len. cbn [String.length]. lia.
Qed.

Lemma attr_of_pieces k0 v0 :
  k0 <> "" -> free_of "=" k0 = true ->
  attr_of (k0 +:+ String "=" v0) = Some (trim k0, unescape_amp (trim v0)).
Proof.
  intros Hne Hf. unfold attr_of. rewrite (indexOf_app _ _ _ Hf).
  assert (Hpos : (0 < len k0)%nat)
    by (destruct k0; [contradiction|unfold len; cbn; lia]).
  destruct (Z.of_nat (len k0) <=? 0) eqn:E; [apply Z.leb_le in E; lia|].
  unfold slice, slice_from. cbn [drop].
  rewrite Nat2Z.id, Nat.sub_0_r, take_app_len.
  replace (Z.to_nat (Z.of_nat (len k0) + 1)) with (len k0 + 1)%nat by lia.
  rewrite drop_add, drop_app_len. reflexivity.
Qed.

Lemma attribute_iff kv key value :
  attribute kv key value <-> attr_of kv = Some (key, value).
Proof.
  split.
  - intros (k0 & v0 & -> & Hne & Hf & -> & ->). apply attr_of_pieces; assumption.
  - intros H.
    assert (E : 0 < indexOf "=" kv).
    { unfold attr_of in H. destruct (indexOf "=" kv <=? 0) eqn:E; [discriminate|].
      apply Z.leb_gt in E. exact E. }
    destruct (indexOf_found "=" kv) as (k0 & v0 & Hkv & Hf & Hi); [lia|].
    assert (Hne : k0 <> "") by (intros ->; cbn in Hi; lia).
    exists k0, v0. subst kv.
    rewrite (attr_of_pieces k0 v0 Hne Hf) in H.
    injection H as <- <-. auto.
Qed.

(** ** [split] and [join] *)

Lemma split_free c s : free_of c s = true -> split c s = [s].
Proof.
  induction s as [|a s IH]; intros H; [reflexivity|].
  cbn [free_of] in H. apply andb_true_iff in H as [Ha H].
  cbn [split]. destruct (Ascii.eqb a c); [discriminate|].
  rewrite (IH H). reflexivity.
Qed.

Lemma split_app c p s :
  free_of c p = true -> split c (p +:+ String c s) = p :: split c s.
Proof.
  induction p as [|a p IH]; intros H.
  - rewrite append_nil. cbn [split]. rewrite Ascii.eqb_refl. reflexivity.
  - cbn [free_of] in H. apply andb_true_iff in H as [Ha H].
    rewrite append_cons. cbn [split]. destruct (Ascii.eqb a c); [discriminate|].
    rewrite (IH H). reflexivity.
Qed.

Lemma join_cons_cons c (p q : string) (l : list string) :
  join (String c "") (p :: q :: l) = p +:+ String c (join (String c "") (q :: l)).
Proof. reflexivity. Qed.

(** Splitting what was joined gives back the pieces. *)
Lemma split_join c (p : string) (ps : list string) :
  Forall (fun x => free_of c x = true) (p :: ps) ->
  split c (join (String c "") (p :: ps)) = p :: ps.
Proof.
  revert p. induction ps as [|q ps IH]; intros p H.
  - apply Forall_cons in H as [H _]. apply split_free, H.
  - apply Forall_cons in H as [Hp H].
    rewrite join_cons_cons, (split_app _ _ _ Hp), (IH q H). reflexivity.
Qed.

(** Every string is the join of its pieces, which have no separator. *)
Lemma join_split c s :
  join (String c "") (split c s) = s
  /\ Forall (fun x => free_of c x = true) (split c s)
  /\ split c s <> [].
Proof.
  induction s as [|a s (IH1 & IH2 & IH3)].
  - cbn. repeat split; [constructor; [reflexivity|constructor]|discriminate].
  - cbn [split]. destruct (Ascii.eqb_spec a c) as [->|Hne].
    + destruct (split c s) as [|h t] eqn:E; [contradiction|].
      rewrite join_cons_cons, IH1. repeat split.
      * constructor; [reflexivity|exact IH2].
      * discriminate.
    + destruct (split c s) as [|h t] eqn:E; [contradiction|].
      repeat split.
      * destruct t as [|q t]; [cbn in *; congruence|].
        rewrite join_cons_cons in *. rewrite append_cons. congruence.
      * apply Forall_cons in IH2 as [Hh Ht]. constructor; [|exact Ht].
        cbn [free_of]. rewrite Hh.
        destruct (Ascii.eqb_spec a c); [contradiction|reflexivity].
      * discriminate.
Qed.

(** ** The loop over the pieces *)

Lemma obj_set_lookup k v data key :
  key <> "__proto__" ->
  obj_set k v data !! key
  = if String.eqb k key then Some v else data !! key.
Proof.
  intros Hkey. unfold obj_set.
  destruct (String.eqb_spec k "__proto__") as [->|Hk].
  - destruct (String.eqb_spec "__proto__" key); [congruence|reflexivity].
  - destruct (String.eqb_spec k key) as [->|Hne].
    + apply lookup_insert_eq.
    + apply lookup_insert_ne, Hne.
Qed.

Lemma obj_set_proto k v data :
  obj_set k v data !! "__proto__" = data !! "__proto__".
Proof.
  unfold obj_set. destruct (String.eqb_spec k "__proto__") as [->|Hk];
    [reflexivity|apply lookup_insert_ne, Hk].
Qed.

Lemma last_cons_omap {A B} (f : A -> option B) x l :
  last (omap f (x :: l))
  = match last (omap f l) with Some v => Some v | None => f x end.
Proof.
  change (omap f (x :: l)) with (match f x with Some y => y :: omap f l
                                            | None => omap f l end).
  destruct (f x) as [y|]; [|destruct (last (omap f l)); reflexivity].
  destruct (omap f l) as [|z r] eqn:E; [reflexivity|].
  change (last (y :: z :: r)) with (last (z :: r)).
  destruct (last (z :: r)) eqn:L; [reflexivity|].
  exfalso. clear -L. revert z L. induction r as [|u r IH]; intros z L;
    [discriminate|]. apply (IH u L).
Qed.

Lemma fold_parse_attr pieces : forall data key,
  key <> "__proto__" ->
  fold_left parse_attr pieces data !! key
  = match last_value key pieces with
    | Some v => Some (VStr v)
    | None => data !! key
    end.
Proof.
  induction pieces as [|kv pieces IH]; intros data key Hkey; [reflexivity|].
  cbn [fold_left]. rewrite (IH _ _ Hkey). unfold last_value.
  rewrite last_cons_omap. fold (last_value key pieces).
  destruct (last_value key pieces) as [v|]; [reflexivity|].
  rewrite parse_attr_attr_of. unfold value_for.
  destruct (attr_of kv) as [[k v]|]; [|reflexivity].
  rewrite (obj_set_lookup _ _ _ _ Hkey).
  destruct (String.eqb k key); reflexivity.
Qed.

Lemma fold_parse_attr_proto pieces : forall data,
  fold_left parse_attr pieces data !! "__proto__" = data !! "__proto__".
Proof.
  induction pieces as [|kv pieces IH]; intros data; [reflexivity|].
  cbn [fold_left]. rewrite IH, parse_attr_attr_of.
  destruct (attr_of kv) as [[k v]|]; [apply obj_set_proto|reflexivity].
Qed.

(** [rest.join(",")] split again gives [rest]; the test [if (attrs)]
    skips a loop that would store nothing. *)
Lemma parse_attrs_pieces rest :
  Forall (fun x => free_of "," x = true) rest ->
  parse_attrs (join "," rest) = fold_left parse_attr rest ∅.
Proof.
  intros H. destruct rest as [|p ps]; [reflexivity|].
  unfold parse_attrs. destruct (truthy (join "," (p :: ps))) eqn:E.
  - rewrite (split_join _ _ _ H). reflexivity.
  - destruct ps as [|q ps].
    + cbn in E. destruct p; [reflexivity|discriminate].
    + rewrite join_cons_cons in E. destruct p; discriminate.
Qed.

(** ** The last attribute with a given key *)

Lemma value_for_attribute kv key value :
  attribute kv key value -> value_for key kv = Some value.
Proof.
  intros H. apply attribute_iff in H. unfold value_for.
  rewrite H, String.eqb_refl. reflexivity.
Qed.

Lemma value_for_none kv key : ~ has_key key kv -> value_for key kv = None.
Proof.
  intros H. unfold value_for. destruct (attr_of kv) as [[k v]|] eqn:E; [|reflexivity].
  destruct (String.eqb_spec k key) as [->|Hne]; [|reflexivity].
  exfalso. apply H. exists v. apply attribute_iff, E.
Qed.

Lemma omap_value_for_none key pieces :
  (forall kv, kv ∈ pieces -> ~ has_key key kv) ->
  omap (value_for key) pieces = [].
Proof.
  induction pieces as [|kv pieces IH]; intros H; [reflexivity|].
  change (omap (value_for key) (kv :: pieces))
    with (match value_for key kv with
          | Some y => y :: omap (value_for key) pieces
          | None => omap (value_for key) pieces
          end).
  rewrite value_for_none by (apply H; left).
  apply IH. intros kv' Hin. apply H. right. exact Hin.
Qed.

Lemma last_value_none key pieces :
  (forall kv, kv ∈ pieces -> ~ has_key key kv) -> last_value key pieces = None.
Proof. intros H. unfold last_value. rewrite omap_value_for_none by exact H. reflexivity. Qed.

Lemma last_value_found key value before kv after :
  attribute kv key value ->
  (forall kv', kv' ∈ after -> ~ has_key key kv') ->
  last_value key (before ++ kv :: after) = Some value.
Proof.
  intros Hkv Hafter. unfold last_value. rewrite omap_app.
  change (omap (value_for key) (kv :: after))
    with (match value_for key kv with
          | Some y => y :: omap (value_for key) after
          | None => omap (value_for key) after
          end).
  rewrite (value_for_attribute _ _ _ Hkv), (omap_value_for_none key after Hafter).
  apply last_snoc.
Qed.

(** ** Unknown tokens (C9) *)

Lemma parseCQBody_pieces typePart rest :
  Forall (fun x => free_of "," x = true) (typePart :: rest) ->
  parseCQBody (join "," (typePart :: rest))
  = let raw := "[CQ:" +:+ join "," (typePart :: rest) +:+ "]" in
    let data := fold_left parse_attr rest ∅ in
    if known_type (type_name typePart)
    then mkSegment (type_name typePart) data (Some raw)
    else mkSegment "unknown" (with_cqType (type_name typePart) data) (Some raw).
Proof.
  intros H. unfold parseCQBody, type_of_body.
  rewrite (split_join _ _ _ H). cbn [tail].
  apply Forall_cons in H as [_ H]. rewrite (parse_attrs_pieces _ H).
  reflexivity.
Qed.

Lemma attrs_lookup rest key :
  fold_left parse_attr rest ∅ !! key
  = if String.eqb key "__proto__" then None
    else match last_value key rest with
         | Some v => Some (VStr v)
         | None => None
         end.
Proof.
  destruct (String.eqb_spec key "__proto__") as [->|Hkey].
  - rewrite fold_parse_attr_proto. apply lookup_empty.
  - rewrite (fold_parse_attr _ _ _ Hkey), lookup_empty. reflexivity.
Qed.

(** C9, amended: parsing a bracketed token whose type name is not in
    the known set yields, without throwing, a single segment of type
    [unknown] that keeps the token text as [raw].  The type name is the
    trimmed first comma-separated piece of the body, or [unknown] when
    that piece is blank.  The attributes are the later pieces that have
    an [=] after at least one character: the key is the trimmed text
    before the first [=], the value the trimmed text after it with
    [&amp;] unescaped.  For every key other than [__proto__] that some
    attribute has, the data map holds the value of the last attribute
    with that key; when no attribute has the key, the map holds the
    type name under [cqType] and nothing under any other key. *)
Theorem parse_unknown_token (typePart : string) (rest : list string)
  (Hpieces : Forall (fun x => free_of "," x = true) (typePart :: rest))
  (Hne : join "," (typePart :: rest) <> "")
  (Hb : bracket_free (join "," (typePart :: rest)) = true)
  (Hunk : known_type (type_name typePart) = false) :
  let body := join "," (typePart :: rest) in
  exists seg,
    parseInboundCQ (InString ("[CQ:" +:+ body +:+ "]")) = [seg]
    /\ seg_type seg = "unknown"
    /\ seg_raw seg = Some ("[CQ:" +:+ body +:+ "]")
    /\ (forall before kv after key value,
          rest = before ++ kv :: after ->
          attribute kv key value ->
          (forall kv', kv' ∈ after -> ~ has_key key kv') ->
          key <> "__proto__" ->
          seg_data seg !! key = Some (VStr value))
    /\ ((forall kv, kv ∈ rest -> ~ has_key "cqType" kv) ->
        seg_data seg !! "cqType" = Some (VStr (type_name typePart)))
    /\ (forall key, key <> "cqType" ->
          (forall kv, kv ∈ rest -> ~ has_key key kv) ->
          seg_data seg !! key = None).
Proof.
  intros body. cbn [parseInboundCQ].
  rewrite (parseStringInput_single_token body Hne Hb). subst body.
  rewrite (parseCQBody_pieces _ _ Hpieces). cbv zeta. rewrite Hunk.
  eexists. split; [reflexivity|]. cbn [seg_type seg_raw seg_data].
  split; [reflexivity|]. split; [reflexivity|].
  unfold with_cqType. split; [|split].
  - intros before kv after key value -> Hkv Hafter Hkey.
    apply lookup_union_Some_l. rewrite attrs_lookup.
    destruct (String.eqb_spec key "__proto__"); [contradiction|].
    rewrite (last_value_found _ _ _ _ _ Hkv Hafter). reflexivity.
  - intros Hnone. rewrite lookup_union_r.
    + apply lookup_singleton_eq.
    + rewrite attrs_lookup, (last_value_none _ _ Hnone). reflexivity.
  - intros key Hkey Hnone. rewrite lookup_union_r.
    + apply lookup_singleton_ne. congruence.
    + rewrite attrs_lookup, (last_value_none _ _ Hnone).
      destruct (String.eqb key "__proto__"); reflexivity.
Qed.

(** The token [[CQ:poke,a=1, a = 2&amp;3 ,flag,=v,foo=bar]]: the key [a]
    is given twice, [flag] has no [=] and [=v] has no key. *)
Lemma parse_unknown_token_witness :
  let body := join "," ("poke" :: ["a=1"; " a = 2&amp;3 "; "flag"; "=v"; "foo=bar"]) in
  exists seg,
    parseInboundCQ (InString ("[CQ:" +:+ body +:+ "]")) = [seg]
    /\ seg_type seg = "unknown"
    /\ seg_raw seg = Some ("[CQ:" +:+ body +:+ "]")
    /\ (forall before kv after key value,
          ["a=1"; " a = 2&amp;3 "; "flag"; "=v"; "foo=bar"] = before ++ kv :: after ->
          attribute kv key value ->
          (forall kv', kv' ∈ after -> ~ has_key key kv') ->
          key <> "__proto__" ->
          seg_data seg !! key = Some (VStr value))
    /\ ((forall kv, kv ∈ ["a=1"; " a = 2&amp;3 "; "flag"; "=v"; "foo=bar"] ->
                    ~ has_key "cqType" kv) ->
        seg_data seg !! "cqType" = Some (VStr (type_name "poke")))
    /\ (forall key, key <> "cqType" ->
          (forall kv, kv ∈ ["a=1"; " a = 2&amp;3 "; "flag"; "=v"; "foo=bar"] ->
                      ~ has_key key kv) ->
          seg_data seg !! key = None).
Proof.
  apply (parse_unknown_token "poke" ["a=1"; " a = 2&amp;3 "; "flag"; "=v"; "foo=bar"]).
  - repeat constructor.
  - discriminate.
  - reflexivity.
  - reflexivity.
Defined.

(** The data of that token, and of a token with a blank type name. *)
Example parse_unknown_token_data :
  parseInboundCQ (InString "[CQ:poke,a=1, a = 2&amp;3 ,flag,=v,foo=bar]")
  = [ mkSegment "unknown"
        (<["cqType" := VStr "poke"]>
           (<["a" := VStr "2&3"]> {[ "foo" := VStr "bar" ]}))
        (Some "[CQ:poke,a=1, a = 2&amp;3 ,flag,=v,foo=bar]") ]
  /\ parseInboundCQ (InString "[CQ: ,a=1]")
     = [ mkSegment "unknown"
           (<["cqType" := VStr "unknown"]> {[ "a" := VStr "1" ]})
           (Some "[CQ: ,a=1]") ].
Proof. split; vm_compute; reflexivity. Qed.

End CQAttrs.

(* ================================================================== *)
(** * Properties of the client                                         *)
(* ================================================================== *)

Module OneBotProps.
Import JsString OneBot.

(** ** The insertion-ordered map *)

Section InsertionMap.
Context {V : Type}.
Implicit Types (m : list (string * V)) (k : string) (v : V).

Lemma map_get_elem_of k v m : map_get k m = Some v -> (k, v) ∈ m.
Proof.
  induction m as [|[k' v'] m IH]; cbn [map_get]; [discriminate|].
  destruct (String.eqb_spec k' k) as [->|Hne].
  - intros [= ->]. apply list_elem_of_here.
  - intros H. apply list_elem_of_further, IH, H.
Qed.

Lemma map_get_set_eq k v m : map_get k (map_set k v m) = Some v.
Proof.
  induction m as [|[k' v'] m IH]; cbn [map_set map_get].
  - rewrite String.eqb_refl. reflexivity.
  - destruct (String.eqb_spec k' k) as [->|Hne]; cbn [map_get].
    + rewrite String.eqb_refl. reflexivity.
    + destruct (String.eqb_spec k' k); [contradiction|exact IH].
Qed.

Lemma map_get_set_ne k k' v m :
  k <> k' -> map_get k' (map_set k v m) = map_get k' m.
Proof.
  intros Hne. induction m as [|[k0 v0] m IH]; cbn [map_set map_get].
  - destruct (String.eqb_spec k k'); [contradiction|reflexivity].
  - destruct (String.eqb_spec k0 k) as [->|Hk]; cbn [map_get].
    + destruct (String.eqb_spec k k'); [contradiction|reflexivity].
    + rewrite IH. reflexivity.
Qed.

Lemma map_get_delete_eq k m : map_get k (map_delete k m) = None.
Proof.
  induction m as [|[k' v'] m IH]; cbn [map_delete map_get]; [reflexivity|].
  destruct (String.eqb_spec k' k) as [->|Hne]; [exact IH|].
  cbn [map_get]. destruct (String.eqb_spec k' k); [contradiction|exact IH].
Qed.

Lemma map_get_delete_ne k k' m :
  k <> k' -> map_get k' (map_delete k m) = map_get k' m.
Proof.
  intros Hne. induction m as [|[k0 v0] m IH]; cbn [map_delete map_get];
    [reflexivity|].
  destruct (String.eqb_spec k0 k) as [->|Hk]; cbn [map_get].
  - destruct (String.eqb_spec k k'); [contradiction|exact IH].
  - rewrite IH. reflexivity.
Qed.

Lemma elem_of_map_delete x k m :
  x ∈ map_delete k m <-> x ∈ m /\ x.1 <> k.
Proof.
  induction m as [|[k' v'] m IH]; cbn [map_delete].
  - split; [intros H; inversion H|intros [H _]; inversion H].
  - destruct (String.eqb_spec k' k) as [->|Hne].
    + rewrite IH, elem_of_cons. split.
      * intros [H1 H2]. auto.
      * intros [[->|H1] H2]; [contradiction H2; reflexivity|auto].
    + rewrite !elem_of_cons, IH. split.
      * intros [->|[H1 H2]]; auto.
      * intros [[->|H1] H2]; auto.
Qed.

Lemma map_delete_sublist k m : sublist (map_delete k m) m.
Proof.
  induction m as [|[k' v'] m IH]; cbn [map_delete]; [constructor|].
  destruct (String.eqb k' k); [apply sublist_cons|apply sublist_skip]; exact IH.
Qed.

Lemma elem_of_map_set x k v m :
  x ∈ map_set k v m -> x = (k, v) \/ x ∈ m.
Proof.
  induction m as [|[k' v'] m IH]; cbn [map_set].
  - intros H. apply list_elem_of_singleton in H. auto.
  - destruct (String.eqb_spec k' k) as [->|Hne]; rewrite !elem_of_cons.
    + intros [->|H]; auto.
    + intros [->|H]; [auto|]. apply IH in H as [->|H]; auto.
Qed.

Lemma map_set_keys k v m :
  (map_set k v m).*1 = m.*1 \/
  ((k ∉ m.*1) /\ (map_set k v m).*1 = m.*1 ++ [k]).
Proof.
  induction m as [|[k' v'] m IH]; cbn [map_set].
  - right. split; [apply not_elem_of_nil|reflexivity].
  - destruct (String.eqb_spec k' k) as [->|Hne]; [left; reflexivity|].
    destruct IH as [IH|[Hk IH]]; cbn [fmap list_fmap fst] in *.
    + left. f_equal. exact IH.
    + right. split.
      * rewrite not_elem_of_cons. split; [congruence|exact Hk].
      * cbn. f_equal. exact IH.
Qed.

Lemma map_set_NoDup_keys k v m : NoDup (m.*1) -> NoDup ((map_set k v m).*1).
Proof.
  intros H. destruct (map_set_keys k v m) as [->|[Hk ->]]; [exact H|].
  apply NoDup_app. split; [exact H|]. split.
  - intros x Hx Hx'. apply list_elem_of_singleton in Hx'. subst. contradiction.
  - apply NoDup_singleton.
Qed.

Lemma map_set_NoDup_image {B : Type} (f : V -> B) k v m :
  NoDup ((fun x => f x.2) <$> m) ->
  (forall x, x ∈ m -> f x.2 <> f v) ->
  NoDup ((fun x => f x.2) <$> map_set k v m).
Proof.
  induction m as [|[k' v'] m IH]; cbn [map_set]; intros Hnd Hfresh.
  - apply NoDup_singleton.
  - rewrite fmap_cons in Hnd. apply NoDup_cons in Hnd as [Hhd Htl].
    destruct (String.eqb_spec k' k) as [->|Hne]; rewrite fmap_cons;
      apply NoDup_cons.
    + split; [|exact Htl]. cbn. intros Hin.
      apply list_elem_of_fmap in Hin as (y & Hy & Hym).
      eapply Hfresh; [apply list_elem_of_further, Hym|]. symmetry. exact Hy.
    + split.
      * cbn in *. intros Hin. apply list_elem_of_fmap in Hin as (y & Hy & Hym).
        apply elem_of_map_set in Hym as [->|Hym].
        -- cbn in Hy. eapply Hfresh; [apply list_elem_of_here|]. exact Hy.
        -- apply Hhd. apply list_elem_of_fmap. eauto.
      * apply IH; [exact Htl|]. intros x Hx. apply Hfresh.
        apply list_elem_of_further, Hx.
Qed.


End InsertionMap.

(** ** Settlements in a trace *)

(** The promise that an effect settles. *)
Definition settled_of (e : Effect) : list PromiseId :=
  match e with
  | Resolve p _ | Reject p _ => [p]
  | _ => []
  end.

(** The request promises settled along a trace, in order, one entry per
    call of [resolve] or [reject]. *)
Definition settlements (tr : list Effect) : list PromiseId :=
  flat_map settled_of tr.

Lemma settlements_app a b : settlements (a ++ b) = settlements a ++ settlements b.
Proof. apply flat_map_app. Qed.

Lemma settlements_snoc tr e : settlements (tr ++ [e]) = settlements tr ++ settled_of e.
Proof. rewrite settlements_app. cbn. rewrite app_nil_r. reflexivity. Qed.

(** How often an effect occurs in a trace. *)
Fixpoint occurrences (f : Effect -> bool) (tr : list Effect) : nat :=
  match tr with
  | [] => 0
  | e :: rest => ((if f e then 1 else 0) + occurrences f rest)%nat
  end.

Lemma occurrences_app f a b :
  occurrences f (a ++ b) = (occurrences f a + occurrences f b)%nat.
Proof. induction a as [|e a IH]; cbn; [reflexivity|]. rewrite IH. lia. Qed.

Definition promises (pend : list (string * PendingRequest)) : list PromiseId :=
  (fun x => promise x.2) <$> pend.

Definition pending (w : World) : list (string * PendingRequest) :=
  pendingRequests (self w).

(** ** The invariant of the pending-request table *)

(** What holds of the table, the armed timers, the id supply, the
    settlements so far and the attempt counter in every reachable world.
    Every clause survives the removal of a timer or of an entry. *)
Record J (pend : list (string * PendingRequest)) (tm : gmap nat TimerTask)
       (fr : nat) (sl : list PromiseId) (att : Z) : Prop := mkJ {
  J_once : NoDup sl;
  J_keys : NoDup (pend.*1);
  J_promises : NoDup (promises pend);
  J_entry : forall e pr, (e, pr) ∈ pend -> (promise pr ∉ sl) /\ (promise pr < fr)%nat;
  J_timer : forall t e a m p,
    tm !! t = Some (RequestTimeout e a m p) -> (p ∉ sl) /\ (p < fr)%nat;
  J_settled : forall p, p ∈ sl -> (p < fr)%nat;
  J_timer_inj : forall t1 t2 e1 a1 m1 e2 a2 m2 p,
    tm !! t1 = Some (RequestTimeout e1 a1 m1 p) ->
    tm !! t2 = Some (RequestTimeout e2 a2 m2 p) -> t1 = t2;
  J_link : forall e pr t e' a m,
    (e, pr) ∈ pend -> tm !! t = Some (RequestTimeout e' a m (promise pr)) ->
    t = timer pr /\ e' = e;
  J_attempt : 0 <= att;
  J_reconnect : forall t n, tm !! t = Some (ReconnectFire n) -> 1 <= n;
}.

Definition Inv (w : World) : Prop :=
  J (pending w) (timers w) (fresh w) (settlements (trace w))
    (reconnectAttempt (self w)).

(** How a world may move: ids are only handed out, an entry or a request
    timer of the later world is one of the earlier world or has a new
    promise, and a promise settled in between was in the table, is new,
    or is one of [A] (the promise of a request timer that fired). *)
Record evolves (A : PromiseId -> Prop) (w w' : World) : Prop := mkEvolves {
  ev_fresh : (fresh w <= fresh w')%nat;
  ev_entries : forall x, x ∈ pending w' ->
    x ∈ pending w \/ (fresh w <= promise x.2)%nat;
  ev_timers : forall t e a m p,
    timers w' !! t = Some (RequestTimeout e a m p) ->
    timers w !! t = Some (RequestTimeout e a m p) \/ (fresh w <= p)%nat;
  ev_settled : exists delta,
    settlements (trace w') = settlements (trace w) ++ delta
    /\ forall q, q ∈ delta ->
         q ∈ promises (pending w) \/ (fresh w <= q)%nat \/ A q;
}.

Definition ok_step (A : PromiseId -> Prop) (w w' : World) : Prop :=
  Inv w -> Inv w' /\ evolves A w w'.

Lemma evolves_refl A w : evolves A w w.
Proof.
  split; auto. exists []. rewrite app_nil_r. split; [reflexivity|].
  intros q Hq. inversion Hq.
Qed.

Lemma elem_of_promises p pend :
  p ∈ promises pend <-> exists e pr, (e, pr) ∈ pend /\ promise pr = p.
Proof.
  unfold promises. rewrite list_elem_of_fmap. split.
  - intros ([e pr] & -> & H). eauto.
  - intros (e & pr & H & <-). exists (e, pr). auto.
Qed.

Lemma evolves_trans A w1 w2 w3 :
  evolves A w1 w2 -> evolves A w2 w3 -> evolves A w1 w3.
Proof.
  intros [F1 E1 T1 (d1 & S1 & D1)] [F2 E2 T2 (d2 & S2 & D2)]. split.
  - lia.
  - intros x Hx. destruct (E2 x Hx) as [H|H]; [auto|right; lia].
  - intros t e a m p Hp. destruct (T2 _ _ _ _ _ Hp) as [H|H]; [eauto|right; lia].
  - exists (d1 ++ d2). rewrite S2, S1, app_assoc. split; [reflexivity|].
    intros q Hq. apply elem_of_app in Hq as [Hq|Hq]; [auto|].
    destruct (D2 q Hq) as [H|[H|H]]; [|right; left; lia|auto].
    apply elem_of_promises in H as (e & pr & Hin & <-).
    destruct (E1 _ Hin) as [H|H]; [|right; left; exact H].
    left. apply elem_of_promises. eauto.
Qed.

Lemma ok_refl A w : ok_step A w w.
Proof. intros H. split; [exact H|apply evolves_refl]. Qed.

Lemma ok_trans A w1 w2 w3 : ok_step A w1 w2 -> ok_step A w2 w3 -> ok_step A w1 w3.
Proof.
  intros H12 H23 H1. destruct (H12 H1) as [H2 E12].
  destruct (H23 H2) as [H3 E23]. split; [exact H3|].
  eapply evolves_trans; eassumption.
Qed.

(** *** Moves that only remove: timers cleared, entries deleted, ids
    handed out, effects that settle nothing. *)
Lemma ok_shrink A w w' :
  sublist (pending w') (pending w) ->
  timers w' ⊆ timers w ->
  (fresh w <= fresh w')%nat ->
  settlements (trace w') = settlements (trace w) ->
  reconnectAttempt (self w') = reconnectAttempt (self w) ->
  ok_step A w w'.
Proof.
  intros Hp Ht Hf Hs Ha [I1 I2 I3 I4 I5 I6 I7 I8 I9 I10].
  assert (Hin : forall x, x ∈ pending w' -> x ∈ pending w)
    by (intros x Hx; eapply elem_of_sublist; [exact Hx|exact Hp]).
  assert (Hlk : forall t task, timers w' !! t = Some task -> timers w !! t = Some task)
    by (intros t task H; eapply lookup_weaken; [exact H|exact Ht]).
  split.
  - unfold Inv. rewrite Hs, Ha. split; eauto.
    + eapply sublist_NoDup; [exact I2|apply fmap_sublist, Hp].
    + eapply sublist_NoDup; [exact I3|apply fmap_sublist, Hp].
    + intros e pr Hx. destruct (I4 e pr (Hin _ Hx)). split; [auto|lia].
    + intros t e a m p Hx. destruct (I5 _ _ _ _ _ (Hlk _ _ Hx)). split; [auto|lia].
    + intros p Hx. specialize (I6 p Hx). lia.
  - split.
    + exact Hf.
    + intros x Hx. left. apply Hin, Hx.
    + intros t e a m p Hx. left. apply Hlk, Hx.
    + exists []. rewrite app_nil_r. split; [exact Hs|]. intros q Hq. inversion Hq.
Qed.

(** *** A timer that is not a request timer is armed. *)
Lemma ok_arm_other A w w' t task :
  (forall e a m p, task <> RequestTimeout e a m p) ->
  (forall n, task = ReconnectFire n -> 1 <= n) ->
  pending w' = pending w ->
  timers w' = <[t := task]> (timers w) ->
  (fresh w <= fresh w')%nat ->
  settlements (trace w') = settlements (trace w) ->
  reconnectAttempt (self w') = reconnectAttempt (self w) ->
  ok_step A w w'.
Proof.
  intros Hnr Hrc Hp Ht Hf Hs Ha [I1 I2 I3 I4 I5 I6 I7 I8 I9 I10].
  assert (Hlk : forall t' e a m p,
             timers w' !! t' = Some (RequestTimeout e a m p) ->
             timers w !! t' = Some (RequestTimeout e a m p)).
  { intros t' e a m p. rewrite Ht.
    destruct (decide (t = t')) as [<-|Hne].
    - rewrite lookup_insert_eq. intros [= H]. exfalso. eapply Hnr, H.
    - rewrite lookup_insert_ne by exact Hne. auto. }
  split.
  - unfold Inv. rewrite Hs, Ha, Hp. split; eauto.
    + intros e pr Hx. destruct (I4 e pr Hx). split; [auto|lia].
    + intros t' e a m p Hx. destruct (I5 _ _ _ _ _ (Hlk _ _ _ _ _ Hx)).
      split; [auto|lia].
    + intros p Hx. specialize (I6 p Hx). lia.
    + intros t' n. rewrite Ht.
      destruct (decide (t = t')) as [<-|Hne].
      * rewrite lookup_insert_eq. intros [= H]. auto.
      * rewrite lookup_insert_ne by exact Hne. apply I10.
  - split.
    + exact Hf.
    + intros x Hx. left. rewrite <- Hp. exact Hx.
    + intros t' e a m p Hx. left. eapply Hlk, Hx.
    + exists []. rewrite app_nil_r. split; [exact Hs|]. intros q Hq. inversion Hq.
Qed.

(** *** The attempt counter is written. *)
Lemma ok_set_attempt A w w' :
  0 <= reconnectAttempt (self w') ->
  pending w' = pending w ->
  timers w' ⊆ timers w ->
  (fresh w <= fresh w')%nat ->
  settlements (trace w') = settlements (trace w) ->
  ok_step A w w'.
Proof.
  intros Ha Hp Ht Hf Hs [I1 I2 I3 I4 I5 I6 I7 I8 I9 I10].
  assert (Hlk : forall t task, timers w' !! t = Some task -> timers w !! t = Some task)
    by (intros t task H; eapply lookup_weaken; [exact H|exact Ht]).
  split.
  - unfold Inv. rewrite Hs, Hp. split; eauto.
    + intros e pr Hx. destruct (I4 e pr Hx). split; [auto|lia].
    + intros t e a m p Hx. destruct (I5 _ _ _ _ _ (Hlk _ _ Hx)). split; [auto|lia].
    + intros p Hx. specialize (I6 p Hx). lia.
  - split.
    + exact Hf.
    + intros x Hx. left. rewrite <- Hp. exact Hx.
    + intros t e a m p Hx. left. apply Hlk, Hx.
    + exists []. rewrite app_nil_r. split; [exact Hs|]. intros q Hq. inversion Hq.
Qed.

Lemma NoDup_fmap_elem_inj {A B : Type} (f : A -> B) (l : list A) x y :
  NoDup (f <$> l) -> x ∈ l -> y ∈ l -> f x = f y -> x = y.
Proof.
  induction l as [|z l IH]; intros Hnd Hx Hy Hf; [inversion Hx|].
  rewrite fmap_cons in Hnd. apply NoDup_cons in Hnd as [Hz Hnd].
  apply elem_of_cons in Hx as [->|Hx]; apply elem_of_cons in Hy as [->|Hy].
  - reflexivity.
  - exfalso. apply Hz. rewrite Hf. apply list_elem_of_fmap. eauto.
  - exfalso. apply Hz. rewrite <- Hf. apply list_elem_of_fmap. eauto.
  - apply IH; assumption.
Qed.

(** *** A call registers its request: a new promise, its timer, its
    entry (which replaces the entry under the same token, if any). *)
Lemma ok_new_request A w w' e a m p t :
  (fresh w <= p)%nat -> (p < fresh w')%nat ->
  pending w' = map_set e (mkPending a m p t) (pending w) ->
  timers w' = <[t := RequestTimeout e a m p]> (timers w) ->
  settlements (trace w') = settlements (trace w) ->
  reconnectAttempt (self w') = reconnectAttempt (self w) ->
  ok_step A w w'.
Proof.
  intros Hp Hp' Hpend Htm Hs Ha [I1 I2 I3 I4 I5 I6 I7 I8 I9 I10].
  assert (Hnew : p ∉ settlements (trace w))
    by (intros H; apply I6 in H; lia).
  assert (Hold : forall x, x ∈ pending w -> promise x.2 <> p).
  { intros [e0 pr] Hx. destruct (I4 _ _ Hx). cbn. lia. }
  assert (Hlk : forall t' e' a' m' p',
             timers w' !! t' = Some (RequestTimeout e' a' m' p') ->
             (t' = t /\ e' = e /\ a' = a /\ m' = m /\ p' = p)
             \/ (timers w !! t' = Some (RequestTimeout e' a' m' p')
                 /\ (p' < fresh w)%nat)).
  { intros t' e' a' m' p'. rewrite Htm.
    destruct (decide (t = t')) as [<-|Hne].
    - rewrite lookup_insert_eq. intros [= <- <- <- <-]. left. auto.
    - rewrite lookup_insert_ne by exact Hne.
      intros H. right. split; [exact H|]. apply (I5 _ _ _ _ _ H). }
  split.
  - unfold Inv. rewrite Hs, Ha, Hpend. split.
    + exact I1.
    + apply map_set_NoDup_keys, I2.
    + apply (map_set_NoDup_image promise); [exact I3|]. intros x Hx. cbn.
      apply Hold, Hx.
    + intros e0 pr Hx. apply elem_of_map_set in Hx as [[= -> ->]|Hx].
      * cbn. split; [exact Hnew|exact Hp'].
      * destruct (I4 _ _ Hx). split; [auto|lia].
    + intros t' e' a' m' p' Hx.
      destruct (Hlk _ _ _ _ _ Hx) as [(-> & -> & -> & -> & ->)|[Hx' Hlt]].
      * split; [exact Hnew|exact Hp'].
      * split; [apply (I5 _ _ _ _ _ Hx')|lia].
    + intros q Hq. apply I6 in Hq. lia.
    + intros t1 t2 e1 a1 m1 e2 a2 m2 q H1 H2.
      destruct (Hlk _ _ _ _ _ H1) as [(-> & -> & -> & -> & ->)|[H1' L1]];
        destruct (Hlk _ _ _ _ _ H2) as [(-> & -> & -> & -> & E)|[H2' L2]];
        try reflexivity; try lia.
      eapply I7; eassumption.
    + intros e0 pr t' e' a' m' Hx Ht'.
      apply elem_of_map_set in Hx as [[= -> ->]|Hx]; cbn in Ht'.
      * destruct (Hlk _ _ _ _ _ Ht') as [(-> & -> & -> & -> & _)|[_ L]];
          [cbn; auto|lia].
      * destruct (Hlk _ _ _ _ _ Ht') as [(-> & -> & -> & -> & E)|[Ht'' _]].
        -- exfalso. eapply (Hold _ Hx). exact E.
        -- eapply I8; eassumption.
    + exact I9.
    + intros t' n. rewrite Htm.
      destruct (decide (t = t')) as [<-|Hne].
      * rewrite lookup_insert_eq. discriminate.
      * rewrite lookup_insert_ne by exact Hne. apply I10.
  - split.
    + lia.
    + intros x Hx. rewrite Hpend in Hx.
      apply elem_of_map_set in Hx as [->|Hx]; [right; exact Hp|left; exact Hx].
    + intros t' e' a' m' p' Hx.
      destruct (Hlk _ _ _ _ _ Hx) as [(-> & -> & -> & -> & ->)|[Hx' _]];
        [right; exact Hp|left; exact Hx'].
    + exists []. rewrite app_nil_r. split; [exact Hs|]. intros q Hq. inversion Hq.
Qed.

(** *** The request of an entry is settled: its timer is cleared, the
    entry deleted, its promise resolved or rejected. *)
Lemma ok_settle_entry A w w' e pr :
  (e, pr) ∈ pending w ->
  pending w' = map_delete e (pending w) ->
  timers w' = delete (timer pr) (timers w) ->
  fresh w' = fresh w ->
  settlements (trace w') = settlements (trace w) ++ [promise pr] ->
  reconnectAttempt (self w') = reconnectAttempt (self w) ->
  ok_step A w w'.
Proof.
  intros Hin Hpend Htm Hf Hs Ha [I1 I2 I3 I4 I5 I6 I7 I8 I9 I10].
  destruct (I4 _ _ Hin) as [Hns Hlt].
  assert (Hlk : forall t task, timers w' !! t = Some task ->
                               timers w !! t = Some task /\ t <> timer pr).
  { intros t task. rewrite Htm, lookup_delete_Some. intros [H1 H2].
    split; [exact H2|congruence]. }
  assert (Hel : forall x, x ∈ pending w' -> x ∈ pending w /\ x.1 <> e).
  { intros x. rewrite Hpend. apply elem_of_map_delete. }
  split.
  - unfold Inv. rewrite Hs, Ha, Hf. split.
    + apply NoDup_app. split; [exact I1|]. split; [|apply NoDup_singleton].
      intros x Hx Hx'. apply list_elem_of_singleton in Hx'. subst. contradiction.
    + rewrite Hpend. eapply sublist_NoDup; [exact I2|].
      apply fmap_sublist, map_delete_sublist.
    + rewrite Hpend. eapply sublist_NoDup; [exact I3|].
      apply fmap_sublist, map_delete_sublist.
    + intros e0 pr0 Hx. destruct (Hel _ Hx) as [Hx' Hne]. cbn in Hne.
      destruct (I4 _ _ Hx') as [H1 H2]. split; [|exact H2].
      rewrite not_elem_of_app, list_elem_of_singleton. split; [exact H1|].
      intros E. apply Hne.
      assert (X : (e0, pr0) = (e, pr))
        by (eapply (NoDup_fmap_elem_inj (fun x => promise x.2)); eauto).
      congruence.
    + intros t e0 a m p Hx. destruct (Hlk _ _ Hx) as [Hx' Hne].
      destruct (I5 _ _ _ _ _ Hx') as [H1 H2]. split; [|exact H2].
      rewrite not_elem_of_app, list_elem_of_singleton. split; [exact H1|].
      intros ->. apply Hne. eapply I8; eassumption.
    + intros p Hp. apply elem_of_app in Hp as [Hp|Hp]; [apply I6, Hp|].
      apply list_elem_of_singleton in Hp. subst. exact Hlt.
    + intros t1 t2 e1 a1 m1 e2 a2 m2 q H1 H2.
      eapply I7; [apply (Hlk _ _ H1)|apply (Hlk _ _ H2)].
    + intros e0 pr0 t e' a m Hx Ht.
      eapply I8; [apply (Hel _ Hx)|apply (Hlk _ _ Ht)].
    + exact I9.
    + intros t n Ht. eapply I10. apply (Hlk _ _ Ht).
  - split.
    + lia.
    + intros x Hx. left. apply (Hel _ Hx).
    + intros t e0 a m p Hx. left. apply (Hlk _ _ Hx).
    + exists [promise pr]. split; [exact Hs|]. intros q Hq.
      apply list_elem_of_singleton in Hq. subst. left.
      apply elem_of_promises. eauto.
Qed.

(** *** A request timer fires: the entry under its token is deleted and
    its promise rejected. *)
Lemma ok_settle_timer (A : PromiseId -> Prop) w w' t e a m p :
  A p ->
  timers w !! t = Some (RequestTimeout e a m p) ->
  pending w' = map_delete e (pending w) ->
  timers w' = delete t (timers w) ->
  fresh w' = fresh w ->
  settlements (trace w') = settlements (trace w) ++ [p] ->
  reconnectAttempt (self w') = reconnectAttempt (self w) ->
  ok_step A w w'.
Proof.
  intros HA Ht Hpend Htm Hf Hs Ha [I1 I2 I3 I4 I5 I6 I7 I8 I9 I10].
  destruct (I5 _ _ _ _ _ Ht) as [Hns Hlt].
  assert (Hlk : forall t' task, timers w' !! t' = Some task ->
                                timers w !! t' = Some task /\ t' <> t).
  { intros t' task. rewrite Htm, lookup_delete_Some. intros [H1 H2].
    split; [exact H2|congruence]. }
  assert (Hel : forall x, x ∈ pending w' -> x ∈ pending w /\ x.1 <> e).
  { intros x. rewrite Hpend. apply elem_of_map_delete. }
  split.
  - unfold Inv. rewrite Hs, Ha, Hf. split.
    + apply NoDup_app. split; [exact I1|]. split; [|apply NoDup_singleton].
      intros x Hx Hx'. apply list_elem_of_singleton in Hx'. subst. contradiction.
    + rewrite Hpend. eapply sublist_NoDup; [exact I2|].
      apply fmap_sublist, map_delete_sublist.
    + rewrite Hpend. eapply sublist_NoDup; [exact I3|].
      apply fmap_sublist, map_delete_sublist.
    + intros e0 pr0 Hx. destruct (Hel _ Hx) as [Hx' Hne]. cbn in Hne.
      destruct (I4 _ _ Hx') as [H1 H2]. split; [|exact H2].
      rewrite not_elem_of_app, list_elem_of_singleton. split; [exact H1|].
      intros E. apply Hne. subst p. symmetry. eapply I8; eassumption.
    + intros t' e0 a0 m0 q Hx. destruct (Hlk _ _ Hx) as [Hx' Hne].
      destruct (I5 _ _ _ _ _ Hx') as [H1 H2]. split; [|exact H2].
      rewrite not_elem_of_app, list_elem_of_singleton. split; [exact H1|].
      intros ->. apply Hne. eapply I7; eassumption.
    + intros q Hq. apply elem_of_app in Hq as [Hq|Hq]; [apply I6, Hq|].
      apply list_elem_of_singleton in Hq. subst. exact Hlt.
    + intros t1 t2 e1 a1 m1 e2 a2 m2 q H1 H2.
      eapply I7; [apply (Hlk _ _ H1)|apply (Hlk _ _ H2)].
    + intros e0 pr0 t' e' a' m' Hx Ht'.
      eapply I8; [apply (Hel _ Hx)|apply (Hlk _ _ Ht')].
    + exact I9.
    + intros t' n Ht'. eapply I10. apply (Hlk _ _ Ht').
  - split.
    + lia.
    + intros x Hx. left. apply (Hel _ Hx).
    + intros t' e0 a0 m0 q Hx. left. apply (Hlk _ _ Hx).
    + exists [p]. split; [exact Hs|]. intros q Hq.
      apply list_elem_of_singleton in Hq. subst. right. right. exact HA.
Qed.

(** *** Moves that leave the table, the timers and the settlements as
    they are. *)
Lemma ok_same A w w' :
  pending w' = pending w ->
  timers w' = timers w ->
  (fresh w <= fresh w')%nat ->
  settlements (trace w') = settlements (trace w) ->
  reconnectAttempt (self w') = reconnectAttempt (self w) ->
  ok_step A w w'.
Proof.
  intros Hp Ht Hf Hs Ha. apply ok_shrink; try assumption.
  - rewrite Hp. reflexivity.
  - rewrite Ht. reflexivity.
Qed.

Lemma ok_use_inv A w w' : (Inv w -> ok_step A w w') -> ok_step A w w'.
Proof. intros H HI. exact (H HI HI). Qed.

Ltac trace_simpl :=
  cbn; rewrite ?settlements_snoc; cbn [settled_of]; rewrite ?app_nil_r.

Ltac same_view :=
  apply ok_same; [reflexivity|reflexivity|cbn; lia|trace_simpl; reflexivity|reflexivity].

(** ** Every method keeps the invariant *)

Section Methods.
Variable A : PromiseId -> Prop.

Lemma ok_clearReconnectTimer w : ok_step A w (clearReconnectTimer w).
Proof.
  unfold clearReconnectTimer. destruct (reconnectTimer (self w)) as [t|];
    [|apply ok_refl].
  apply ok_shrink; [reflexivity|apply delete_subseteq|cbn; lia
                   |trace_simpl; reflexivity|reflexivity].
Qed.

Lemma ok_stopHeartbeatMonitor w : ok_step A w (stopHeartbeatMonitor w).
Proof.
  unfold stopHeartbeatMonitor. destruct (heartbeatTimer (self w)) as [t|];
    [|apply ok_refl].
  apply ok_shrink; [reflexivity|apply delete_subseteq|cbn; lia
                   |trace_simpl; reflexivity|reflexivity].
Qed.

Lemma ok_startHeartbeatMonitor w : ok_step A w (startHeartbeatMonitor w).
Proof.
  unfold startHeartbeatMonitor.
  eapply ok_trans; [apply ok_stopHeartbeatMonitor|].
  set (w1 := stopHeartbeatMonitor w).
  destruct (heartbeatTimeoutMs (options (self w1))) as [ms|]; [|apply ok_refl].
  destruct (ms <=? 0); [apply ok_refl|].
  eapply (ok_arm_other _ _ _ (fresh w1) (HeartbeatCheck ms));
    [discriminate|discriminate|reflexivity|reflexivity|cbn; lia
    |trace_simpl; reflexivity|reflexivity].
Qed.

Lemma ok_reject_entries error entries : forall w,
  (forall x, x ∈ entries -> x ∈ pending w) ->
  NoDup (entries.*1) ->
  ok_step A w (reject_entries error entries w).
Proof.
  induction entries as [|[e pr] rest IH]; intros w Hin Hnd; cbn [reject_entries].
  - apply ok_refl.
  - rewrite fmap_cons in Hnd. apply NoDup_cons in Hnd as [Hhd Hnd].
    match goal with |- ok_step _ _ (reject_entries _ _ ?w1) =>
      apply (ok_trans _ w w1) end.
    + apply (ok_settle_entry _ _ _ e pr);
        [apply Hin, list_elem_of_here|reflexivity|reflexivity|reflexivity
        |trace_simpl; reflexivity|reflexivity].
    + apply IH; [|exact Hnd]. intros x Hx.
      unfold pending. cbn. apply elem_of_map_delete. split.
      * apply Hin, list_elem_of_further, Hx.
      * intros E. apply Hhd. cbn. rewrite <- E.
        apply list_elem_of_fmap. eauto.
Qed.

Lemma ok_rejectAllPending error w : ok_step A w (rejectAllPending error w).
Proof.
  intros HI. unfold rejectAllPending.
  apply ok_reject_entries; [auto|apply (J_keys _ _ _ _ _ HI)|exact HI].
Qed.

Lemma ok_scheduleReconnect reason random w :
  ok_step A w (scheduleReconnect reason random w).
Proof.
  intros HI. pose proof (J_attempt _ _ _ _ _ HI) as Hatt.
  revert HI. unfold scheduleReconnect.
  destruct (reconnectTimer (self w)); [apply ok_refl|].
  destruct (_ <? _); [same_view|].
  eapply (ok_arm_other _ _ _ (fresh w) (ReconnectFire (reconnectAttempt (self w) + 1)));
    [discriminate| |reflexivity|reflexivity|cbn; lia
    |trace_simpl; reflexivity|reflexivity].
  intros n [= <-]. lia.
Qed.

Lemma ok_handleSocketClose event random w :
  ok_step A w (handleSocketClose event random w).
Proof.
  unfold handleSocketClose.
  set (w1 := stopHeartbeatMonitor w).
  set (w2 := emit _ (transitionTo closed (on_self (set_ws None) w1))).
  set (w3 := rejectAllPending _ w2).
  apply (ok_trans _ w w1); [apply ok_stopHeartbeatMonitor|].
  apply (ok_trans _ w1 w2); [same_view|].
  apply (ok_trans _ w2 w3); [apply ok_rejectAllPending|].
  destruct (manuallyClosed (self w3)); [apply ok_refl|].
  destruct (negb _); [apply ok_refl|apply ok_scheduleReconnect].
Qed.

Lemma ok_dispatch_event payload w : ok_step A w (dispatch_event payload w).
Proof.
  unfold dispatch_event.
  destruct (get_prop "post_type" payload) as [[| | |t| |]|]; try same_view.
  repeat (destruct (String.eqb t _); [same_view|]). same_view.
Qed.

Lemma ok_handleInbound data w : ok_step A w (handleInbound data w).
Proof.
  destruct data as [text|payload]; cbn [handleInbound]; [same_view|].
  destruct (isApiResponsePacket payload).
  - destruct (get_prop "echo" payload) as [[| | |echo| |]|]; try same_view.
    cbn [pendingRequests self emit log set_trace].
    destruct (map_get echo (pendingRequests (self w))) as [pr|] eqn:E;
      [|same_view].
    apply (ok_settle_entry _ _ _ echo pr);
      [apply map_get_elem_of, E|reflexivity|reflexivity|reflexivity
      |trace_simpl; reflexivity|reflexivity].
  - destruct (isEventPacket payload).
    + match goal with |- ok_step _ _ (dispatch_event _ ?w1) =>
        apply (ok_trans _ w w1); [same_view|apply ok_dispatch_event] end.
    + same_view.
Qed.

Lemma ok_connect via w : ok_step A w (connect via w).
Proof.
  unfold connect. destruct (state (self w)); try apply ok_refl;
    (destruct (connectPromise (self w)) as [s|];
     [destruct via; [same_view|apply ok_refl]|]);
    (set (w1 := clearReconnectTimer (on_self (set_manuallyClosed false) w));
     apply (ok_trans _ w w1);
     [apply (ok_trans _ w (on_self (set_manuallyClosed false) w));
      [same_view|apply ok_clearReconnectTimer]
     |same_view]).
Qed.

Lemma ok_settle_connect s l error w : ok_step A w (settle_connect s l error w).
Proof.
  unfold settle_connect. destruct (settled l); [apply ok_refl|].
  destruct error; same_view.
Qed.

Lemma ok_on_open s l now w : ok_step A w (on_open s l now w).
Proof.
  unfold on_open.
  set (w1 := on_self (set_lastInboundAt now) (on_self (set_reconnectAttempt 0) _)).
  set (w2 := startHeartbeatMonitor w1).
  apply (ok_trans _ w w1).
  { apply ok_set_attempt; [cbn; lia|reflexivity|reflexivity|cbn; lia|reflexivity]. }
  apply (ok_trans _ w1 w2); [apply ok_startHeartbeatMonitor|].
  match goal with |- ok_step _ _ (settle_connect _ _ _ ?w3) =>
    apply (ok_trans _ w2 w3); [same_view|apply ok_settle_connect] end.
Qed.

Lemma ok_on_message now data w : ok_step A w (on_message now data w).
Proof.
  unfold on_message.
  match goal with |- ok_step _ _ (handleInbound _ ?w1) =>
    apply (ok_trans _ w w1); [same_view|apply ok_handleInbound] end.
Qed.

Lemma ok_on_error s l w : ok_step A w (on_error s l w).
Proof.
  unfold on_error. destruct (opened l); [same_view|].
  match goal with |- ok_step _ _ (settle_connect _ _ _ ?w1) =>
    apply (ok_trans _ w w1); [same_view|apply ok_settle_connect] end.
Qed.

Lemma ok_on_close s l code reason random w :
  ok_step A w (on_close s l code reason random w).
Proof.
  unfold on_close.
  set (w1 := handleSocketClose _ random w).
  set (w2 := if opened l then w1 else settle_connect s l _ w1).
  apply (ok_trans _ w w1); [apply ok_handleSocketClose|].
  apply (ok_trans _ w1 w2).
  { subst w2. destruct (opened l); [apply ok_refl|apply ok_settle_connect]. }
  destruct (sockets w2 !! s); [same_view|apply ok_refl].
Qed.

Lemma ok_disconnect_resume w : ok_step A w (disconnect_resume w).
Proof.
  unfold disconnect_resume.
  set (w1 := transitionTo closed w).
  set (w2 := rejectAllPending Disconnected w1).
  apply (ok_trans _ w w1); [same_view|].
  apply (ok_trans _ w1 w2); [apply ok_rejectAllPending|same_view].
Qed.

Lemma ok_disconnect code reason readyState close_throws w :
  ok_step A w (disconnect code reason readyState close_throws w).
Proof.
  unfold disconnect.
  set (w0 := on_self (set_manuallyClosed true) w).
  set (w1 := clearReconnectTimer w0).
  set (w2 := stopHeartbeatMonitor w1).
  set (w3 := transitionTo closing w2).
  apply (ok_trans _ w w0); [same_view|].
  apply (ok_trans _ w0 w1); [apply ok_clearReconnectTimer|].
  apply (ok_trans _ w1 w2); [apply ok_stopHeartbeatMonitor|].
  apply (ok_trans _ w2 w3); [same_view|].
  destruct (ws (self w3)) as [s|].
  - destruct readyState;
      try (destruct close_throws; same_view).
    match goal with |- ok_step _ _ (log _ (rejectAllPending _ ?w4)) =>
      apply (ok_trans _ w3 w4); [same_view|];
      apply (ok_trans _ w4 (rejectAllPending Disconnected w4));
      [apply ok_rejectAllPending|same_view] end.
  - match goal with |- ok_step _ _ (log _ (rejectAllPending _ ?w4)) =>
      apply (ok_trans _ w3 w4); [same_view|];
      apply (ok_trans _ w4 (rejectAllPending Disconnected w4));
      [apply ok_rejectAllPending|same_view] end.
Qed.

Lemma ok_connect_catch random w : ok_step A w (connect_catch random w).
Proof.
  unfold connect_catch.
  match goal with |- ok_step _ _ (scheduleReconnect _ _ ?w1) =>
    apply (ok_trans _ w w1); [same_view|apply ok_scheduleReconnect] end.
Qed.

Lemma ok_callAction action params timeoutMs echo readyState now send_throws w :
  ok_step A w
    (snd (callAction action params timeoutMs echo readyState now send_throws w)).
Proof.
  unfold callAction.
  destruct (ws (self w)) as [s|]; [|apply ok_refl].
  destruct (state (self w)); try apply ok_refl.
  destruct readyState; try apply ok_refl.
  set (ms := clampMs _ _).
  set (gen := match echo with Some e => (e, w) | None => generateEcho now w end).
  assert (Hgen : ok_step A w (snd gen)).
  { subst gen. destruct echo; [apply ok_refl|same_view]. }
  destruct gen as [e w0]. cbn [snd] in Hgen.
  set (w1 := emit _ w0).
  set (p := fresh w1).
  set (w2 := set_pending _ (setTimeout _ ms (set_fresh (S p) w1))).
  assert (H2 : ok_step A w w2).
  { apply (ok_trans _ w w0); [exact Hgen|].
    apply (ok_trans _ w0 w1); [same_view|].
    apply (ok_new_request _ _ _ e action ms p (S p));
      [cbn; lia|cbn; lia|reflexivity|reflexivity|trace_simpl; reflexivity
      |reflexivity]. }
  destruct send_throws; cbn [snd].
  - assert (Hget : map_get e (pendingRequests (self w2))
                   = Some (mkPending action ms p (S p)))
      by apply map_get_set_eq.
    rewrite Hget. apply (ok_trans _ w w2); [exact H2|].
    apply (ok_settle_entry _ _ _ e (mkPending action ms p (S p)));
      [apply map_get_elem_of, Hget|reflexivity|reflexivity|reflexivity
      |trace_simpl; reflexivity|reflexivity].
  - apply (ok_trans _ w w2); [exact H2|same_view].
Qed.

End Methods.

(** The promise of the request timer that an event fires, if it fires
    one. *)
Definition fired (ev : Event) (w : World) (p : PromiseId) : Prop :=
  exists t now ct e a m,
    ev = TimerFires t now ct /\ timers w !! t = Some (RequestTimeout e a m p).

Lemma ok_run_task t task now ct w :
  timers w !! t = Some task ->
  ok_step (fired (TimerFires t now ct) w) w (run_task t task now ct w).
Proof.
  intros Ht. destruct task as [e a m p|n|ms]; cbn [run_task].
  - apply (ok_settle_timer _ _ _ t e a m p);
      [unfold fired; eauto 10|exact Ht|reflexivity|reflexivity|reflexivity
      |trace_simpl; reflexivity|reflexivity].
  - apply ok_use_inv. intros HI.
    pose proof (J_reconnect _ _ _ _ _ HI _ _ Ht) as Hn.
    match goal with |- ok_step _ _ (connect _ ?w1) =>
      apply (ok_trans _ w w1); [|apply ok_connect] end.
    apply ok_set_attempt;
      [cbn; lia|reflexivity|apply delete_subseteq|cbn; lia|reflexivity].
  - destruct (_ <=? _); [apply ok_refl|].
    destruct (ws (self _)); [destruct ct|]; same_view.
Qed.

Lemma ok_step_event ev w : ok_step (fired ev w) w (step ev w).
Proof.
  destruct ev; cbn [step].
  - apply ok_connect.
  - apply ok_disconnect.
  - apply ok_callAction.
  - destruct (sockets w !! s); [apply ok_on_open|apply ok_refl].
  - destruct (sockets w !! s); [apply ok_on_message|apply ok_refl].
  - destruct (sockets w !! s); [apply ok_on_error|apply ok_refl].
  - destruct (sockets w !! s); [apply ok_on_close|apply ok_refl].
  - destruct (timers w !! t) eqn:Ht; [apply ok_run_task, Ht|apply ok_refl].
  - destruct (catchJobs w) as [|n]; [apply ok_refl|].
    apply (ok_trans _ w (set_catchJobs n w)); [same_view|apply ok_connect_catch].
  - destruct (resumeJobs w) as [|n]; [apply ok_refl|].
    apply (ok_trans _ w (set_resumeJobs n w)); [same_view|apply ok_disconnect_resume].
Qed.

Lemma Inv_init o : Inv (init o).
Proof.
  split; cbn; try apply NoDup_nil_2; try (intros; exfalso; eapply not_elem_of_nil; eassumption);
    try (intros; rewrite lookup_empty in *; discriminate); try lia.
  all: intros; match goal with H : _ ∈ [] |- _ => inversion H end.
Qed.

Lemma Inv_step ev w : Inv w -> Inv (step ev w).
Proof. intros H. apply (ok_step_event ev w H). Qed.

Lemma Inv_run evs : forall w, Inv w -> Inv (run evs w).
Proof.
  induction evs as [|ev evs IH]; intros w H; [exact H|].
  cbn [run fold_left]. apply IH, Inv_step, H.
Qed.

Lemma reachable_Inv w : reachable w -> Inv w.
Proof. intros (o & evs & ->). apply Inv_run, Inv_init. Qed.

(** ** Runs *)

Lemma evolves_weaken (A B : PromiseId -> Prop) w w' :
  (forall p, A p -> B p) -> evolves A w w' -> evolves B w w'.
Proof.
  intros HAB [F E T (d & S & D)]. split; try assumption.
  exists d. split; [exact S|]. intros q Hq.
  destruct (D q Hq) as [H|[H|H]]; auto.
Qed.

Lemma run_app evs1 evs2 w : run (evs1 ++ evs2) w = run evs2 (run evs1 w).
Proof. apply fold_left_app. Qed.

Lemma run_evolves evs : forall w,
  Inv w -> evolves (fun _ => True) w (run evs w).
Proof.
  induction evs as [|ev evs IH]; intros w HI; [apply evolves_refl|].
  cbn [run fold_left]. destruct (ok_step_event ev w HI) as [HI' E].
  eapply evolves_trans; [|apply IH, HI'].
  eapply evolves_weaken; [|exact E]. auto.
Qed.

(** A settlement stays in the trace. *)
Lemma settled_stays evs w p :
  Inv w -> p ∈ settlements (trace w) -> p ∈ settlements (trace (run evs w)).
Proof.
  intros HI Hp. destruct (run_evolves evs w HI) as [_ _ _ (d & -> & _)].
  apply elem_of_app. left. exact Hp.
Qed.

(** [settles p e]: the effect [e] is a call of [resolve] or [reject] of
    the request promise [p]. *)
Definition settles (p : PromiseId) (e : Effect) : bool :=
  match e with
  | Resolve q _ | Reject q _ => Nat.eqb p q
  | _ => false
  end.

Lemma occurrences_settles p tr :
  occurrences (settles p) tr = length (filter (fun q => q = p) (settlements tr)).
Proof.
  induction tr as [|e tr IH]; [reflexivity|].
  cbn [occurrences]. rewrite IH.
  change (settlements (e :: tr)) with (settled_of e ++ settlements tr).
  rewrite filter_app, length_app. f_equal.
  destruct e; try reflexivity; cbn [settles settled_of];
    (destruct (Nat.eqb_spec p p0) as [->|Hne];
     [rewrite filter_cons_True by reflexivity; reflexivity
     |rewrite filter_cons_False by congruence; reflexivity]).
Qed.

Lemma filter_eq_absent (p : nat) l :
  p ∉ l -> filter (fun q => q = p) l = [].
Proof.
  induction l as [|x l IH]; intros Hp; [reflexivity|].
  apply not_elem_of_cons in Hp as [Hne Hp].
  rewrite filter_cons_False by congruence. apply IH, Hp.
Qed.

Lemma filter_eq_NoDup (p : nat) l :
  NoDup l -> p ∈ l -> length (filter (fun q => q = p) l) = 1%nat.
Proof.
  induction l as [|x l IH]; intros Hnd Hin; [inversion Hin|].
  apply NoDup_cons in Hnd as [Hx Hnd].
  destruct (decide (x = p)) as [->|Hne].
  - rewrite filter_cons_True by reflexivity.
    rewrite filter_eq_absent by exact Hx. reflexivity.
  - rewrite filter_cons_False by exact Hne. apply IH; [exact Hnd|].
    apply elem_of_cons in Hin as [->|Hin]; [contradiction|exact Hin].
Qed.

(** In a world that keeps the invariant, a promise that has been settled
    has been settled by exactly one call. *)
Lemma settled_exactly_once w p :
  Inv w -> p ∈ settlements (trace w) -> occurrences (settles p) (trace w) = 1%nat.
Proof.
  intros HI Hp. rewrite occurrences_settles.
  apply filter_eq_NoDup; [apply HI|exact Hp].
Qed.

Lemma settled_once_forever evs w p :
  Inv w -> p ∈ settlements (trace w) ->
  occurrences (settles p) (trace (run evs w)) = 1%nat.
Proof.
  intros HI Hp. apply settled_exactly_once; [apply Inv_run, HI|].
  apply settled_stays; assumption.
Qed.

(** ** Responses (C1) *)

Lemma handleInbound_match w payload echo pr :
  isApiResponsePacket payload = true ->
  get_prop "echo" payload = Some (JString echo) ->
  map_get echo (pending w) = Some pr ->
  handleInbound (Parsed payload) w
  = log (Resolve (promise pr) payload)
      (set_pending (map_delete echo (pending w))
         (clearTimeout (timer pr)
            (emit (ev_response payload)
               (emit (ev_raw dir_in (RawJson payload)) w)))).
Proof.
  intros Hs He Hp. cbn [handleInbound]. rewrite Hs, He.
  cbn [pendingRequests self emit log set_trace]. unfold pending in Hp.
  rewrite Hp. reflexivity.
Qed.

Lemma handleInbound_no_match w payload echo :
  isApiResponsePacket payload = true ->
  get_prop "echo" payload = Some (JString echo) ->
  map_get echo (pending w) = None ->
  handleInbound (Parsed payload) w
  = emit (ev_response payload) (emit (ev_raw dir_in (RawJson payload)) w).
Proof.
  intros Hs He Hp. cbn [handleInbound]. rewrite Hs, He.
  cbn [pendingRequests self emit log set_trace]. unfold pending in Hp.
  rewrite Hp. reflexivity.
Qed.

(** C1: when an inbound frame parses as JSON, carries a string [status]
    and a numeric [retcode], and its [echo] is the token of a request in
    the pending table, then handling it emits the raw and the response
    notification, clears the expiry timer of that request and resolves
    its promise with the envelope, by exactly that one call; the promise
    was not settled before and is never settled again, whatever happens
    afterwards, and the table has no entry under the token any more. *)
Theorem response_resolves_pending_request
  (w : World) (payload : json) (echo : string) (pr : PendingRequest)
  (Hreach : reachable w)
  (Hshape : isApiResponsePacket payload = true)
  (Hecho : get_prop "echo" payload = Some (JString echo))
  (Hpend : map_get echo (pending w) = Some pr) :
  let w' := handleInbound (Parsed payload) w in
  trace w' = trace w ++ [ Emit (ev_raw dir_in (RawJson payload));
                          Emit (ev_response payload);
                          ClearTimeout (timer pr);
                          Resolve (promise pr) payload ]
  /\ occurrences (settles (promise pr)) (trace w) = 0%nat
  /\ timers w' !! timer pr = None
  /\ map_get echo (pending w') = None
  /\ forall evs, occurrences (settles (promise pr)) (trace (run evs w')) = 1%nat.
Proof.
  intros w'. pose proof (reachable_Inv w Hreach) as HI.
  pose proof (ok_handleInbound (fun _ => False) (Parsed payload) w HI) as [HI' _].
  fold w' in HI'.
  assert (Hw' : w' = _) by (apply (handleInbound_match w payload echo pr); assumption).
  assert (Htr : trace w' = trace w ++ [ Emit (ev_raw dir_in (RawJson payload));
                          Emit (ev_response payload);
                          ClearTimeout (timer pr);
                          Resolve (promise pr) payload ]).
  { rewrite Hw'. cbn. rewrite <- !app_assoc. reflexivity. }
  split; [exact Htr|]. split; [|split; [|split]].
  - rewrite occurrences_settles, filter_eq_absent; [reflexivity|].
    apply (J_entry _ _ _ _ _ HI echo pr), map_get_elem_of, Hpend.
  - rewrite Hw'. cbn. apply lookup_delete_eq.
  - rewrite Hw'. unfold pending. cbn. apply map_get_delete_eq.
  - intros evs. apply settled_once_forever; [exact HI'|].
    rewrite Htr, settlements_app. apply elem_of_app. right. cbn.
    apply list_elem_of_here.
Qed.

(** A client used to instantiate the theorems: it connects, its socket
    opens at time 10, and one action is called at time 11. *)
Definition demo_options : Options :=
  mkOptions "ws://127.0.0.1:3001" (Some "secret") true 1000 3 30000 5000 None.

Definition demo_open : list Event := [CallConnect; SocketOpen 0 10].

Definition demo_call : list Event :=
  demo_open ++ [CallAction "send_group_msg" None None None OPEN 11 false].

Definition demo_response : json :=
  JObject [("status", JString "ok"); ("retcode", JNumber 0%Q);
           ("echo", JString "ob_11_1")].

Lemma response_resolves_pending_request_witness :
  let w := run demo_call (init demo_options) in
  let pr := mkPending "send_group_msg" 5000 1 2 in
  let w' := handleInbound (Parsed demo_response) w in
  trace w' = trace w ++ [ Emit (ev_raw dir_in (RawJson demo_response));
                          Emit (ev_response demo_response);
                          ClearTimeout (timer pr);
                          Resolve (promise pr) demo_response ]
  /\ occurrences (settles (promise pr)) (trace w) = 0%nat
  /\ timers w' !! timer pr = None
  /\ map_get "ob_11_1" (pending w') = None
  /\ forall evs, occurrences (settles (promise pr)) (trace (run evs w')) = 1%nat.
Proof.
  intros w pr.
  apply (response_resolves_pending_request w demo_response "ob_11_1" pr).
  - exists demo_options, demo_call. reflexivity.
  - reflexivity.
  - reflexivity.
  - vm_compute. reflexivity.
Defined.

(** ** Timeouts (C2) *)

(** C2: when the expiry timer of a pending request fires, the entry
    under its token is removed from the table, exactly one timeout event
    carrying the action, the token and the timeout is emitted, and the
    promise of the call is rejected with the timeout error, by exactly
    that one call; a response that arrives afterwards with the same echo
    only raises the raw and response notifications, and whatever happens
    later the promise is not settled a second time. *)
Theorem request_timeout_rejects_once
  (w : World) (t : TimerId) (echo action : string) (ms : Z) (p : PromiseId)
  (now : Z) (close_throws : bool)
  (Hreach : reachable w)
  (Harmed : timers w !! t = Some (RequestTimeout echo action ms p)) :
  let w' := step (TimerFires t now close_throws) w in
  trace w' = trace w ++ [ Emit (ev_timeout (mkTimeoutEvent action echo ms));
                          Reject p (ActionTimeout action ms) ]
  /\ occurrences (settles p) (trace w) = 0%nat
  /\ map_get echo (pending w') = None
  /\ timers w' !! t = None
  /\ (forall payload,
        isApiResponsePacket payload = true ->
        get_prop "echo" payload = Some (JString echo) ->
        trace (handleInbound (Parsed payload) w')
        = trace w' ++ [ Emit (ev_raw dir_in (RawJson payload));
                        Emit (ev_response payload) ])
  /\ forall evs, occurrences (settles p) (trace (run evs w')) = 1%nat.
Proof.
  intros w'. pose proof (reachable_Inv w Hreach) as HI.
  pose proof (Inv_step (TimerFires t now close_throws) w HI) as HI'.
  fold w' in HI'.
  assert (Hw' : w' = run_task t (RequestTimeout echo action ms p) now close_throws w)
    by (subst w'; cbn [step]; rewrite Harmed; reflexivity).
  assert (Htr : trace w' = trace w ++
                  [ Emit (ev_timeout (mkTimeoutEvent action echo ms));
                    Reject p (ActionTimeout action ms) ]).
  { rewrite Hw'. cbn. rewrite <- !app_assoc. reflexivity. }
  assert (Hgone : map_get echo (pending w') = None).
  { rewrite Hw'. unfold pending. cbn. apply map_get_delete_eq. }
  split; [exact Htr|]. split; [|split; [exact Hgone|split; [|split]]].
  - rewrite occurrences_settles, filter_eq_absent; [reflexivity|].
    apply (J_timer _ _ _ _ _ HI _ _ _ _ _ Harmed).
  - rewrite Hw'. cbn. apply lookup_delete_eq.
  - intros payload Hs He.
    rewrite (handleInbound_no_match w' payload echo Hs He Hgone).
    cbn. rewrite <- !app_assoc. reflexivity.
  - intros evs. apply settled_once_forever; [exact HI'|].
    rewrite Htr, settlements_app. apply elem_of_app. right. cbn.
    apply list_elem_of_here.
Qed.

Lemma request_timeout_rejects_once_witness :
  let w := run demo_call (init demo_options) in
  let w' := step (TimerFires 2 5011 false) w in
  trace w' = trace w ++ [ Emit (ev_timeout
                                  (mkTimeoutEvent "send_group_msg" "ob_11_1" 5000));
                          Reject 1 (ActionTimeout "send_group_msg" 5000) ]
  /\ occurrences (settles 1) (trace w) = 0%nat
  /\ map_get "ob_11_1" (pending w') = None
  /\ timers w' !! 2%nat = None
  /\ (forall payload,
        isApiResponsePacket payload = true ->
        get_prop "echo" payload = Some (JString "ob_11_1") ->
        trace (handleInbound (Parsed payload) w')
        = trace w' ++ [ Emit (ev_raw dir_in (RawJson payload));
                        Emit (ev_response payload) ])
  /\ forall evs, occurrences (settles 1) (trace (run evs w')) = 1%nat.
Proof.
  intros w.
  apply (request_timeout_rejects_once w 2 "ob_11_1" "send_group_msg" 5000 1
           5011 false).
  - exists demo_options, demo_call. reflexivity.
  - vm_compute. reflexivity.
Defined.

(** ** Calls (C3) *)

(** The guard of [callAction]: the socket it will write to, when there is
    one, the state is [open] and the [readyState] of the socket is [OPEN]. *)
Definition connected (w : World) (readyState : ReadyState) : option SockId :=
  match ws (self w), state (self w), readyState with
  | Some s, open, OPEN => Some s
  | _, _, _ => None
  end.

Lemma clampMs_default (ms : Z) : clampMs (of_int ms) ms = ms.
Proof.
  unfold clampMs, of_int. destruct (Qle_bool 0 (inject_Z ms)); [|reflexivity].
  apply Qfloor_Z.
Qed.

(** C3, as the claim states it, fails in the state [open] when the socket
    has started to close: the call is refused as not connected, nothing
    is registered and nothing is sent. *)
Lemma callAction_refused_in_open_state :
  let w := run demo_open (init demo_options) in
  state (self w) = open
  /\ ws (self w) = Some 0%nat
  /\ callAction "send_group_msg" None None None CLOSING 11 false w
     = (Thrown NotConnected, w).
Proof. vm_compute. auto. Qed.

(** C3, amended: a call of [callAction] made while no socket exists, the
    state is not [open] or the [readyState] of the socket is not [OPEN]
    fails at once with the not-connected error and leaves the client as
    it was, so no pending entry is created.  Otherwise, when the caller
    gives no echo and the socket accepts the write, the call takes the
    next token of the generator, arms an expiry timer (with the
    configured request timeout when no timeout is given), registers the
    pending request under the token, and sends exactly one frame made of
    the action, the params and the token. *)
Theorem callAction_connected_or_refused
  (w : World) (action : string) (params : option json)
  (timeoutMs : option number) (echo : option string)
  (readyState : ReadyState) (now : Z) (send_throws : bool) :
  (connected w readyState = None ->
   callAction action params timeoutMs echo readyState now send_throws w
   = (Thrown NotConnected, w))
  /\ (forall s, connected w readyState = Some s ->
      let token := echo_token now (echoSeq (self w) + 1) in
      let ms := clampMs (default (of_int (requestTimeoutMs (options (self w))))
                           timeoutMs)
                  (requestTimeoutMs (options (self w))) in
      let p := fresh w in
      let frame := mkRequest action params token in
      let result := callAction action params timeoutMs None readyState now false w in
      result.1 = Returned p
      /\ echoSeq (self result.2) = echoSeq (self w) + 1
      /\ pending result.2 = map_set token (mkPending action ms p (S p)) (pending w)
      /\ map_get token (pending result.2) = Some (mkPending action ms p (S p))
      /\ timers result.2 !! S p = Some (RequestTimeout token action ms p)
      /\ trace result.2 = trace w ++ [ Emit (ev_raw dir_out (RawRequest frame));
                                      SetTimeout (S p) ms;
                                      WsSend s frame ]
      /\ (timeoutMs = None -> ms = requestTimeoutMs (options (self w)))).
Proof.
  unfold connected, callAction. split.
  - destruct (ws (self w)); [|reflexivity].
    destruct (state (self w)); try reflexivity.
    destruct readyState; try reflexivity. discriminate.
  - intros s.
    destruct (ws (self w)) as [s'|]; [|discriminate].
    destruct (state (self w)); try discriminate.
    destruct readyState; try discriminate. intros [= ->].
    cbn. repeat split.
    + apply map_get_set_eq.
    + apply lookup_insert_eq.
    + rewrite <- !app_assoc. reflexivity.
    + intros ->. apply clampMs_default.
Qed.

Lemma callAction_connected_or_refused_witness :
  callAction "send_group_msg" None None None OPEN 11 false (init demo_options)
  = (Thrown NotConnected, init demo_options)
  /\ (let w := run demo_open (init demo_options) in
      let frame := mkRequest "send_group_msg" None "ob_11_1" in
      let result := callAction "send_group_msg" None None None OPEN 11 false w in
      result.1 = Returned 1
      /\ echoSeq (self result.2) = 1
      /\ pending result.2 = [("ob_11_1", mkPending "send_group_msg" 5000 1 2)]
      /\ map_get "ob_11_1" (pending result.2)
         = Some (mkPending "send_group_msg" 5000 1 2)
      /\ timers result.2 !! 2%nat
         = Some (RequestTimeout "ob_11_1" "send_group_msg" 5000 1)
      /\ trace result.2 = trace w ++ [ Emit (ev_raw dir_out (RawRequest frame));
                                      SetTimeout 2 5000;
                                      WsSend 0 frame ]
      /\ ((None : option number) = None -> 5000 = 5000)).
Proof.
  split.
  - apply (callAction_connected_or_refused (init demo_options)
             "send_group_msg" None None None OPEN 11 false).
    reflexivity.
  - apply (callAction_connected_or_refused (run demo_open (init demo_options))
             "send_group_msg" None None None OPEN 11 false).
    reflexivity.
Defined.

(** ** Reconnection (C5, C6) *)

Lemma jitter_bounds (random : Q) :
  (0 <= random)%Q -> (random < 1)%Q -> 0 <= jitter random <= 299.
Proof.
  intros H0 H1. unfold jitter. split.
  - rewrite <- (Qfloor_Z 0). apply Qfloor_resp_le.
    change (inject_Z 0) with (0 * 300)%Q. apply Qmult_le_compat_r; [exact H0|].
    discriminate.
  - assert (H : (inject_Z (Qfloor (random * 300)) < inject_Z 300)%Q).
    { eapply Qle_lt_trans; [apply Qfloor_le|].
      change (inject_Z 300) with (1 * 300)%Q.
      apply Qmult_lt_compat_r; [reflexivity|exact H1]. }
    rewrite <- Zlt_Qlt in H. lia.
Qed.

(** The rejections made by [rejectAllPending], in the order of the map. *)
Definition rejections (error : OneBotClientError)
           (entries : list (string * PendingRequest)) : list Effect :=
  flat_map (fun x => [ClearTimeout (timer x.2); Reject (promise x.2) error]) entries.

Lemma reject_entries_self error entries : forall w,
  self (reject_entries error entries w)
  = set_pendingRequests (pending (reject_entries error entries w)) (self w).
Proof.
  induction entries as [|[e pr] rest IH]; intros w; cbn [reject_entries].
  - destruct w as [[]]; reflexivity.
  - rewrite IH. destruct w as [[]]; reflexivity.
Qed.

Lemma reject_entries_trace error entries : forall w,
  trace (reject_entries error entries w) = trace w ++ rejections error entries.
Proof.
  induction entries as [|[e pr] rest IH]; intros w; cbn [reject_entries].
  - cbn. rewrite app_nil_r. reflexivity.
  - rewrite IH. cbn. rewrite <- !app_assoc. reflexivity.
Qed.

Lemma reject_entries_empties error entries : forall w,
  (forall x, x ∈ pending w -> x.1 ∈ entries.*1) ->
  pending (reject_entries error entries w) = [].
Proof.
  induction entries as [|[e pr] rest IH]; intros w Hin; cbn [reject_entries].
  - destruct (pending w) as [|x l]; [reflexivity|].
    exfalso. eapply not_elem_of_nil, (Hin x). apply list_elem_of_here.
  - apply IH. intros x Hx. unfold pending in Hx. cbn in Hx.
    apply elem_of_map_delete in Hx as [Hx Hne].
    specialize (Hin x Hx). rewrite fmap_cons in Hin.
    apply elem_of_cons in Hin as [Hin|Hin]; [contradiction|exact Hin].
Qed.

Lemma reject_entries_frame error entries : forall w,
  sockets (reject_entries error entries w) = sockets w
  /\ fresh (reject_entries error entries w) = fresh w
  /\ catchJobs (reject_entries error entries w) = catchJobs w
  /\ resumeJobs (reject_entries error entries w) = resumeJobs w.
Proof.
  induction entries as [|[e pr] rest IH]; intros w; cbn [reject_entries].
  - auto.
  - destruct (IH (set_pending (map_delete e (pendingRequests (self
               (log (Reject (promise pr) error) (clearTimeout (timer pr) w)))))
               (log (Reject (promise pr) error) (clearTimeout (timer pr) w))))
      as (-> & -> & -> & ->).
    auto.
Qed.

Lemma rejectAllPending_self error w :
  self (rejectAllPending error w) = set_pendingRequests [] (self w).
Proof.
  unfold rejectAllPending. rewrite reject_entries_self.
  rewrite reject_entries_empties; [reflexivity|].
  intros x Hx. apply list_elem_of_fmap. eauto.
Qed.

Lemma rejectAllPending_trace error w :
  trace (rejectAllPending error w) = trace w ++ rejections error (pending w).
Proof. apply reject_entries_trace. Qed.

Lemma scheduleReconnect_backoff w reason random :
  reconnectTimer (self w) = None ->
  reconnectAttempt (self w) + 1 <= reconnectMaxAttempts (options (self w)) ->
  let n := reconnectAttempt (self w) + 1 in
  let o := options (self w) in
  let delay :=
    Z.min (reconnectMaxDelayMs o) (reconnectBaseDelayMs o * 2 ^ (n - 1))
    + jitter random in
  let w' := scheduleReconnect reason random w in
  trace w' = trace w ++ [ Emit (ev_reconnecting (mkReconnectEvent n delay reason));
                          SetTimeout (fresh w) delay ]
  /\ timers w' = <[fresh w := ReconnectFire n]> (timers w)
  /\ reconnectTimer (self w') = Some (fresh w)
  /\ state (self w') = reconnecting
  /\ reconnectAttempt (self w') = reconnectAttempt (self w).
Proof.
  intros Ht Hle. unfold scheduleReconnect. rewrite Ht.
  destruct (Z.ltb_spec (reconnectMaxAttempts (options (self w)))
              (reconnectAttempt (self w) + 1)); [lia|].
  cbn. rewrite <- !app_assoc. auto.
Qed.

Lemma scheduleReconnect_exhausted w reason random :
  reconnectTimer (self w) = None ->
  reconnectMaxAttempts (options (self w)) < reconnectAttempt (self w) + 1 ->
  scheduleReconnect reason random w
  = emit (ev_error (ReconnectExhausted (reconnectMaxAttempts (options (self w)))
                      reason)) w.
Proof.
  intros Ht Hlt. unfold scheduleReconnect. rewrite Ht.
  destruct (Z.ltb_spec (reconnectMaxAttempts (options (self w)))
              (reconnectAttempt (self w) + 1)); [reflexivity|lia].
Qed.

(** The terminal error of [scheduleReconnect]. *)
Definition is_exhausted (e : Effect) : bool :=
  match e with
  | Emit (ev_error (ReconnectExhausted _ _)) => true
  | _ => false
  end.

(** A reconnect timer is armed by the effect. *)
Definition arms_timer (e : Effect) : bool :=
  match e with
  | SetTimeout _ _ => true
  | _ => false
  end.


(** *** Who writes the attempt counter *)

Ltac break_matches :=
  repeat match goal with
         | |- context [match ?x with _ => _ end] => destruct x
         end.

Lemma attempt_log e w :
  reconnectAttempt (self (log e w)) = reconnectAttempt (self w).
Proof. reflexivity. Qed.

Lemma attempt_emit ev w :
  reconnectAttempt (self (emit ev w)) = reconnectAttempt (self w).
Proof. reflexivity. Qed.

Lemma attempt_transitionTo st w :
  reconnectAttempt (self (transitionTo st w)) = reconnectAttempt (self w).
Proof. reflexivity. Qed.

Lemma attempt_set_sockets sk w :
  reconnectAttempt (self (set_sockets sk w)) = reconnectAttempt (self w).
Proof. reflexivity. Qed.

Lemma attempt_set_resumeJobs n w :
  reconnectAttempt (self (set_resumeJobs n w)) = reconnectAttempt (self w).
Proof. reflexivity. Qed.

Lemma attempt_set_catchJobs n w :
  reconnectAttempt (self (set_catchJobs n w)) = reconnectAttempt (self w).
Proof. reflexivity. Qed.

Lemma attempt_set_fresh n w :
  reconnectAttempt (self (set_fresh n w)) = reconnectAttempt (self w).
Proof. reflexivity. Qed.

Lemma attempt_set_timers tm w :
  reconnectAttempt (self (set_timers tm w)) = reconnectAttempt (self w).
Proof. reflexivity. Qed.

Lemma attempt_set_pending m w :
  reconnectAttempt (self (set_pending m w)) = reconnectAttempt (self w).
Proof. reflexivity. Qed.

Lemma attempt_setTimeout task ms w :
  reconnectAttempt (self (setTimeout task ms w)) = reconnectAttempt (self w).
Proof. reflexivity. Qed.

Lemma attempt_setInterval task ms w :
  reconnectAttempt (self (setInterval task ms w)) = reconnectAttempt (self w).
Proof. reflexivity. Qed.

Lemma attempt_clearTimeout t w :
  reconnectAttempt (self (clearTimeout t w)) = reconnectAttempt (self w).
Proof. reflexivity. Qed.

Lemma attempt_clearInterval t w :
  reconnectAttempt (self (clearInterval t w)) = reconnectAttempt (self w).
Proof. reflexivity. Qed.

Lemma attempt_set_trace tr w :
  reconnectAttempt (self (set_trace tr w)) = reconnectAttempt (self w).
Proof. reflexivity. Qed.

Lemma attempt_set_ws v w :
  reconnectAttempt (self (on_self (set_ws v) w)) = reconnectAttempt (self w).
Proof. reflexivity. Qed.

Lemma attempt_set_state v w :
  reconnectAttempt (self (on_self (set_state v) w)) = reconnectAttempt (self w).
Proof. reflexivity. Qed.

Lemma attempt_set_manuallyClosed v w :
  reconnectAttempt (self (on_self (set_manuallyClosed v) w)) = reconnectAttempt (self w).
Proof. reflexivity. Qed.

Lemma attempt_set_connectPromise v w :
  reconnectAttempt (self (on_self (set_connectPromise v) w)) = reconnectAttempt (self w).
Proof. reflexivity. Qed.

Lemma attempt_set_reconnectTimer v w :
  reconnectAttempt (self (on_self (set_reconnectTimer v) w)) = reconnectAttempt (self w).
Proof. reflexivity. Qed.

Lemma attempt_set_lastInboundAt v w :
  reconnectAttempt (self (on_self (set_lastInboundAt v) w)) = reconnectAttempt (self w).
Proof. reflexivity. Qed.

Lemma attempt_set_heartbeatTimer v w :
  reconnectAttempt (self (on_self (set_heartbeatTimer v) w)) = reconnectAttempt (self w).
Proof. reflexivity. Qed.

Lemma attempt_set_echoSeq v w :
  reconnectAttempt (self (on_self (set_echoSeq v) w)) = reconnectAttempt (self w).
Proof. reflexivity. Qed.

Lemma attempt_set_pendingRequests v w :
  reconnectAttempt (self (on_self (set_pendingRequests v) w)) = reconnectAttempt (self w).
Proof. reflexivity. Qed.

Create Rewrite HintDb attempt.
Hint Rewrite attempt_log
  attempt_emit
  attempt_transitionTo
  attempt_set_sockets
  attempt_set_resumeJobs
  attempt_set_catchJobs
  attempt_set_fresh
  attempt_set_timers
  attempt_set_pending
  attempt_setTimeout
  attempt_setInterval
  attempt_clearTimeout
  attempt_clearInterval
  attempt_set_trace
  attempt_set_ws
  attempt_set_state
  attempt_set_manuallyClosed
  attempt_set_connectPromise
  attempt_set_reconnectTimer
  attempt_set_lastInboundAt
  attempt_set_heartbeatTimer
  attempt_set_echoSeq
  attempt_set_pendingRequests : attempt.

Lemma attempt_clearReconnectTimer w :
  reconnectAttempt (self (clearReconnectTimer w)) = reconnectAttempt (self w).
Proof. unfold clearReconnectTimer. break_matches; reflexivity. Qed.

Lemma attempt_stopHeartbeatMonitor w :
  reconnectAttempt (self (stopHeartbeatMonitor w)) = reconnectAttempt (self w).
Proof. unfold stopHeartbeatMonitor. break_matches; reflexivity. Qed.

Lemma attempt_startHeartbeatMonitor w :
  reconnectAttempt (self (startHeartbeatMonitor w)) = reconnectAttempt (self w).
Proof.
  unfold startHeartbeatMonitor. break_matches; autorewrite with attempt;
    apply attempt_stopHeartbeatMonitor.
Qed.

Lemma attempt_rejectAllPending error w :
  reconnectAttempt (self (rejectAllPending error w)) = reconnectAttempt (self w).
Proof. rewrite rejectAllPending_self. reflexivity. Qed.

Lemma attempt_scheduleReconnect reason random w :
  reconnectAttempt (self (scheduleReconnect reason random w))
  = reconnectAttempt (self w).
Proof. unfold scheduleReconnect. break_matches; reflexivity. Qed.

Lemma attempt_handleSocketClose event random w :
  reconnectAttempt (self (handleSocketClose event random w))
  = reconnectAttempt (self w).
Proof.
  unfold handleSocketClose. break_matches;
    rewrite ?attempt_scheduleReconnect, attempt_rejectAllPending;
    autorewrite with attempt; apply attempt_stopHeartbeatMonitor.
Qed.

Lemma attempt_handleInbound data w :
  reconnectAttempt (self (handleInbound data w)) = reconnectAttempt (self w).
Proof.
  unfold handleInbound, dispatch_event. break_matches; reflexivity.
Qed.

Lemma attempt_connect via w :
  reconnectAttempt (self (connect via w)) = reconnectAttempt (self w).
Proof.
  unfold connect. break_matches; autorewrite with attempt;
    rewrite ?attempt_clearReconnectTimer; reflexivity.
Qed.

Lemma attempt_settle_connect s l error w :
  reconnectAttempt (self (settle_connect s l error w)) = reconnectAttempt (self w).
Proof. unfold settle_connect. break_matches; reflexivity. Qed.

Lemma attempt_on_open s l now w : reconnectAttempt (self (on_open s l now w)) = 0.
Proof.
  unfold on_open. rewrite attempt_settle_connect. autorewrite with attempt.
  rewrite attempt_startHeartbeatMonitor. reflexivity.
Qed.

Lemma attempt_on_close s l code reason random w :
  reconnectAttempt (self (on_close s l code reason random w))
  = reconnectAttempt (self w).
Proof.
  unfold on_close. break_matches; autorewrite with attempt;
    rewrite ?attempt_settle_connect; apply attempt_handleSocketClose.
Qed.

Lemma attempt_disconnect_resume w :
  reconnectAttempt (self (disconnect_resume w)) = reconnectAttempt (self w).
Proof.
  unfold disconnect_resume. autorewrite with attempt.
  rewrite attempt_rejectAllPending. reflexivity.
Qed.

Lemma attempt_disconnect code reason readyState close_throws w :
  reconnectAttempt (self (disconnect code reason readyState close_throws w))
  = reconnectAttempt (self w).
Proof.
  unfold disconnect. break_matches; autorewrite with attempt;
    rewrite ?attempt_rejectAllPending; autorewrite with attempt;
    rewrite attempt_stopHeartbeatMonitor, attempt_clearReconnectTimer;
    reflexivity.
Qed.

Lemma attempt_callAction action params timeoutMs echo readyState now send_throws w :
  reconnectAttempt
    (self (callAction action params timeoutMs echo readyState now send_throws w).2)
  = reconnectAttempt (self w).
Proof.
  unfold callAction.
  destruct (ws (self w)); [|reflexivity].
  destruct (state (self w)); try reflexivity.
  destruct readyState; try reflexivity.
  destruct echo; cbn [generateEcho]; destruct send_throws; cbn [snd];
    break_matches; reflexivity.
Qed.

(** Every event leaves the attempt counter as it is, except the open of
    a socket, which writes 0, and the firing of a reconnect timer, which
    writes the number of the attempt it starts. *)
Lemma attempt_step ev w :
  reconnectAttempt (self (step ev w)) = reconnectAttempt (self w)
  \/ (exists s now, ev = SocketOpen s now
                    /\ reconnectAttempt (self (step ev w)) = 0)
  \/ (exists t now ct n, ev = TimerFires t now ct
                         /\ timers w !! t = Some (ReconnectFire n)
                         /\ reconnectAttempt (self (step ev w)) = n).
Proof.
  destruct ev; cbn [step].
  - left. apply attempt_connect.
  - left. apply attempt_disconnect.
  - left. apply attempt_callAction.
  - destruct (sockets w !! s); [|left; reflexivity].
    right. left. eexists _, _. split; [reflexivity|apply attempt_on_open].
  - destruct (sockets w !! s); [|left; reflexivity].
    left. unfold on_message. rewrite attempt_handleInbound. reflexivity.
  - destruct (sockets w !! s); [|left; reflexivity].
    left. unfold on_error. break_matches; rewrite ?attempt_settle_connect;
      reflexivity.
  - destruct (sockets w !! s); [|left; reflexivity].
    left. apply attempt_on_close.
  - destruct (timers w !! t) as [[e a m p|n|ms]|] eqn:Ht; [| | |left; reflexivity].
    + left. reflexivity.
    + right. right. eexists _, _, _, n. split; [reflexivity|].
      split; [first [exact Ht|reflexivity]|].
      cbn [run_task]. rewrite attempt_connect. reflexivity.
    + left. cbn [run_task]. break_matches; reflexivity.
  - destruct (catchJobs w); [left; reflexivity|].
    left. unfold connect_catch. rewrite attempt_scheduleReconnect. reflexivity.
  - destruct (resumeJobs w); [left; reflexivity|].
    left. rewrite attempt_disconnect_resume. reflexivity.
Qed.

(** *** What traffic leaves alone *)

(** The fields that decide whether and how a close is followed by a
    reconnect. *)
Definition same_policy (c c' : OneBotWsClient) : Prop :=
  options c' = options c
  /\ manuallyClosed c' = manuallyClosed c
  /\ reconnectAttempt c' = reconnectAttempt c
  /\ reconnectTimer c' = reconnectTimer c.

Lemma same_policy_refl c : same_policy c c.
Proof. repeat split. Qed.

Lemma same_policy_trans c1 c2 c3 :
  same_policy c1 c2 -> same_policy c2 c3 -> same_policy c1 c3.
Proof. unfold same_policy. intuition congruence. Qed.

Lemma policy_stopHeartbeatMonitor w :
  same_policy (self w) (self (stopHeartbeatMonitor w)).
Proof. unfold stopHeartbeatMonitor. break_matches; repeat split. Qed.

Lemma policy_rejectAllPending error w :
  same_policy (self w) (self (rejectAllPending error w)).
Proof. rewrite rejectAllPending_self. repeat split. Qed.

Lemma policy_handleInbound data w :
  same_policy (self w) (self (handleInbound data w)).
Proof. unfold handleInbound, dispatch_event. break_matches; repeat split. Qed.

Lemma policy_settle_connect s l error w :
  same_policy (self w) (self (settle_connect s l error w)).
Proof. unfold settle_connect. break_matches; repeat split. Qed.

Lemma policy_callAction action params timeoutMs echo readyState now send_throws w :
  same_policy (self w)
    (self (callAction action params timeoutMs echo readyState now send_throws w).2).
Proof.
  unfold callAction.
  destruct (ws (self w)); [|apply same_policy_refl].
  destruct (state (self w)); try apply same_policy_refl.
  destruct readyState; try apply same_policy_refl.
  destruct echo; cbn [generateEcho]; destruct send_throws; cbn [snd];
    break_matches; repeat split.
Qed.

(** Traffic on an open connection: inbound frames, socket errors and
    action calls. *)
Definition is_traffic (ev : Event) : Prop :=
  match ev with
  | SocketMessage _ _ _ | SocketError _ | CallAction _ _ _ _ _ _ _ => True
  | _ => False
  end.

Lemma policy_traffic ev w :
  is_traffic ev -> same_policy (self w) (self (step ev w)).
Proof.
  destruct ev; cbn [is_traffic step]; try contradiction; intros _.
  - apply policy_callAction.
  - destruct (sockets w !! s); [|apply same_policy_refl].
    unfold on_message.
    eapply same_policy_trans; [|apply policy_handleInbound]. repeat split.
  - destruct (sockets w !! s); [|apply same_policy_refl].
    unfold on_error. destruct (opened s0); [repeat split|].
    eapply same_policy_trans; [|apply policy_settle_connect]. repeat split.
Qed.

Lemma policy_run_traffic evs : forall w,
  Forall is_traffic evs -> same_policy (self w) (self (run evs w)).
Proof.
  induction evs as [|ev evs IH]; intros w Hall; [apply same_policy_refl|].
  apply Forall_cons in Hall as [Hev Hall]. cbn [run fold_left].
  eapply same_policy_trans; [apply policy_traffic, Hev|apply IH, Hall].
Qed.

(** An unexpected close, when no reconnect is scheduled yet and the cap
    is not reached, schedules the next attempt with its backoff delay. *)
Lemma unexpected_close_schedules w s l code reason random :
  sockets w !! s = Some l ->
  manuallyClosed (self w) = false ->
  reconnect (options (self w)) = true ->
  reconnectTimer (self w) = None ->
  reconnectAttempt (self w) + 1 <= reconnectMaxAttempts (options (self w)) ->
  let n := reconnectAttempt (self w) + 1 in
  let o := options (self w) in
  let delay :=
    Z.min (reconnectMaxDelayMs o) (reconnectBaseDelayMs o * 2 ^ (n - 1))
    + jitter random in
  let w' := step (SocketClose s code reason random) w in
  exists t before after,
    trace w' = trace w ++ before
               ++ [ Emit (ev_reconnecting
                            (mkReconnectEvent n delay ("close:" +:+ of_Z code)));
                    SetTimeout t delay ] ++ after
    /\ timers w' !! t = Some (ReconnectFire n)
    /\ reconnectTimer (self w') = Some t
    /\ reconnectAttempt (self w') = reconnectAttempt (self w).
Proof.
  intros Hs Hm Hr Ht Hle n o delay w'. subst w'. cbn [step]. rewrite Hs.
  unfold on_close, handleSocketClose.
  set (w1 := stopHeartbeatMonitor w).
  set (w2 := emit _ (transitionTo closed (on_self (set_ws None) w1))).
  set (w3 := rejectAllPending _ w2).
  assert (P3 : same_policy (self w) (self w3)).
  { eapply same_policy_trans; [apply policy_stopHeartbeatMonitor|].
    eapply same_policy_trans; [|apply policy_rejectAllPending]. repeat split. }
  destruct P3 as (Ho & Hm3 & Ha3 & Ht3).
  rewrite Hm3, Hm, Ho, Hr. cbn [negb].
  assert (Htr3 : exists before, trace w3 = trace w ++ before).
  { subst w3. rewrite rejectAllPending_trace. subst w2. cbn.
    unfold stopHeartbeatMonitor in w1. subst w1.
    destruct (heartbeatTimer (self w)); cbn; rewrite <- ?app_assoc; eauto. }
  destruct Htr3 as [before Htr3].
  destruct (scheduleReconnect_backoff w3 ("close:" +:+ of_Z code) random)
    as (Htr4 & Htm4 & Hrt4 & _ & Hat4);
    [rewrite Ht3; exact Ht|rewrite Ha3, Ho; exact Hle|].
  rewrite Ha3, Ho, Htr3 in Htr4. fold n o delay in Htr4.
  rewrite Ha3 in Htm4. fold n in Htm4.
  set (w4 := scheduleReconnect _ random w3) in *.
  set (w5 := if opened l then w4 else settle_connect s l _ w4).
  assert (H5 : exists after,
             trace w5 = trace w4 ++ after /\ timers w5 = timers w4
             /\ reconnectTimer (self w5) = reconnectTimer (self w4)
             /\ reconnectAttempt (self w5) = reconnectAttempt (self w4)).
  { subst w5. destruct (opened l).
    - exists []. rewrite app_nil_r. auto.
    - unfold settle_connect. destruct (settled l).
      + exists []. rewrite app_nil_r. auto.
      + eexists. cbn. eauto. }
  destruct H5 as (after & Htr5 & Htm5 & Hrt5 & Hat5).
  exists (fresh w3), before, after.
  assert (Hfin : forall w6 : World,
             trace w6 = trace w5 -> timers w6 = timers w5 ->
             self w6 = self w5 ->
             trace w6 = trace w ++ before
               ++ [ Emit (ev_reconnecting
                            (mkReconnectEvent n delay ("close:" +:+ of_Z code)));
                    SetTimeout (fresh w3) delay ] ++ after
             /\ timers w6 !! fresh w3 = Some (ReconnectFire n)
             /\ reconnectTimer (self w6) = Some (fresh w3)
             /\ reconnectAttempt (self w6) = reconnectAttempt (self w)).
  { intros w6 E1 E2 E3. rewrite E1, E2, E3, Htr5, Htm5, Hrt5, Hat5, Htr4, Htm4.
    rewrite <- !app_assoc. repeat split.
    - apply lookup_insert_eq.
    - exact Hrt4.
    - rewrite Hat4. exact Ha3. }
  destruct (sockets w5 !! s); apply Hfin; reflexivity.
Qed.

(** X27: the attempt counter is written with 0 when a socket reports
    open and by no other event: the firing of a reconnect timer writes
    the number of its attempt, which is at least 1, and [connect] itself
    leaves the counter alone.  When at the open no reconnect timer is
    armed, reconnection is on with a cap of at least one attempt and the
    client is not marked as closed by its user, and then only messages,
    socket errors and [callAction] calls follow, the next close of a
    socket schedules attempt 1 again, with the base delay (capped) plus
    the jitter. *)
Theorem attempt_counter_reset_on_open
  (w : World) (s : SockId) (l : SockLocals) (now : Z)
  (Hreach : reachable w) (Hsock : sockets w !! s = Some l) :
  let w1 := step (SocketOpen s now) w in
  reconnectAttempt (self w1) = 0
  /\ (forall w0 ev, reachable w0 ->
        reconnectAttempt (self (step ev w0)) = 0 ->
        reconnectAttempt (self w0) = 0 \/ exists s0 now0, ev = SocketOpen s0 now0)
  /\ (forall w0 t n now0 ct, reachable w0 ->
        timers w0 !! t = Some (ReconnectFire n) ->
        reconnectAttempt (self (step (TimerFires t now0 ct) w0)) = n /\ 1 <= n)
  /\ (forall w0 via,
        reconnectAttempt (self (connect via w0)) = reconnectAttempt (self w0))
  /\ (forall traffic s' l' code reason random,
        Forall is_traffic traffic ->
        let w2 := run traffic w1 in
        sockets w2 !! s' = Some l' ->
        manuallyClosed (self w1) = false ->
        reconnect (options (self w1)) = true ->
        reconnectTimer (self w1) = None ->
        1 <= reconnectMaxAttempts (options (self w1)) ->
        let o := options (self w1) in
        let delay :=
          Z.min (reconnectMaxDelayMs o) (reconnectBaseDelayMs o) + jitter random in
        let w3 := step (SocketClose s' code reason random) w2 in
        exists t before after,
          trace w3 = trace w2 ++ before
                     ++ [ Emit (ev_reconnecting
                                  (mkReconnectEvent 1 delay
                                     ("close:" +:+ of_Z code)));
                          SetTimeout t delay ] ++ after
          /\ timers w3 !! t = Some (ReconnectFire 1)
          /\ reconnectTimer (self w3) = Some t).
Proof.
  intros w1.
  assert (H1 : reconnectAttempt (self w1) = 0).
  { subst w1. cbn [step]. rewrite Hsock. apply attempt_on_open. }
  split; [exact H1|]. split; [|split; [|split]].
  - intros w0 ev Hr0 H0.
    destruct (attempt_step ev w0) as [E|[(s0 & now0 & -> & _)|(t & now0 & ct & n & -> & Ht & E)]].
    + left. congruence.
    + right. eauto.
    + exfalso. pose proof (J_reconnect _ _ _ _ _ (reachable_Inv w0 Hr0) _ _ Ht). lia.
  - intros w0 t n now0 ct Hr0 Ht. split.
    + cbn [step]. rewrite Ht. cbn [run_task]. rewrite attempt_connect. reflexivity.
    + apply (J_reconnect _ _ _ _ _ (reachable_Inv w0 Hr0) _ _ Ht).
  - intros w0 via. apply attempt_connect.
  - intros traffic s' l' code reason random Htraffic w2 Hs' Hm Hr Ht Hmax o delay w3.
    destruct (policy_run_traffic traffic w1 Htraffic) as (Ho & Hm2 & Ha2 & Ht2).
    fold w2 in Ho, Hm2, Ha2, Ht2.
    destruct (unexpected_close_schedules w2 s' l' code reason random)
      as (t & before & after & Htr & Htm & Hrt & _);
      [exact Hs'|congruence|congruence|congruence|rewrite Ha2, H1, Ho; lia|].
    rewrite Ha2, H1 in Htm. rewrite Ha2, H1, Ho in Htr.
    change (0 + 1) with 1 in Htr, Htm. change (2 ^ (1 - 1)) with 1 in Htr.
    rewrite Z.mul_1_r in Htr. exists t, before, after. auto.
Qed.

(** A client that may try to reconnect five times. *)
Definition five_attempts_options : Options :=
  mkOptions "ws://127.0.0.1:3001" None true 1000 5 30000 5000 None.

(** The connection is lost, the first reconnect attempt fails before its
    socket opens, and the second attempt is under way on socket 4. *)
Definition second_attempt : list Event :=
  [ CallConnect; SocketOpen 0 10;
    SocketClose 0 1006 "" (1 # 2);
    TimerFires 1 1200 false;
    SocketError 2; SocketClose 2 1006 "" (1 # 4);
    RunConnectCatch (3 # 4);
    TimerFires 3 5000 false ].

Lemma attempt_counter_reset_on_open_witness :
  let w := run second_attempt (init five_attempts_options) in
  let w1 := step (SocketOpen 4 5100) w in
  let w2 := run [CallAction "get_status" None None None OPEN 5200 false;
                 SocketMessage 4 5300 (Unparseable "x")] w1 in
  reconnectAttempt (self w) = 2
  /\ reconnectAttempt (self w1) = 0
  /\ exists t before after,
       trace (step (SocketClose 4 1006 "" (1 # 2)) w2)
       = trace w2 ++ before
         ++ [ Emit (ev_reconnecting (mkReconnectEvent 1 1150 "close:1006"));
              SetTimeout t 1150 ] ++ after
       /\ timers (step (SocketClose 4 1006 "" (1 # 2)) w2) !! t
          = Some (ReconnectFire 1)
       /\ reconnectTimer (self (step (SocketClose 4 1006 "" (1 # 2)) w2)) = Some t.
Proof.
  intros w.
  assert (Hreach : reachable w)
    by (exists five_attempts_options, second_attempt; reflexivity).
  assert (Hsock : sockets w !! 4%nat = Some (mkLocals false false 1 0))
    by (vm_compute; reflexivity).
  destruct (attempt_counter_reset_on_open w 4 (mkLocals false false 1 0) 5100
              Hreach Hsock) as (H1 & _ & _ & _ & H5).
  split; [vm_compute; reflexivity|]. split; [exact H1|].
  apply (H5 [CallAction "get_status" None None None OPEN 5200 false;
             SocketMessage 4 5300 (Unparseable "x")]
            4%nat (mkLocals true true 1 0) 1006 "" (1 # 2)%Q).
  - repeat constructor.
  - vm_compute. reflexivity.
  - reflexivity.
  - reflexivity.
  - reflexivity.
  - vm_compute. discriminate.
Defined.

(** The backoff of attempt [n], with the bounds of the jitter. *)
Lemma reconnect_delay_formula w reason random :
  reconnectTimer (self w) = None ->
  reconnectAttempt (self w) + 1 <= reconnectMaxAttempts (options (self w)) ->
  (0 <= random)%Q -> (random < 1)%Q ->
  let n := reconnectAttempt (self w) + 1 in
  let o := options (self w) in
  exists j, 0 <= j <= 299
    /\ trace (scheduleReconnect reason random w)
       = trace w ++ [ Emit (ev_reconnecting
                              (mkReconnectEvent n
                                 (Z.min (reconnectMaxDelayMs o)
                                    (reconnectBaseDelayMs o * 2 ^ (n - 1)) + j)
                                 reason));
                      SetTimeout (fresh w)
                        (Z.min (reconnectMaxDelayMs o)
                           (reconnectBaseDelayMs o * 2 ^ (n - 1)) + j) ].
Proof.
  intros Ht Hle H0 H1 n o. exists (jitter random).
  split; [apply jitter_bounds; assumption|].
  apply (scheduleReconnect_backoff w reason random Ht Hle).
Qed.

(** Past the cap a call of [scheduleReconnect] emits the terminal error
    once and arms no timer. *)
Lemma reconnect_cap_stops w reason random :
  reconnectTimer (self w) = None ->
  reconnectMaxAttempts (options (self w)) < reconnectAttempt (self w) + 1 ->
  let w' := scheduleReconnect reason random w in
  trace w' = trace w
             ++ [Emit (ev_error (ReconnectExhausted
                                   (reconnectMaxAttempts (options (self w)))
                                   reason))]
  /\ timers w' = timers w
  /\ reconnectTimer (self w') = None
  /\ state (self w') = state (self w).
Proof.
  intros Ht Hlt w'. subst w'.
  rewrite (scheduleReconnect_exhausted w reason random Ht Hlt). cbn. auto.
Qed.

(** A client whose cap is one reconnect attempt. *)
Definition one_attempt_options : Options :=
  mkOptions "ws://127.0.0.1:3001" None true 1000 1 30000 5000 None.

(** The connection opens and is lost; the one reconnect attempt fails
    before its socket opens, so the socket reports an error and then its
    close, and the [.catch] of the attempt runs after both handlers. *)
Definition failed_last_attempt : list Event :=
  [ CallConnect; SocketOpen 0 10;
    SocketClose 0 1006 "" (1 # 2);
    TimerFires 1 1200 false;
    SocketError 2; SocketClose 2 1006 "" (1 # 4);
    RunConnectCatch (3 # 4) ].

(** C5 on the code: when the last allowed reconnect attempt fails, the
    terminal error is emitted twice, once by the close handler of the
    failed socket and once by the [.catch] of the attempt; no further
    attempt is scheduled. *)
Theorem reconnect_exhaustion_reported_twice :
  let w := run failed_last_attempt (init one_attempt_options) in
  trace w
  = [ NewWebSocket 0 "ws://127.0.0.1:3001" None;
      Emit ev_open;
      ConnectResolved 0;
      Emit (ev_close (mkCloseEvent 1006 "" true));
      Emit (ev_reconnecting (mkReconnectEvent 1 1150 "close:1006"));
      SetTimeout 1 1150;
      NewWebSocket 2 "ws://127.0.0.1:3001" None;
      Emit (ev_error WebSocketError);
      ConnectRejected 2 ConnectFailed;
      Emit (ev_close (mkCloseEvent 1006 "" true));
      Emit (ev_error (ReconnectExhausted 1 "close:1006"));
      Emit (ev_error ReconnectAttemptFailed);
      Emit (ev_error (ReconnectExhausted 1 "connect_failed")) ]
  /\ occurrences is_exhausted (trace w) = 2%nat
  /\ timers w = ∅
  /\ reconnectTimer (self w) = None
  /\ state (self w) = closed.
Proof. vm_compute. auto. Qed.

(** ** Disconnect (C4) *)

(** The connection is lost and the first reconnect attempt is in flight
    when the caller disconnects: the socket of the attempt is closed, it
    reports an error and its close, the rest of [disconnect] runs, and
    then the [.catch] of the attempt. *)
Definition disconnect_during_attempt : list Event :=
  [ CallConnect; SocketOpen 0 10;
    SocketClose 0 1006 "" (1 # 2);
    TimerFires 1 1200 false;
    CallDisconnect 1000 "manual disconnect" CONNECTING false;
    SocketError 2; SocketClose 2 1006 "" (1 # 4);
    RunDisconnectResume;
    RunConnectCatch (3 # 4) ].

(** C4 on the code: [disconnect] called while a reconnect attempt is in
    flight returns with the state [closed], and then the [.catch] of the
    attempt, which does not look at [manuallyClosed], schedules the next
    attempt; when its timer fires the client connects again and is no
    longer marked as deliberately closed. *)
Theorem disconnect_does_not_stop_attempt_in_flight :
  let w1 := run (removelast disconnect_during_attempt) (init five_attempts_options) in
  let w2 := run disconnect_during_attempt (init five_attempts_options) in
  let w3 := step (TimerFires 3 3500 false) w2 in
  (last (trace w1) = Some DisconnectReturned
   /\ state (self w1) = closed /\ manuallyClosed (self w1) = true
   /\ reconnectTimer (self w1) = None)
  /\ (trace w2 = trace w1
                 ++ [ Emit (ev_error ReconnectAttemptFailed);
                      Emit (ev_reconnecting
                              (mkReconnectEvent 2 2225 "connect_failed"));
                      SetTimeout 3 2225 ]
      /\ state (self w2) = reconnecting
      /\ reconnectTimer (self w2) = Some 3%nat
      /\ timers w2 !! 3%nat = Some (ReconnectFire 2))
  /\ (trace w3 = trace w2 ++ [NewWebSocket 4 "ws://127.0.0.1:3001" None]
      /\ state (self w3) = connecting
      /\ manuallyClosed (self w3) = false
      /\ ws (self w3) = Some 4%nat).
Proof. vm_compute. auto 10. Qed.

(** ** A reconnect timer armed beside a new connection (C6) *)

(** The caller disconnects and, before the socket has closed, connects
    again; the close of the old socket arrives while the new one is
    connecting, [disconnect] returns, and the new socket opens. *)
Definition reconnect_during_disconnect : list Event :=
  [ CallConnect; SocketOpen 0 10;
    CallDisconnect 1000 "manual disconnect" OPEN false;
    CallConnect;
    SocketClose 0 1000 "manual disconnect" (1 # 2);
    RunDisconnectResume;
    SocketOpen 1 20 ].

(** C6 on the code: the close handler of the old socket runs while the
    new socket is connecting and, [manuallyClosed] having been reset by
    [connect], arms the timer of attempt 1.  The open handler of the new
    socket writes 0 to the counter and leaves that timer armed; its
    firing writes 1 to the counter while the state is [open] (the
    [connect] it calls returns at once), so the next unexpected close
    schedules attempt 2, with twice the base delay. *)
Theorem stale_reconnect_timer_survives_open :
  let w1 := run reconnect_during_disconnect (init five_attempts_options) in
  let w2 := step (TimerFires 2 1200 false) w1 in
  let w3 := step (SocketClose 1 1006 "" (1 # 4)) w2 in
  (trace w1
   = [ NewWebSocket 0 "ws://127.0.0.1:3001" None;
       Emit ev_open;
       ConnectResolved 0;
       WsClose 0 1000 "manual disconnect";
       NewWebSocket 1 "ws://127.0.0.1:3001" None;
       Emit (ev_close (mkCloseEvent 1000 "manual disconnect" true));
       Emit (ev_reconnecting (mkReconnectEvent 1 1150 "close:1000"));
       SetTimeout 2 1150;
       DisconnectReturned;
       Emit ev_open;
       ConnectResolved 1 ]
   /\ state (self w1) = open
   /\ reconnectAttempt (self w1) = 0
   /\ reconnectTimer (self w1) = Some 2%nat
   /\ timers w1 !! 2%nat = Some (ReconnectFire 1))
  /\ (trace w2 = trace w1
      /\ state (self w2) = open
      /\ reconnectAttempt (self w2) = 1)
  /\ (trace w3 = trace w2
                 ++ [ Emit (ev_close (mkCloseEvent 1006 "" true));
                      Emit (ev_reconnecting
                              (mkReconnectEvent 2 2075 "close:1006"));
                      SetTimeout 3 2075 ]
      /\ timers w3 !! 3%nat = Some (ReconnectFire 2)).
Proof. vm_compute. auto 10. Qed.

(** ** Timers stay armed (for C10) *)

(** The tokens of the table are distinct; the expiry timer of every
    entry is armed and carries the entry; timer handles are below the id supply; the handles kept in
    [reconnectTimer] and [heartbeatTimer] are not request timers. *)
Record K (w : World) : Prop := mkK {
  K_keys : NoDup ((pending w).*1);
  K_entry : forall e pr, (e, pr) ∈ pending w ->
    timers w !! timer pr
    = Some (RequestTimeout e (action pr) (timeoutMs pr) (promise pr));
  K_timers : forall t task, timers w !! t = Some task -> (t < fresh w)%nat;
  K_reconnect : forall t, reconnectTimer (self w) = Some t ->
    (t < fresh w)%nat
    /\ forall e a m p, timers w !! t <> Some (RequestTimeout e a m p);
  K_heartbeat : forall t, heartbeatTimer (self w) = Some t ->
    (t < fresh w)%nat
    /\ forall e a m p, timers w !! t <> Some (RequestTimeout e a m p);
}.

Lemma k_same w w' :
  pending w' = pending w ->
  timers w' = timers w ->
  (fresh w <= fresh w')%nat ->
  reconnectTimer (self w') = reconnectTimer (self w) ->
  heartbeatTimer (self w') = heartbeatTimer (self w) ->
  K w -> K w'.
Proof.
  intros Hp Ht Hf Hr Hh [K0 K1 K2 K3 K4]. split; rewrite ?Hp, ?Ht, ?Hr, ?Hh.
  - exact K0.
  - exact K1.
  - intros t task H. specialize (K2 _ _ H). lia.
  - intros t H. destruct (K3 _ H). split; [lia|assumption].
  - intros t H. destruct (K4 _ H). split; [lia|assumption].
Qed.

(** A timer that is no request timer is cleared; the fields that held
    it, if any, are reset or keep a dead handle. *)
Lemma k_clear_other w w' t :
  (forall e a m p, timers w !! t <> Some (RequestTimeout e a m p)) ->
  pending w' = pending w ->
  timers w' = delete t (timers w) ->
  fresh w' = fresh w ->
  (reconnectTimer (self w') = reconnectTimer (self w)
   \/ reconnectTimer (self w') = None) ->
  (heartbeatTimer (self w') = heartbeatTimer (self w)
   \/ heartbeatTimer (self w') = None) ->
  K w -> K w'.
Proof.
  intros Hno Hp Ht Hf Hr Hh [K0 K1 K2 K3 K4].
  assert (Hlk : forall t' task, timers w' !! t' = Some task ->
                                timers w !! t' = Some task).
  { intros t' task. rewrite Ht, lookup_delete_Some. tauto. }
  assert (Hneg : forall t' e a m p,
             timers w !! t' <> Some (RequestTimeout e a m p) ->
             timers w' !! t' <> Some (RequestTimeout e a m p)).
  { intros t' e a m p H H'. apply H, Hlk, H'. }
  split; rewrite ?Hp, ?Hf.
  - exact K0.
  - intros e pr Hin. specialize (K1 _ _ Hin). rewrite Ht, lookup_delete_ne; [exact K1|].
    intros E.
    assert (X : timers w !! t = timers w !! timer pr) by (f_equal; congruence).
    rewrite K1 in X. eapply Hno, X.
  - intros t' task H. apply (K2 _ _ (Hlk _ _ H)).
  - intros t' H. destruct Hr as [Hr|Hr]; rewrite Hr in H; [|discriminate].
    destruct (K3 _ H). split; [assumption|auto].
  - intros t' H. destruct Hh as [Hh|Hh]; rewrite Hh in H; [|discriminate].
    destruct (K4 _ H). split; [assumption|auto].
Qed.

(** A timer that is no request timer is armed with a new handle. *)
Lemma k_arm_other w w' task :
  (forall e a m p, task <> RequestTimeout e a m p) ->
  pending w' = pending w ->
  timers w' = <[fresh w := task]> (timers w) ->
  fresh w' = S (fresh w) ->
  (reconnectTimer (self w') = reconnectTimer (self w)
   \/ reconnectTimer (self w') = Some (fresh w)) ->
  (heartbeatTimer (self w') = heartbeatTimer (self w)
   \/ heartbeatTimer (self w') = Some (fresh w)) ->
  K w -> K w'.
Proof.
  intros Hno Hp Ht Hf Hr Hh [K0 K1 K2 K3 K4].
  assert (Hold : forall t', (t' < fresh w)%nat -> timers w' !! t' = timers w !! t').
  { intros t' Hlt. rewrite Ht, lookup_insert_ne; [reflexivity|lia]. }
  assert (Hnew : forall e a m p,
             timers w' !! fresh w <> Some (RequestTimeout e a m p)).
  { intros e a m p. rewrite Ht, lookup_insert_eq. intros [= H]. eapply Hno, H. }
  split; rewrite ?Hp, ?Hf.
  - exact K0.
  - intros e pr Hin. specialize (K1 _ _ Hin). rewrite Hold; [exact K1|].
    apply (K2 _ _ K1).
  - intros t' task'. rewrite Ht. destruct (decide (fresh w = t')) as [<-|Hne].
    + intros _. lia.
    + rewrite lookup_insert_ne by exact Hne. intros H. specialize (K2 _ _ H). lia.
  - intros t' H. destruct Hr as [Hr|Hr]; rewrite Hr in H.
    + destruct (K3 _ H) as [Hlt Hn]. split; [lia|]. rewrite Hold by exact Hlt. exact Hn.
    + injection H as <-. split; [lia|exact Hnew].
  - intros t' H. destruct Hh as [Hh|Hh]; rewrite Hh in H.
    + destruct (K4 _ H) as [Hlt Hn]. split; [lia|]. rewrite Hold by exact Hlt. exact Hn.
    + injection H as <-. split; [lia|exact Hnew].
Qed.

(** An entry is settled, or the request timer of a token fires: the
    timer goes and so does every entry under the token. *)
Lemma k_drop_request w w' t e a m p :
  timers w !! t = Some (RequestTimeout e a m p) ->
  pending w' = map_delete e (pending w) ->
  timers w' = delete t (timers w) ->
  fresh w' = fresh w ->
  reconnectTimer (self w') = reconnectTimer (self w) ->
  heartbeatTimer (self w') = heartbeatTimer (self w) ->
  K w -> K w'.
Proof.
  intros Harm Hp Ht Hf Hr Hh [K0 K1 K2 K3 K4].
  assert (Hlk : forall t' task, timers w' !! t' = Some task ->
                                timers w !! t' = Some task).
  { intros t' task. rewrite Ht, lookup_delete_Some. tauto. }
  split; rewrite ?Hf, ?Hr, ?Hh.
  - rewrite Hp. eapply sublist_NoDup; [exact K0|].
    apply fmap_sublist, map_delete_sublist.
  - intros e0 pr. rewrite Hp, elem_of_map_delete. intros [Hin Hne]. cbn in Hne.
    specialize (K1 _ _ Hin). rewrite Ht, lookup_delete_ne; [exact K1|].
    intros E.
    assert (X : timers w !! t = timers w !! timer pr) by (f_equal; congruence).
    rewrite Harm, K1 in X. congruence.
  - intros t' task H. apply (K2 _ _ (Hlk _ _ H)).
  - intros t' H. destruct (K3 _ H) as [Hlt Hn]. split; [exact Hlt|].
    intros e0 a0 m0 p0 H'. eapply Hn, Hlk, H'.
  - intros t' H. destruct (K4 _ H) as [Hlt Hn]. split; [exact Hlt|].
    intros e0 a0 m0 p0 H'. eapply Hn, Hlk, H'.
Qed.

(** A call registers its request. *)
Lemma k_new_request w w' e a m p t :
  (fresh w <= t)%nat -> (t < fresh w')%nat ->
  pending w' = map_set e (mkPending a m p t) (pending w) ->
  timers w' = <[t := RequestTimeout e a m p]> (timers w) ->
  reconnectTimer (self w') = reconnectTimer (self w) ->
  heartbeatTimer (self w') = heartbeatTimer (self w) ->
  K w -> K w'.
Proof.
  intros Hlo Hhi Hp Ht Hr Hh [K0 K1 K2 K3 K4].
  assert (Hold : forall t', (t' < fresh w)%nat -> timers w' !! t' = timers w !! t').
  { intros t' Hlt. rewrite Ht, lookup_insert_ne; [reflexivity|lia]. }
  split; rewrite ?Hr, ?Hh.
  - rewrite Hp. apply map_set_NoDup_keys, K0.
  - intros e0 pr. rewrite Hp. intros Hin.
    apply elem_of_map_set in Hin as [[= -> ->]|Hin].
    + cbn. rewrite Ht. apply lookup_insert_eq.
    + specialize (K1 _ _ Hin). rewrite Hold; [exact K1|apply (K2 _ _ K1)].
  - intros t' task. rewrite Ht. destruct (decide (t = t')) as [<-|Hne].
    + intros _. exact Hhi.
    + rewrite lookup_insert_ne by exact Hne. intros H. specialize (K2 _ _ H). lia.
  - intros t' H. destruct (K3 _ H) as [Hlt Hn]. split; [lia|].
    rewrite Hold by exact Hlt. exact Hn.
  - intros t' H. destruct (K4 _ H) as [Hlt Hn]. split; [lia|].
    rewrite Hold by exact Hlt. exact Hn.
Qed.

Ltac k_same_view :=
  apply k_same; [reflexivity|reflexivity|cbn; lia|reflexivity|reflexivity].

Lemma K_clearReconnectTimer w : K w -> K (clearReconnectTimer w).
Proof.
  intros HK. unfold clearReconnectTimer.
  destruct (reconnectTimer (self w)) as [t|] eqn:E; [|exact HK].
  destruct (K_reconnect _ HK _ E) as [_ Hn].
  revert HK. apply (k_clear_other _ _ t); try reflexivity; auto.
Qed.

Lemma K_stopHeartbeatMonitor w : K w -> K (stopHeartbeatMonitor w).
Proof.
  intros HK. unfold stopHeartbeatMonitor.
  destruct (heartbeatTimer (self w)) as [t|] eqn:E; [|exact HK].
  destruct (K_heartbeat _ HK _ E) as [_ Hn].
  revert HK. apply (k_clear_other _ _ t); try reflexivity; auto.
Qed.

Lemma K_startHeartbeatMonitor w : K w -> K (startHeartbeatMonitor w).
Proof.
  intros HK. apply K_stopHeartbeatMonitor in HK. unfold startHeartbeatMonitor.
  set (w1 := stopHeartbeatMonitor w) in *.
  destruct (heartbeatTimeoutMs (options (self w1))) as [ms|]; [|exact HK].
  destruct (ms <=? 0); [exact HK|]. revert HK.
  apply (k_arm_other _ _ (HeartbeatCheck ms));
    first [discriminate|reflexivity|auto].
Qed.

Lemma K_reject_entries error entries : forall w,
  (forall x, x ∈ entries -> x ∈ pending w) ->
  NoDup (entries.*1) ->
  K w -> K (reject_entries error entries w).
Proof.
  induction entries as [|[e pr] rest IH]; intros w Hin Hnd HK;
    cbn [reject_entries]; [exact HK|].
  rewrite fmap_cons in Hnd. apply NoDup_cons in Hnd as [Hhd Hnd].
  assert (Hmem : (e, pr) ∈ pending w) by apply Hin, list_elem_of_here.
  pose proof (K_entry _ HK _ _ Hmem) as Harm.
  apply IH; [|exact Hnd|].
  - intros x Hx. unfold pending. cbn. apply elem_of_map_delete. split.
    + apply Hin, list_elem_of_further, Hx.
    + intros E. apply Hhd. cbn. rewrite <- E. apply list_elem_of_fmap. eauto.
  - revert HK. apply (k_drop_request _ _ _ _ _ _ _ Harm); reflexivity.
Qed.

Lemma K_rejectAllPending error w : K w -> K (rejectAllPending error w).
Proof.
  intros HK. unfold rejectAllPending.
  apply K_reject_entries; [auto|apply HK|exact HK].
Qed.

Lemma K_scheduleReconnect reason random w :
  K w -> K (scheduleReconnect reason random w).
Proof.
  intros HK. unfold scheduleReconnect.
  destruct (reconnectTimer (self w)); [exact HK|].
  destruct (_ <? _); [revert HK; k_same_view|].
  revert HK.
  apply (k_arm_other _ _ (ReconnectFire (reconnectAttempt (self w) + 1)));
    first [discriminate|reflexivity|auto].
Qed.

Lemma K_handleSocketClose event random w :
  K w -> K (handleSocketClose event random w).
Proof.
  intros HK. unfold handleSocketClose.
  set (w1 := stopHeartbeatMonitor w).
  set (w2 := emit _ (transitionTo closed (on_self (set_ws None) w1))).
  set (w3 := rejectAllPending _ w2).
  assert (H3 : K w3).
  { apply K_rejectAllPending.
    assert (H1 : K w1) by apply K_stopHeartbeatMonitor, HK.
    revert H1. k_same_view. }
  destruct (manuallyClosed (self w3)); [exact H3|].
  destruct (negb _); [exact H3|apply K_scheduleReconnect, H3].
Qed.

Lemma K_handleInbound data w : K w -> K (handleInbound data w).
Proof.
  intros HK. destruct data as [text|payload]; cbn [handleInbound];
    [revert HK; k_same_view|].
  destruct (isApiResponsePacket payload).
  - destruct (get_prop "echo" payload) as [[| | |echo| |]|];
      try (revert HK; k_same_view).
    cbn [pendingRequests self emit log set_trace].
    destruct (map_get echo (pendingRequests (self w))) as [pr|] eqn:E;
      [|revert HK; k_same_view].
    pose proof (K_entry _ HK _ _ (map_get_elem_of _ _ _ E)) as Harm.
    revert HK. apply (k_drop_request _ _ _ _ _ _ _ Harm); reflexivity.
  - destruct (isEventPacket payload); [|revert HK; k_same_view].
    unfold dispatch_event.
    destruct (get_prop "post_type" payload) as [[| | |t| |]|];
      try (revert HK; k_same_view).
    repeat (destruct (String.eqb t _); [revert HK; k_same_view|]).
    revert HK. k_same_view.
Qed.

Lemma K_settle_connect s l error w : K w -> K (settle_connect s l error w).
Proof.
  unfold settle_connect. destruct (settled l); [auto|].
  destruct error; k_same_view.
Qed.

Lemma K_connect via w : K w -> K (connect via w).
Proof.
  intros HK. unfold connect.
  assert (Hnew : K (clearReconnectTimer (on_self (set_manuallyClosed false) w))).
  { apply K_clearReconnectTimer. revert HK. k_same_view. }
  destruct (state (self w)); try exact HK;
    (destruct (connectPromise (self w)) as [s|];
     [destruct via; [revert HK; k_same_view|exact HK]
     |revert Hnew; k_same_view]).
Qed.

Lemma K_callAction action params timeoutMs echo readyState now send_throws w :
  K w -> K (callAction action params timeoutMs echo readyState now send_throws w).2.
Proof.
  intros HK. unfold callAction.
  destruct (ws (self w)) as [s|]; [|exact HK].
  destruct (state (self w)); try exact HK.
  destruct readyState; try exact HK.
  set (ms := clampMs _ _).
  set (gen := match echo with Some e => (e, w) | None => generateEcho now w end).
  assert (Hgen : K gen.2).
  { subst gen. destruct echo; [exact HK|revert HK; k_same_view]. }
  destruct gen as [e w0]. cbn [snd] in Hgen.
  set (w1 := emit _ w0).
  set (p := fresh w1).
  set (w2 := set_pending _ (setTimeout _ ms (set_fresh (S p) w1))).
  assert (H2 : K w2).
  { revert Hgen.
    apply (k_new_request _ _ e action ms p (S p));
      [cbn; lia|cbn; lia|reflexivity|reflexivity|reflexivity|reflexivity]. }
  destruct send_throws; cbn [snd].
  - assert (Hget : map_get e (pendingRequests (self w2))
                   = Some (mkPending action ms p (S p)))
      by apply map_get_set_eq.
    rewrite Hget.
    pose proof (K_entry _ H2 _ _ (map_get_elem_of _ _ _ Hget)) as Harm.
    revert H2. apply (k_drop_request _ _ _ _ _ _ _ Harm); reflexivity.
  - revert H2. k_same_view.
Qed.

Lemma K_disconnect code reason readyState close_throws w :
  K w -> K (disconnect code reason readyState close_throws w).
Proof.
  intros HK. unfold disconnect.
  set (w0 := on_self (set_manuallyClosed true) w).
  set (w1 := clearReconnectTimer w0).
  set (w2 := stopHeartbeatMonitor w1).
  set (w3 := transitionTo closing w2).
  assert (H3 : K w3).
  { assert (H2 : K w2).
    { apply K_stopHeartbeatMonitor, K_clearReconnectTimer. revert HK. k_same_view. }
    revert H2. k_same_view. }
  assert (Hrej : forall w4, K w4 ->
                   K (log DisconnectReturned (rejectAllPending Disconnected w4))).
  { intros w4 H4. apply (K_rejectAllPending Disconnected) in H4.
    revert H4. k_same_view. }
  destruct (ws (self w3)) as [s|].
  - destruct readyState;
      try (destruct close_throws; revert H3; k_same_view).
    apply Hrej. revert H3. k_same_view.
  - apply Hrej. revert H3. k_same_view.
Qed.

Lemma K_step ev w : K w -> K (step ev w).
Proof.
  intros HK. destruct ev; cbn [step].
  - apply K_connect, HK.
  - apply K_disconnect, HK.
  - apply K_callAction, HK.
  - destruct (sockets w !! s) as [l|]; [|exact HK]. unfold on_open. cbv zeta.
    apply K_settle_connect.
    match goal with |- K (emit _ (transitionTo _ (startHeartbeatMonitor ?w1))) =>
      assert (H1 : K (startHeartbeatMonitor w1)) end.
    { apply K_startHeartbeatMonitor. revert HK. k_same_view. }
    revert H1. k_same_view.
  - destruct (sockets w !! s); [|exact HK]. unfold on_message.
    apply K_handleInbound. revert HK. k_same_view.
  - destruct (sockets w !! s) as [l|]; [|exact HK]. unfold on_error.
    destruct (opened l); [revert HK; k_same_view|].
    apply K_settle_connect. revert HK. k_same_view.
  - destruct (sockets w !! s) as [l|]; [|exact HK]. unfold on_close.
    set (w1 := handleSocketClose _ random w).
    set (w2 := if opened l then w1 else settle_connect s l _ w1).
    assert (H2 : K w2).
    { subst w2. destruct (opened l); [|apply K_settle_connect];
        apply K_handleSocketClose, HK. }
    destruct (sockets w2 !! s); [revert H2; k_same_view|exact H2].
  - destruct (timers w !! t) as [[e a m p|n|ms]|] eqn:Ht; [| | |exact HK];
      cbn [run_task].
    + revert HK. apply (k_drop_request _ _ _ _ _ _ _ Ht); reflexivity.
    + apply K_connect. revert HK.
      apply (k_clear_other _ _ t);
        [intros e a m p H; discriminate (eq_trans (eq_sym Ht) H)|reflexivity|reflexivity
        |reflexivity|right; reflexivity|left; reflexivity].
    + destruct (_ <=? _); [exact HK|].
      destruct (ws (self _)); [destruct close_throws|]; revert HK; k_same_view.
  - destruct (catchJobs w) as [|n]; [exact HK|]. unfold connect_catch.
    apply K_scheduleReconnect. revert HK. k_same_view.
  - destruct (resumeJobs w) as [|n]; [exact HK|]. unfold disconnect_resume.
    assert (H1 : K (rejectAllPending Disconnected
                      (transitionTo closed (set_resumeJobs n w)))).
    { apply K_rejectAllPending. revert HK. k_same_view. }
    revert H1. k_same_view.
Qed.

Lemma K_init o : K (init o).
Proof.
  split; cbn; try apply NoDup_nil_2; try discriminate;
    intros; try (rewrite lookup_empty in *; discriminate).
  match goal with H : _ ∈ [] |- _ => inversion H end.
Qed.

Lemma reachable_K w : reachable w -> K w.
Proof.
  intros (o & evs & ->). generalize (init o), (K_init o).
  induction evs as [|ev evs IH]; intros w HK; [exact HK|].
  cbn [run fold_left]. apply IH, K_step, HK.
Qed.

(** ** Tokens of the generator (C10) *)

(** *** Who writes the token counter *)

Lemma seq_log e w : echoSeq (self (log e w)) = echoSeq (self w).
Proof. reflexivity. Qed.

Lemma seq_emit ev w : echoSeq (self (emit ev w)) = echoSeq (self w).
Proof. reflexivity. Qed.

Lemma seq_transitionTo st w : echoSeq (self (transitionTo st w)) = echoSeq (self w).
Proof. reflexivity. Qed.

Lemma seq_set_sockets sk w : echoSeq (self (set_sockets sk w)) = echoSeq (self w).
Proof. reflexivity. Qed.

Lemma seq_set_resumeJobs n w : echoSeq (self (set_resumeJobs n w)) = echoSeq (self w).
Proof. reflexivity. Qed.

Lemma seq_set_catchJobs n w : echoSeq (self (set_catchJobs n w)) = echoSeq (self w).
Proof. reflexivity. Qed.

Lemma seq_set_fresh n w : echoSeq (self (set_fresh n w)) = echoSeq (self w).
Proof. reflexivity. Qed.

Lemma seq_set_timers tm w : echoSeq (self (set_timers tm w)) = echoSeq (self w).
Proof. reflexivity. Qed.

Lemma seq_set_pending m w : echoSeq (self (set_pending m w)) = echoSeq (self w).
Proof. reflexivity. Qed.

Lemma seq_setTimeout task ms w : echoSeq (self (setTimeout task ms w)) = echoSeq (self w).
Proof. reflexivity. Qed.

Lemma seq_setInterval task ms w : echoSeq (self (setInterval task ms w)) = echoSeq (self w).
Proof. reflexivity. Qed.

Lemma seq_clearTimeout t w : echoSeq (self (clearTimeout t w)) = echoSeq (self w).
Proof. reflexivity. Qed.

Lemma seq_clearInterval t w : echoSeq (self (clearInterval t w)) = echoSeq (self w).
Proof. reflexivity. Qed.

Lemma seq_set_trace tr w : echoSeq (self (set_trace tr w)) = echoSeq (self w).
Proof. reflexivity. Qed.

Lemma seq_set_ws v w : echoSeq (self (on_self (set_ws v) w)) = echoSeq (self w).
Proof. reflexivity. Qed.

Lemma seq_set_state v w : echoSeq (self (on_self (set_state v) w)) = echoSeq (self w).
Proof. reflexivity. Qed.

Lemma seq_set_manuallyClosed v w : echoSeq (self (on_self (set_manuallyClosed v) w)) = echoSeq (self w).
Proof. reflexivity. Qed.

Lemma seq_set_connectPromise v w : echoSeq (self (on_self (set_connectPromise v) w)) = echoSeq (self w).
Proof. reflexivity. Qed.

Lemma seq_set_reconnectAttempt v w : echoSeq (self (on_self (set_reconnectAttempt v) w)) = echoSeq (self w).
Proof. reflexivity. Qed.

Lemma seq_set_reconnectTimer v w : echoSeq (self (on_self (set_reconnectTimer v) w)) = echoSeq (self w).
Proof. reflexivity. Qed.

Lemma seq_set_lastInboundAt v w : echoSeq (self (on_self (set_lastInboundAt v) w)) = echoSeq (self w).
Proof. reflexivity. Qed.

Lemma seq_set_heartbeatTimer v w : echoSeq (self (on_self (set_heartbeatTimer v) w)) = echoSeq (self w).
Proof. reflexivity. Qed.

Lemma seq_set_pendingRequests v w : echoSeq (self (on_self (set_pendingRequests v) w)) = echoSeq (self w).
Proof. reflexivity. Qed.

Create Rewrite HintDb seq.
Hint Rewrite seq_log
  seq_emit
  seq_transitionTo
  seq_set_sockets
  seq_set_resumeJobs
  seq_set_catchJobs
  seq_set_fresh
  seq_set_timers
  seq_set_pending
  seq_setTimeout
  seq_setInterval
  seq_clearTimeout
  seq_clearInterval
  seq_set_trace
  seq_set_ws
  seq_set_state
  seq_set_manuallyClosed
  seq_set_connectPromise
  seq_set_reconnectAttempt
  seq_set_reconnectTimer
  seq_set_lastInboundAt
  seq_set_heartbeatTimer
  seq_set_pendingRequests : seq.

Lemma seq_clearReconnectTimer w :
  echoSeq (self (clearReconnectTimer w)) = echoSeq (self w).
Proof. unfold clearReconnectTimer. break_matches; reflexivity. Qed.

Lemma seq_stopHeartbeatMonitor w :
  echoSeq (self (stopHeartbeatMonitor w)) = echoSeq (self w).
Proof. unfold stopHeartbeatMonitor. break_matches; reflexivity. Qed.

Lemma seq_startHeartbeatMonitor w :
  echoSeq (self (startHeartbeatMonitor w)) = echoSeq (self w).
Proof.
  unfold startHeartbeatMonitor. break_matches; autorewrite with seq;
    apply seq_stopHeartbeatMonitor.
Qed.

Lemma seq_rejectAllPending error w :
  echoSeq (self (rejectAllPending error w)) = echoSeq (self w).
Proof. rewrite rejectAllPending_self. reflexivity. Qed.

Lemma seq_scheduleReconnect reason random w :
  echoSeq (self (scheduleReconnect reason random w)) = echoSeq (self w).
Proof. unfold scheduleReconnect. break_matches; reflexivity. Qed.

Lemma seq_handleSocketClose event random w :
  echoSeq (self (handleSocketClose event random w)) = echoSeq (self w).
Proof.
  unfold handleSocketClose. break_matches;
    rewrite ?seq_scheduleReconnect, seq_rejectAllPending;
    autorewrite with seq; apply seq_stopHeartbeatMonitor.
Qed.

Lemma seq_handleInbound data w :
  echoSeq (self (handleInbound data w)) = echoSeq (self w).
Proof. unfold handleInbound, dispatch_event. break_matches; reflexivity. Qed.

Lemma seq_connect via w : echoSeq (self (connect via w)) = echoSeq (self w).
Proof.
  unfold connect. break_matches; autorewrite with seq;
    rewrite ?seq_clearReconnectTimer; reflexivity.
Qed.

Lemma seq_settle_connect s l error w :
  echoSeq (self (settle_connect s l error w)) = echoSeq (self w).
Proof. unfold settle_connect. break_matches; reflexivity. Qed.

Lemma seq_on_open s l now w : echoSeq (self (on_open s l now w)) = echoSeq (self w).
Proof.
  unfold on_open. rewrite seq_settle_connect. autorewrite with seq.
  rewrite seq_startHeartbeatMonitor. reflexivity.
Qed.

Lemma seq_on_close s l code reason random w :
  echoSeq (self (on_close s l code reason random w)) = echoSeq (self w).
Proof.
  unfold on_close. break_matches; autorewrite with seq;
    rewrite ?seq_settle_connect; apply seq_handleSocketClose.
Qed.

Lemma seq_disconnect_resume w :
  echoSeq (self (disconnect_resume w)) = echoSeq (self w).
Proof.
  unfold disconnect_resume. autorewrite with seq.
  rewrite seq_rejectAllPending. reflexivity.
Qed.

Lemma seq_disconnect code reason readyState close_throws w :
  echoSeq (self (disconnect code reason readyState close_throws w))
  = echoSeq (self w).
Proof.
  unfold disconnect. break_matches; autorewrite with seq;
    rewrite ?seq_rejectAllPending; autorewrite with seq;
    rewrite seq_stopHeartbeatMonitor, seq_clearReconnectTimer;
    reflexivity.
Qed.

Lemma seq_callAction action params timeoutMs echo readyState now send_throws w :
  echoSeq (self w)
  <= echoSeq
       (self (callAction action params timeoutMs echo readyState now send_throws w).2).
Proof.
  unfold callAction.
  destruct (ws (self w)); [|reflexivity].
  destruct (state (self w)); try reflexivity.
  destruct readyState; try reflexivity.
  destruct echo; cbn [generateEcho]; destruct send_throws; cbn [snd];
    break_matches; cbn; lia.
Qed.

(** The token counter never goes down. *)
Lemma seq_step ev w : echoSeq (self w) <= echoSeq (self (step ev w)).
Proof.
  destruct ev; cbn [step].
  - rewrite seq_connect. reflexivity.
  - rewrite seq_disconnect. reflexivity.
  - apply seq_callAction.
  - destruct (sockets w !! s); [rewrite seq_on_open|]; reflexivity.
  - destruct (sockets w !! s); [|reflexivity].
    unfold on_message. rewrite seq_handleInbound. reflexivity.
  - destruct (sockets w !! s); [|reflexivity].
    unfold on_error. break_matches; rewrite ?seq_settle_connect; reflexivity.
  - destruct (sockets w !! s); [rewrite seq_on_close|]; reflexivity.
  - destruct (timers w !! t) as [[e a m p|n|ms]|]; [| | |reflexivity];
      cbn [run_task].
    + reflexivity.
    + rewrite seq_connect. reflexivity.
    + break_matches; reflexivity.
  - destruct (catchJobs w); [reflexivity|].
    unfold connect_catch. rewrite seq_scheduleReconnect. reflexivity.
  - destruct (resumeJobs w); [reflexivity|].
    rewrite seq_disconnect_resume. reflexivity.
Qed.

Lemma seq_run evs : forall w, echoSeq (self w) <= echoSeq (self (run evs w)).
Proof.
  induction evs as [|ev evs IH]; intros w; [reflexivity|].
  cbn [run fold_left]. etransitivity; [apply seq_step|apply IH].
Qed.

(** *** The text of a token determines its counter *)

Fixpoint no_underscore (s : string) : bool :=
  match s with
  | EmptyString => true
  | String c s' => negb (Ascii.eqb c "_") && no_underscore s'
  end.

Lemma no_underscore_uint d : no_underscore (NilEmpty.string_of_uint d) = true.
Proof. induction d; cbn; auto. Qed.

Lemma no_underscore_of_Z z : no_underscore (of_Z z) = true.
Proof.
  unfold of_Z, NilZero.string_of_int, NilZero.string_of_uint.
  destruct (Z.to_int z) as [d|d]; destruct d; try reflexivity;
    try apply (no_underscore_uint (_ _));
    cbn [no_underscore Ascii.eqb negb andb]; apply (no_underscore_uint (_ _)).
Qed.

Lemma of_Z_inj a b : of_Z a = of_Z b -> a = b.
Proof.
  unfold of_Z. intros H. apply DecimalZ.to_int_inj.
  assert (Hnn : forall z, Z.to_int z <> Decimal.Pos Decimal.Nil
                          /\ Z.to_int z <> Decimal.Neg Decimal.Nil).
  { intros [|q|q]; cbn; split; try discriminate;
      intros [= E]; eapply DecimalPos.Unsigned.to_uint_nonnil, E. }
  apply (f_equal NilZero.int_of_string) in H.
  rewrite !NilZero.isi in H by apply Hnn. congruence.
Qed.

Lemma split_at_underscore a a' b b' :
  no_underscore a = true -> no_underscore a' = true ->
  a +:+ String "_" b = a' +:+ String "_" b' -> a = a' /\ b = b'.
Proof.
  revert a'. induction a as [|c a IH]; intros [|c' a'] Ha Ha' E.
  - injection E as ->. auto.
  - injection E as <- _. cbn in Ha'. discriminate.
  - injection E as -> _. cbn in Ha. discriminate.
  - injection E as -> E. cbn [no_underscore] in Ha, Ha'.
    apply andb_true_iff in Ha as [_ Ha]. apply andb_true_iff in Ha' as [_ Ha'].
    destruct (IH a' Ha Ha' E) as [-> ->]. auto.
Qed.

Lemma echo_token_inj now1 seq1 now2 seq2 :
  echo_token now1 seq1 = echo_token now2 seq2 -> now1 = now2 /\ seq1 = seq2.
Proof.
  unfold echo_token. intros E. injection E as E.
  apply split_at_underscore in E as [E1 E2];
    [|apply no_underscore_of_Z|apply no_underscore_of_Z].
  split; apply of_Z_inj; assumption.
Qed.

(** A token made by the generator differs from every token it makes
    later. *)
Lemma generated_tokens_distinct w now1 now2 evs :
  (generateEcho now2 (run evs (generateEcho now1 w).2)).1
  <> (generateEcho now1 w).1.
Proof.
  cbn [generateEcho fst snd]. intros E. apply echo_token_inj in E as [_ E].
  pose proof (seq_run evs (on_self (set_echoSeq (echoSeq (self w) + 1)) w)) as H.
  cbn in H. lia.
Qed.

(** ** A token given by the caller (C10) *)








(** ** A whole call of disconnect (the part of C4 that holds) *)

(** The timers cleared by [rejectAllPending]. *)
Definition cleared (entries : list (string * PendingRequest))
           (tm : gmap nat TimerTask) : gmap nat TimerTask :=
  fold_left (fun tm x => delete (timer x.2) tm) entries tm.

Lemma reject_entries_eq error entries : forall w,
  (forall x, x ∈ pending w -> x.1 ∈ entries.*1) ->
  reject_entries error entries w
  = mkWorld (set_pendingRequests [] (self w)) (cleared entries (timers w))
      (sockets w) (fresh w) (catchJobs w) (resumeJobs w)
      (trace w ++ rejections error entries).
Proof.
  induction entries as [|[e pr] rest IH]; intros w Hin; cbn [reject_entries].
  - destruct w as [[o s st mc cp ra rt li ht es pend] tm sk fr cj rj tr].
    unfold pending in Hin. cbn in *. rewrite app_nil_r.
    destruct pend as [|x pend]; [reflexivity|].
    exfalso. eapply not_elem_of_nil, (Hin x), list_elem_of_here.
  - rewrite IH.
    + destruct w as [[o s st mc cp ra rt li ht es pend] tm sk fr cj rj tr].
      cbn. rewrite <- !app_assoc. reflexivity.
    + intros x Hx. unfold pending in Hx. cbn in Hx.
      apply elem_of_map_delete in Hx as [Hx Hne].
      specialize (Hin x Hx). rewrite fmap_cons in Hin.
      apply elem_of_cons in Hin as [Hin|Hin]; [contradiction|exact Hin].
Qed.

Lemma rejectAllPending_eq error w :
  rejectAllPending error w
  = mkWorld (set_pendingRequests [] (self w)) (cleared (pending w) (timers w))
      (sockets w) (fresh w) (catchJobs w) (resumeJobs w)
      (trace w ++ rejections error (pending w)).
Proof.
  apply reject_entries_eq. intros x Hx. apply list_elem_of_fmap. eauto.
Qed.

Lemma elem_of_rejections error entries e pr :
  (e, pr) ∈ entries ->
  ClearTimeout (timer pr) ∈ rejections error entries
  /\ Reject (promise pr) error ∈ rejections error entries.
Proof.
  induction entries as [|x rest IH]; intros Hin; [inversion Hin|].
  cbn [rejections flat_map]. apply elem_of_cons in Hin as [<-|Hin].
  - cbn. split; [apply list_elem_of_here|apply list_elem_of_further, list_elem_of_here].
  - destruct (IH Hin) as [H1 H2]. split; apply elem_of_app; right; assumption.
Qed.

(** How the socket answers [ws.close(code, reason)]: the call throws, or
    the close event of the socket arrives. *)
Inductive CloseOutcome : Type :=
| CloseThrows
| CloseAcknowledged (code : Z) (reason : string) (random : Q).

(** The events of one call of [disconnect()] from its start to its
    return: the call itself and, when it has to wait, the close event of
    the socket and the continuation after the [await]. *)
Definition disconnect_call (code : Z) (reason : string) (readyState : ReadyState)
           (outcome : CloseOutcome) (w : World) : list Event :=
  match ws (self w), readyState, outcome with
  | None, _, _ | Some _, CLOSED, _ =>
      [CallDisconnect code reason readyState false]
  | Some _, _, CloseThrows =>
      [CallDisconnect code reason readyState true; RunDisconnectResume]
  | Some s, _, CloseAcknowledged c r random =>
      [CallDisconnect code reason readyState false; SocketClose s c r random;
       RunDisconnectResume]
  end.

(** The socket of the client is one that [connect] has created. *)
Definition socket_known (w : World) : Prop :=
  forall s, ws (self w) = Some s -> is_Some (sockets w !! s).

(** A pending call is failed by a close ("disconnected-style"). *)
Definition disconnected_error (error : OneBotClientError) : Prop :=
  error = Disconnected \/ exists code reason, error = SocketClosed code reason.

(** What a finished [disconnect] leaves behind. *)
Record disconnected (w0 w : World) : Prop := mkDisconnected {
  d_state : state (self w) = closed;
  d_manual : manuallyClosed (self w) = true;
  d_reconnect : reconnectTimer (self w) = None;
  d_heartbeat : heartbeatTimer (self w) = None;
  d_pending : pending w = [];
  d_trace : exists done,
    trace w = trace w0 ++ done
    /\ last done = Some DisconnectReturned
    /\ settlements done = promises (pending w0)
    /\ forall e pr, (e, pr) ∈ pending w0 ->
         ClearTimeout (timer pr) ∈ done
         /\ exists error, Reject (promise pr) error ∈ done
                          /\ disconnected_error error;
  d_timers : forall t,
    reconnectTimer (self w0) = Some t \/ heartbeatTimer (self w0) = Some t
    \/ (exists e pr, (e, pr) ∈ pending w0 /\ timer pr = t) ->
    timers w !! t = None;
  d_socket : socket_known w;
}.

Lemma cleared_None entries : forall tm t,
  tm !! t = None -> cleared entries tm !! t = None.
Proof.
  induction entries as [|x rest IH]; intros tm t H; [exact H|].
  cbn [cleared fold_left]. apply IH, lookup_delete_None. auto.
Qed.

Lemma cleared_elem entries e pr : forall tm,
  (e, pr) ∈ entries -> cleared entries tm !! timer pr = None.
Proof.
  induction entries as [|x rest IH]; intros tm Hin; [inversion Hin|].
  cbn [cleared fold_left]. apply elem_of_cons in Hin as [<-|Hin].
  - apply cleared_None, lookup_delete_eq.
  - apply IH, Hin.
Qed.

(** Worlds written out field by field, for the methods that branch on a
    field. *)
Lemma clearReconnectTimer_eq w :
  clearReconnectTimer w
  = mkWorld (set_reconnectTimer None (self w))
      (match reconnectTimer (self w) with
       | Some t => delete t (timers w) | None => timers w end)
      (sockets w) (fresh w) (catchJobs w) (resumeJobs w)
      (trace w ++ match reconnectTimer (self w) with
                  | Some t => [ClearTimeout t] | None => [] end).
Proof.
  destruct w as [[o s st mc cp ra [t|] li ht es pend] tm sk fr cj rj tr];
    cbn; rewrite ?app_nil_r; reflexivity.
Qed.

Lemma stopHeartbeatMonitor_eq w :
  stopHeartbeatMonitor w
  = mkWorld (set_heartbeatTimer None (self w))
      (match heartbeatTimer (self w) with
       | Some t => delete t (timers w) | None => timers w end)
      (sockets w) (fresh w) (catchJobs w) (resumeJobs w)
      (trace w ++ match heartbeatTimer (self w) with
                  | Some t => [ClearInterval t] | None => [] end).
Proof.
  destruct w as [[o s st mc cp ra rt li [t|] es pend] tm sk fr cj rj tr];
    cbn; rewrite ?app_nil_r; reflexivity.
Qed.

(** Reduction of the projections of a world built by the primitive
    moves. *)
Ltac fields :=
  cbn [log emit transitionTo on_self set_pending clearTimeout clearInterval
       set_self set_timers set_sockets set_fresh set_catchJobs set_resumeJobs
       set_trace set_ws set_state set_manuallyClosed set_connectPromise
       set_reconnectAttempt set_reconnectTimer set_lastInboundAt
       set_heartbeatTimer set_echoSeq set_pendingRequests
       self timers sockets fresh catchJobs resumeJobs trace
       options ws state manuallyClosed connectPromise reconnectAttempt
       reconnectTimer lastInboundAt heartbeatTimer echoSeq pendingRequests
       pending opened settled catchers closeWaiters add_closeWaiter
       close_code close_reason].

Lemma handleSocketClose_manual event random w :
  manuallyClosed (self w) = true ->
  handleSocketClose event random w
  = rejectAllPending (SocketClosed (close_code event) (close_reason event))
      (emit (ev_close event)
         (transitionTo closed (on_self (set_ws None) (stopHeartbeatMonitor w)))).
Proof.
  intros Hm. unfold handleSocketClose. cbv zeta.
  rewrite rejectAllPending_eq, stopHeartbeatMonitor_eq. fields.
  rewrite Hm. reflexivity.
Qed.

Lemma disconnect_open_or_closed code reason readyState close_throws w :
  readyState <> CLOSED ->
  disconnect code reason readyState close_throws w
  = disconnect code reason OPEN close_throws w.
Proof. intros H. destruct readyState; try contradiction; reflexivity. Qed.

Lemma settlements_rejections error entries :
  settlements (rejections error entries) = promises entries.
Proof.
  induction entries as [|x rest IH]; [reflexivity|].
  cbn [rejections flat_map]. rewrite settlements_app. cbn [settlements flat_map settled_of app].
  unfold promises. rewrite fmap_cons. f_equal. exact IH.
Qed.

Ltac solve_done :=
  eexists; split; [rewrite <- ?app_assoc; reflexivity|];
  split; [rewrite ?app_assoc; apply last_snoc|];
  split; [rewrite ?settlements_app, settlements_rejections;
          repeat match goal with
                 | |- context [match ?x with _ => _ end] => destruct x
                 end; cbn [settlements flat_map settled_of app];
          rewrite ?app_nil_r; reflexivity|];
  intros e pr Hin;
  match goal with
  | |- context [rejections ?err _] =>
      destruct (elem_of_rejections err _ e pr Hin) as [Hc Hr];
      split; [|exists err; split;
               [|first [left; reflexivity|right; eexists _, _; reflexivity]]];
      repeat (first [rewrite elem_of_app|rewrite elem_of_cons]); auto 10
  end.

Lemma handles_deleted (rt ht : option TimerId) (tm : gmap nat TimerTask) t :
  rt = Some t \/ ht = Some t ->
  match ht with
  | Some t0 =>
      delete t0 match rt with Some t1 => delete t1 tm | None => tm end
  | None => match rt with Some t1 => delete t1 tm | None => tm end
  end !! t = None.
Proof.
  intros [-> | ->].
  - destruct ht as [t0|]; [|apply lookup_delete_eq].
    apply lookup_delete_None. right. apply lookup_delete_eq.
  - apply lookup_delete_eq.
Qed.

Ltac solve_timers :=
  intros t [Ht|[Ht|(e & pr & Hin & <-)]];
  [ apply cleared_None, handles_deleted; auto
  | apply cleared_None, handles_deleted; auto
  | eapply cleared_elem, Hin ].

(** [disconnect()] with no socket, or with a socket that is closed
    already: the call returns at once. *)
Lemma disconnect_returns_at_once w code reason readyState close_throws :
  ws (self w) = None \/ readyState = CLOSED ->
  disconnected w (disconnect code reason readyState close_throws w).
Proof.
  intros Hnow. unfold disconnect. cbv zeta.
  assert (E : ws (self (transitionTo closing (stopHeartbeatMonitor
                (clearReconnectTimer (on_self (set_manuallyClosed true) w)))))
              = ws (self w))
    by (rewrite stopHeartbeatMonitor_eq, clearReconnectTimer_eq; reflexivity).
  rewrite E. clear E.
  destruct (ws (self w)) as [s|] eqn:Hws.
  - destruct Hnow as [[=]| ->].
    rewrite rejectAllPending_eq, stopHeartbeatMonitor_eq, clearReconnectTimer_eq.
    split; fields; try reflexivity.
    + solve_done.
    + solve_timers.
    + intros s' [=].
  - rewrite rejectAllPending_eq, stopHeartbeatMonitor_eq, clearReconnectTimer_eq.
    destruct readyState; split; fields; try reflexivity.
    all: try solve_done. all: try solve_timers.
    all: unfold socket_known; fields; rewrite Hws; intros s' [=].
Qed.

Lemma disconnect_waits w code reason close_throws s :
  ws (self w) = Some s ->
  disconnect code reason OPEN close_throws w
  = let h := transitionTo closing (stopHeartbeatMonitor
               (clearReconnectTimer (on_self (set_manuallyClosed true) w))) in
    if close_throws then set_resumeJobs (S (resumeJobs h)) h
    else set_sockets (alter add_closeWaiter s (sockets h))
           (log (WsClose s code reason) h).
Proof.
  intros Hws. unfold disconnect. cbv zeta.
  assert (E : ws (self (transitionTo closing (stopHeartbeatMonitor
                (clearReconnectTimer (on_self (set_manuallyClosed true) w)))))
              = Some s)
    by (rewrite stopHeartbeatMonitor_eq, clearReconnectTimer_eq; exact Hws).
  rewrite E. reflexivity.
Qed.

(** [disconnect()] when [ws.close] throws: the call resumes after the
    [await] without a close event. *)
Lemma disconnect_after_throw w code reason readyState s :
  ws (self w) = Some s -> readyState <> CLOSED -> socket_known w ->
  disconnected w
    (step RunDisconnectResume (disconnect code reason readyState true w)).
Proof.
  intros Hws Hrs Hwf.
  rewrite (disconnect_open_or_closed _ _ _ _ _ Hrs), (disconnect_waits _ _ _ _ s Hws).
  cbv zeta. cbn [step]. fields.
  unfold disconnect_resume.
  rewrite rejectAllPending_eq, stopHeartbeatMonitor_eq, clearReconnectTimer_eq.
  split; fields; try reflexivity.
  - solve_done.
  - solve_timers.
  - unfold socket_known; fields. exact Hwf.
Qed.

(** [disconnect()] when the socket answers [ws.close] with its close
    event: the close handler runs, then the call resumes. *)
Lemma disconnect_after_close w code reason readyState s l c r random :
  ws (self w) = Some s -> readyState <> CLOSED -> sockets w !! s = Some l ->
  disconnected w
    (step RunDisconnectResume
       (step (SocketClose s c r random)
          (disconnect code reason readyState false w))).
Proof.
  intros Hws Hrs Hl.
  rewrite (disconnect_open_or_closed _ _ _ _ _ Hrs), (disconnect_waits _ _ _ _ s Hws).
  cbv zeta. cbn [step].
  rewrite !stopHeartbeatMonitor_eq, !clearReconnectTimer_eq. fields.
  rewrite lookup_alter_eq, Hl. cbn [fmap option_fmap option_map].
  unfold on_close.
  rewrite handleSocketClose_manual by reflexivity.
  rewrite rejectAllPending_eq, stopHeartbeatMonitor_eq. fields.
  rewrite app_nil_r.
  destruct l as [op se ca cw].
  destruct op, se; unfold settle_connect; fields;
    rewrite ?lookup_insert_eq, ?lookup_alter_eq, ?Hl;
    cbn [fmap option_fmap option_map]; fields;
    rewrite Nat.add_succ_r; unfold disconnect_resume;
    rewrite rejectAllPending_eq; fields;
    change (rejections Disconnected []) with (@nil Effect);
    rewrite app_nil_r.
  all: split; fields; try reflexivity.
  all: try solve_done.
  all: try (cbn [cleared fold_left]; solve_timers).
  all: try (unfold socket_known; fields; intros s' [=]).
Qed.

(** *** The socket of the client is always one that [connect] created *)

(** Sockets are never forgotten, and the socket of the client stays or
    is dropped. *)
Definition keeps_socket (w w' : World) : Prop :=
  (forall s, is_Some (sockets w !! s) -> is_Some (sockets w' !! s))
  /\ (ws (self w') = ws (self w) \/ ws (self w') = None).

Lemma keeps_socket_known w w' :
  keeps_socket w w' -> socket_known w -> socket_known w'.
Proof.
  intros [Hs [Hw|Hw]] Hk s E; rewrite Hw in E; [|discriminate].
  apply Hs, Hk, E.
Qed.

Lemma keeps_socket_refl w : keeps_socket w w.
Proof. split; auto. Qed.

Lemma keeps_socket_trans w1 w2 w3 :
  keeps_socket w1 w2 -> keeps_socket w2 w3 -> keeps_socket w1 w3.
Proof.
  intros [H1 H1'] [H2 H2']. split; [auto|].
  destruct H2' as [->| ->]; auto.
Qed.

Lemma keeps_socket_same w w' :
  sockets w' = sockets w -> ws (self w') = ws (self w) -> keeps_socket w w'.
Proof. intros Hs Hw. split; [rewrite Hs; auto|auto]. Qed.

Lemma is_Some_insert_known (sk : gmap nat SockLocals) s l s' :
  is_Some (sk !! s') -> is_Some (<[s := l]> sk !! s').
Proof.
  intros H. destruct (decide (s = s')) as [->|Hne].
  - rewrite lookup_insert_eq. eauto.
  - rewrite lookup_insert_ne by exact Hne. exact H.
Qed.

Lemma is_Some_alter_known (sk : gmap nat SockLocals) f s s' :
  is_Some (sk !! s') -> is_Some (alter f s sk !! s').
Proof.
  intros H. destruct (decide (s = s')) as [->|Hne].
  - rewrite lookup_alter_eq. destruct H as [x ->]. eauto.
  - rewrite lookup_alter_ne by exact Hne. exact H.
Qed.

Ltac quiet := apply keeps_socket_same; reflexivity.

Lemma keeps_clearReconnectTimer w : keeps_socket w (clearReconnectTimer w).
Proof. rewrite clearReconnectTimer_eq. quiet. Qed.

Lemma keeps_stopHeartbeatMonitor w : keeps_socket w (stopHeartbeatMonitor w).
Proof. rewrite stopHeartbeatMonitor_eq. quiet. Qed.

Lemma keeps_startHeartbeatMonitor w : keeps_socket w (startHeartbeatMonitor w).
Proof.
  unfold startHeartbeatMonitor. cbv zeta. rewrite stopHeartbeatMonitor_eq.
  break_matches; quiet.
Qed.

Lemma keeps_rejectAllPending error w : keeps_socket w (rejectAllPending error w).
Proof. rewrite rejectAllPending_eq. quiet. Qed.

Lemma keeps_scheduleReconnect reason random w :
  keeps_socket w (scheduleReconnect reason random w).
Proof. unfold scheduleReconnect. break_matches; quiet. Qed.

Lemma keeps_handleSocketClose event random w :
  keeps_socket w (handleSocketClose event random w).
Proof.
  unfold handleSocketClose. cbv zeta.
  assert (H : keeps_socket w
                (rejectAllPending
                   (SocketClosed (close_code event) (close_reason event))
                   (emit (ev_close event)
                      (transitionTo closed
                         (on_self (set_ws None) (stopHeartbeatMonitor w)))))).
  { rewrite rejectAllPending_eq, stopHeartbeatMonitor_eq.
    split; fields; auto. }
  break_matches; try exact H.
  eapply keeps_socket_trans; [exact H|apply keeps_scheduleReconnect].
Qed.

Lemma keeps_handleInbound data w : keeps_socket w (handleInbound data w).
Proof. unfold handleInbound, dispatch_event. break_matches; quiet. Qed.

Lemma keeps_settle_connect s l error w :
  keeps_socket w (settle_connect s l error w).
Proof.
  unfold settle_connect. break_matches; try apply keeps_socket_refl;
    (split; fields; [apply is_Some_insert_known|auto]).
Qed.

Lemma keeps_on_open s l now w : keeps_socket w (on_open s l now w).
Proof.
  unfold on_open. cbv zeta.
  eapply keeps_socket_trans; [|apply keeps_settle_connect].
  eapply keeps_socket_trans with
    (startHeartbeatMonitor
       (on_self (set_lastInboundAt now)
          (on_self (set_reconnectAttempt 0)
             (set_sockets
                (<[s := mkLocals true (settled l) (catchers l) (closeWaiters l)]>
                   (sockets w)) w)))).
  - eapply keeps_socket_trans; [|apply keeps_startHeartbeatMonitor].
    split; fields; [apply is_Some_insert_known|auto].
  - split; fields; auto.
Qed.

Lemma keeps_on_error s l w : keeps_socket w (on_error s l w).
Proof.
  unfold on_error. cbv zeta. break_matches.
  - quiet.
  - eapply keeps_socket_trans; [|apply keeps_settle_connect]. quiet.
Qed.

Lemma keeps_on_close s l code reason random w :
  keeps_socket w (on_close s l code reason random w).
Proof.
  unfold on_close. cbv zeta.
  set (w1 := handleSocketClose _ random w).
  assert (H1 : keeps_socket w w1) by apply keeps_handleSocketClose.
  set (w2 := if opened l then w1 else settle_connect s l _ w1).
  assert (H2 : keeps_socket w w2).
  { subst w2. destruct (opened l); [exact H1|].
    eapply keeps_socket_trans; [exact H1|apply keeps_settle_connect]. }
  destruct (sockets w2 !! s); [|exact H2].
  eapply keeps_socket_trans; [exact H2|].
  split; fields; [apply is_Some_insert_known|auto].
Qed.

Lemma keeps_disconnect_resume w : keeps_socket w (disconnect_resume w).
Proof. unfold disconnect_resume. rewrite rejectAllPending_eq. quiet. Qed.

Lemma keeps_disconnect code reason readyState close_throws w :
  keeps_socket w (disconnect code reason readyState close_throws w).
Proof.
  unfold disconnect. cbv zeta.
  rewrite !rejectAllPending_eq, !stopHeartbeatMonitor_eq, !clearReconnectTimer_eq.
  fields. break_matches; split; fields; auto using is_Some_alter_known.
Qed.

Lemma keeps_callAction action params timeoutMs echo readyState now send_throws w :
  keeps_socket w
    (callAction action params timeoutMs echo readyState now send_throws w).2.
Proof.
  unfold callAction.
  destruct (ws (self w)); [|apply keeps_socket_refl].
  destruct (state (self w)); try apply keeps_socket_refl.
  destruct readyState; try apply keeps_socket_refl.
  destruct echo; cbn [generateEcho]; destruct send_throws; cbn [snd];
    break_matches; quiet.
Qed.

Lemma socket_known_connect via w : socket_known w -> socket_known (connect via w).
Proof.
  intros Hk. unfold connect. cbv zeta.
  destruct (state (self w)); try exact Hk.
  all: destruct (connectPromise (self w)) as [s0|].
  all: try (destruct via; [|exact Hk];
            revert Hk; apply keeps_socket_known; split; fields;
            auto using is_Some_alter_known).
  all: rewrite clearReconnectTimer_eq; unfold socket_known; fields;
    intros s1 [= <-]; rewrite lookup_insert_eq; eauto.
Qed.

Lemma socket_known_step ev w : socket_known w -> socket_known (step ev w).
Proof.
  intros Hk. destruct ev; cbn [step].
  - apply socket_known_connect, Hk.
  - revert Hk. apply keeps_socket_known, keeps_disconnect.
  - revert Hk. apply keeps_socket_known, keeps_callAction.
  - destruct (sockets w !! s); [|exact Hk].
    revert Hk. apply keeps_socket_known, keeps_on_open.
  - destruct (sockets w !! s); [|exact Hk].
    revert Hk. apply keeps_socket_known. unfold on_message.
    eapply keeps_socket_trans; [|apply keeps_handleInbound]. quiet.
  - destruct (sockets w !! s); [|exact Hk].
    revert Hk. apply keeps_socket_known, keeps_on_error.
  - destruct (sockets w !! s); [|exact Hk].
    revert Hk. apply keeps_socket_known, keeps_on_close.
  - destruct (timers w !! t) as [[e a m p|n|ms]|]; [| | |exact Hk].
    + revert Hk. apply keeps_socket_known. quiet.
    + cbn [run_task]. apply socket_known_connect.
      revert Hk. apply keeps_socket_known. quiet.
    + revert Hk. apply keeps_socket_known. cbn [run_task].
      break_matches; quiet.
  - destruct (catchJobs w); [exact Hk|].
    revert Hk. apply keeps_socket_known. unfold connect_catch.
    eapply keeps_socket_trans; [|apply keeps_scheduleReconnect]. quiet.
  - destruct (resumeJobs w); [exact Hk|].
    revert Hk. apply keeps_socket_known.
    eapply keeps_socket_trans; [|apply keeps_disconnect_resume]. quiet.
Qed.

Lemma socket_known_run evs : forall w,
  socket_known w -> socket_known (run evs w).
Proof.
  induction evs as [|ev evs IH]; intros w Hk; [exact Hk|].
  cbn [run fold_left]. apply IH, socket_known_step, Hk.
Qed.

Lemma reachable_socket_known w : reachable w -> socket_known w.
Proof.
  intros (o & evs & ->). apply socket_known_run. intros s [=].
Qed.

Lemma disconnect_call_disconnects w code reason readyState outcome :
  socket_known w ->
  disconnected w (run (disconnect_call code reason readyState outcome w) w).
Proof.
  intros Hk. unfold disconnect_call.
  destruct (ws (self w)) as [s|] eqn:Hws.
  2:{ apply disconnect_returns_at_once. auto. }
  assert (Hrs : readyState = CLOSED \/ readyState <> CLOSED)
    by (destruct readyState; auto; right; discriminate).
  destruct Hrs as [->|Hrs].
  { apply disconnect_returns_at_once. auto. }
  destruct (Hk s Hws) as [l Hl].
  destruct outcome as [|c r random].
  - destruct readyState; try contradiction;
      exact (disconnect_after_throw w code reason _ s Hws Hrs Hk).
  - destruct readyState; try contradiction;
      exact (disconnect_after_close w code reason _ s l c r random Hws Hrs Hl).
Qed.

Lemma reachable_run evs w : reachable w -> reachable (run evs w).
Proof.
  intros (o & evs0 & ->). exists o, (evs0 ++ evs). symmetry. apply run_app.
Qed.

(** X1: a call of [disconnect] on a reachable client that nothing
    interrupts (the call and, when it has to wait, at once the close
    event of its socket or the throw of [ws.close], and then at once the
    continuation after the [await], with no other event in between)
    returns with the state [closed], [manuallyClosed] set, no reconnect
    or heartbeat handle, an empty request table, every request that was
    pending at the call rejected exactly once with the disconnected or
    socket-closed error and nothing else settled, and the timers of
    those requests and of the two handles disarmed.  A second such call
    on the result returns in the same way and settles no promise.
    Nothing is said of a call during which other events arrive. *)
Theorem disconnect_completes_and_repeats w code reason readyState outcome
  (Hw : reachable w) :
  let w1 := run (disconnect_call code reason readyState outcome w) w in
  disconnected w w1
  /\ forall code' reason' readyState' outcome',
       let w2 := run (disconnect_call code' reason' readyState' outcome' w1) w1 in
       disconnected w1 w2
       /\ settlements (trace w2) = settlements (trace w1).
Proof.
  intros w1.
  assert (H1 : disconnected w w1)
    by apply disconnect_call_disconnects, reachable_socket_known, Hw.
  split; [exact H1|]. intros code' reason' readyState' outcome' w2.
  assert (H2 : disconnected w1 w2)
    by apply disconnect_call_disconnects, (d_socket _ _ H1).
  split; [exact H2|].
  destruct (d_trace _ _ H2) as (done & -> & _ & Hs & _).
  rewrite settlements_app, Hs, (d_pending _ _ H1), app_nil_r. reflexivity.
Qed.

(** The demo client with one call pending disconnects; its socket
    acknowledges the close. *)
Lemma disconnect_completes_and_repeats_witness :
  let w := run demo_call (init demo_options) in
  let w1 := run (disconnect_call 1000 "manual disconnect" OPEN
                   (CloseAcknowledged 1000 "bye" (1 # 2)) w) w in
  disconnected w w1
  /\ forall code' reason' readyState' outcome',
       let w2 := run (disconnect_call code' reason' readyState' outcome' w1) w1 in
       disconnected w1 w2
       /\ settlements (trace w2) = settlements (trace w1).
Proof.
  apply (disconnect_completes_and_repeats
           (run demo_call (init demo_options)) 1000 "manual disconnect" OPEN
           (CloseAcknowledged 1000 "bye" (1 # 2))).
  exists demo_options, demo_call. reflexivity.
Defined.

(** ** More about the request table *)

Lemma cleared_other entries : forall tm t,
  (forall e pr, (e, pr) ∈ entries -> timer pr <> t) ->
  cleared entries tm !! t = tm !! t.
Proof.
  induction entries as [|[e pr] rest IH]; intros tm t H; [reflexivity|].
  cbn [cleared fold_left]. change (fold_left _ rest ?m) with (cleared rest m).
  rewrite IH.
  - apply lookup_delete_ne. cbn. apply (H e pr), list_elem_of_here.
  - intros e' pr' Hin. apply (H e' pr'), list_elem_of_further, Hin.
Qed.

(** X12: [rejectAllPending] empties the request table; going through
    the entries in the order in which they were inserted, it clears the
    timer of each entry and rejects its promise with the given error,
    once each, and it settles nothing else; afterwards none of those
    timers is armed, every other timer is as it was, and no other part of
    the client has changed. *)
Theorem rejectAllPending_fails_every_request (error : OneBotClientError) (w : World) :
  let w' := rejectAllPending error w in
  pending w' = []
  /\ trace w' = trace w ++ rejections error (pending w)
  /\ settlements (rejections error (pending w)) = promises (pending w)
  /\ (forall e pr, (e, pr) ∈ pending w -> timers w' !! timer pr = None)
  /\ (forall t, (forall e pr, (e, pr) ∈ pending w -> timer pr <> t) ->
                timers w' !! t = timers w !! t)
  /\ self w' = set_pendingRequests [] (self w)
  /\ sockets w' = sockets w /\ fresh w' = fresh w
  /\ catchJobs w' = catchJobs w /\ resumeJobs w' = resumeJobs w.
Proof.
  intros w'. subst w'. rewrite rejectAllPending_eq. fields.
  split; [reflexivity|]. split; [reflexivity|].
  split; [apply settlements_rejections|].
  split; [intros e pr Hin; eapply cleared_elem, Hin|].
  split; [intros t H; apply cleared_other, H|].
  repeat split; reflexivity.
Qed.

(** X13: in every reachable state of the client no request promise has
    been settled twice: the promises resolved or rejected so far are
    pairwise distinct, the promise of every request still in the table is
    unsettled, and the entries of the table have pairwise distinct tokens
    and pairwise distinct promises. *)
Theorem no_promise_settled_twice (w : World) (Hreach : reachable w) :
  NoDup (settlements (trace w))
  /\ (forall e pr, (e, pr) ∈ pending w -> promise pr ∉ settlements (trace w))
  /\ NoDup ((pending w).*1)
  /\ NoDup (promises (pending w)).
Proof.
  pose proof (reachable_Inv w Hreach) as HI.
  split; [apply (J_once _ _ _ _ _ HI)|].
  split; [intros e pr Hin; apply (J_entry _ _ _ _ _ HI e pr Hin)|].
  split; [apply (J_keys _ _ _ _ _ HI)|apply (J_promises _ _ _ _ _ HI)].
Qed.

(** The demo client after its call has timed out and a late response
    has arrived. *)
Lemma no_promise_settled_twice_witness :
  let w := run (demo_call ++ [TimerFires 2 5011 false;
                              SocketMessage 0 5012 (Parsed demo_response)])
             (init demo_options) in
  NoDup (settlements (trace w))
  /\ (forall e pr, (e, pr) ∈ pending w -> promise pr ∉ settlements (trace w))
  /\ NoDup ((pending w).*1)
  /\ NoDup (promises (pending w)).
Proof.
  apply (no_promise_settled_twice
           (run (demo_call ++ [TimerFires 2 5011 false;
                               SocketMessage 0 5012 (Parsed demo_response)])
              (init demo_options))).
  exists demo_options,
    (demo_call ++ [TimerFires 2 5011 false;
                   SocketMessage 0 5012 (Parsed demo_response)]).
  reflexivity.
Defined.

(** X14: in every reachable state the expiry timer of every request in
    the table is armed and carries the token, the action, the timeout and
    the promise of that request, so that its firing removes the entry and
    rejects the promise with the timeout error; the handles kept for the
    reconnect timer and the heartbeat monitor are never the timer of a
    request. *)
Theorem pending_request_has_live_timer
  (w : World) (e : string) (pr : PendingRequest)
  (Hreach : reachable w) (Hin : (e, pr) ∈ pending w) :
  timers w !! timer pr
  = Some (RequestTimeout e (action pr) (timeoutMs pr) (promise pr))
  /\ reconnectTimer (self w) <> Some (timer pr)
  /\ heartbeatTimer (self w) <> Some (timer pr)
  /\ forall now ct,
       let w' := step (TimerFires (timer pr) now ct) w in
       trace w' = trace w
                  ++ [ Emit (ev_timeout (mkTimeoutEvent (action pr) e (timeoutMs pr)));
                       Reject (promise pr) (ActionTimeout (action pr) (timeoutMs pr)) ]
       /\ map_get e (pending w') = None.
Proof.
  pose proof (reachable_K w Hreach) as HK.
  pose proof (K_entry _ HK _ _ Hin) as Harm.
  split; [exact Harm|]. split; [|split].
  - intros H. destruct (K_reconnect _ HK _ H) as [_ Hn]. eapply Hn, Harm.
  - intros H. destruct (K_heartbeat _ HK _ H) as [_ Hn]. eapply Hn, Harm.
  - intros now ct w'. subst w'. cbn [step]. rewrite Harm. cbn [run_task].
    split.
    + cbn. rewrite <- !app_assoc. reflexivity.
    + unfold pending. cbn. apply map_get_delete_eq.
Qed.

Lemma pending_request_has_live_timer_witness :
  let w := run demo_call (init demo_options) in
  let pr := mkPending "send_group_msg" 5000 1 2 in
  timers w !! timer pr
  = Some (RequestTimeout "ob_11_1" (action pr) (timeoutMs pr) (promise pr))
  /\ reconnectTimer (self w) <> Some (timer pr)
  /\ heartbeatTimer (self w) <> Some (timer pr)
  /\ forall now ct,
       let w' := step (TimerFires (timer pr) now ct) w in
       trace w' = trace w
                  ++ [ Emit (ev_timeout
                               (mkTimeoutEvent (action pr) "ob_11_1" (timeoutMs pr)));
                       Reject (promise pr) (ActionTimeout (action pr) (timeoutMs pr)) ]
       /\ map_get "ob_11_1" (pending w') = None.
Proof.
  apply (pending_request_has_live_timer
           (run demo_call (init demo_options)) "ob_11_1"
           (mkPending "send_group_msg" 5000 1 2)).
  - exists demo_options, demo_call. reflexivity.
  - vm_compute. apply list_elem_of_here.
Defined.

(** X15: the token that [generateEcho] returns is the text [ob_], the
    clock, an underscore and the counter after its increment; the text
    determines the clock and the counter, the counter never decreases,
    and so a token differs from every token that the same client
    generates later, whatever happens in between and whatever the clock
    shows. *)
Theorem generateEcho_never_repeats (w : World) (now1 now2 : Z) (evs : list Event) :
  let first := generateEcho now1 w in
  let second := generateEcho now2 (run evs first.2) in
  first.1 = "ob_" +:+ of_Z now1 +:+ "_" +:+ of_Z (echoSeq (self w) + 1)
  /\ echoSeq (self first.2) = echoSeq (self w) + 1
  /\ echoSeq (self first.2) < echoSeq (self second.2)
  /\ second.1 <> first.1
  /\ (forall n1 s1 n2 s2,
        echo_token n1 s1 = echo_token n2 s2 -> n1 = n2 /\ s1 = s2).
Proof.
  intros first second. subst first second.
  split; [reflexivity|]. split; [reflexivity|]. split; [|split].
  - cbn [generateEcho fst snd].
    pose proof (seq_run evs (on_self (set_echoSeq (echoSeq (self w) + 1)) w)) as H.
    cbn in H |- *. lia.
  - apply generated_tokens_distinct.
  - apply echo_token_inj.
Qed.

Lemma map_delete_set {V : Type} k (v : V) m :
  map_delete k (map_set k v m) = map_delete k m.
Proof.
  induction m as [|[k' v'] m IH]; cbn [map_set map_delete].
  - rewrite String.eqb_refl. reflexivity.
  - destruct (String.eqb k' k) eqn:E; cbn [map_delete]; rewrite E.
    + reflexivity.
    + rewrite IH. reflexivity.
Qed.

(** X16: when [ws.send] throws inside [callAction], the call still
    returns its promise, and before returning it clears the timer it has
    just armed, deletes the entry it has just written and rejects the
    promise with the send error: nothing is sent, the armed timers are
    the same as before the call, and the table has no entry under the
    token, so a request that was pending under the same token has lost
    its entry without being settled. *)
Theorem callAction_send_failure
  (w : World) (s : SockId) (act : string) (params : option json)
  (ms : option number) (echo : option string) (now : Z)
  (Hreach : reachable w) (Hconn : connected w OPEN = Some s) :
  let timeout :=
    clampMs (default (of_int (requestTimeoutMs (options (self w)))) ms)
      (requestTimeoutMs (options (self w))) in
  let token := default (generateEcho now w).1 echo in
  let p := fresh w in
  let result := callAction act params ms echo OPEN now true w in
  let w' := result.2 in
  result.1 = Returned p
  /\ trace w' = trace w ++ [ Emit (ev_raw dir_out
                                     (RawRequest (mkRequest act params token)));
                             SetTimeout (S p) timeout;
                             ClearTimeout (S p);
                             Reject p (SendFailed act) ]
  /\ pending w' = map_delete token (pending w)
  /\ map_get token (pending w') = None
  /\ timers w' = timers w.
Proof.
  intros timeout token p result w'.
  pose proof (reachable_K w Hreach) as HK.
  assert (Hfree : timers w !! S p = None).
  { destruct (timers w !! S p) as [task|] eqn:E; [|reflexivity].
    pose proof (K_timers _ HK _ _ E). subst p. lia. }
  subst result w'. unfold connected in Hconn. unfold callAction.
  destruct (ws (self w)) as [s'|]; [|discriminate].
  destruct (state (self w)); try discriminate.
  destruct echo as [e|]; cbn [generateEcho default from_option id fst] in *;
    cbv zeta; fields; rewrite map_get_set_eq; fields;
    rewrite map_delete_set.
  all: split; [reflexivity|].
  all: split; [cbn; rewrite <- !app_assoc; reflexivity|].
  all: split; [reflexivity|].
  all: split; [apply map_get_delete_eq|].
  all: cbn; apply delete_insert_id; exact Hfree.
Qed.

Lemma callAction_send_failure_witness :
  let w := run demo_call (init demo_options) in
  let result := callAction "get_status" None None (Some "ob_11_1") OPEN 12 true w in
  let w' := result.2 in
  result.1 = Returned 3
  /\ trace w' = trace w ++ [ Emit (ev_raw dir_out
                                     (RawRequest (mkRequest "get_status" None "ob_11_1")));
                             SetTimeout 4 5000;
                             ClearTimeout 4;
                             Reject 3 (SendFailed "get_status") ]
  /\ pending w' = map_delete "ob_11_1" (pending w)
  /\ map_get "ob_11_1" (pending w') = None
  /\ timers w' = timers w.
Proof.
  apply (callAction_send_failure (run demo_call (init demo_options)) 0
           "get_status" None None (Some "ob_11_1") 12).
  - exists demo_options, demo_call. reflexivity.
  - vm_compute. reflexivity.
Defined.


(** ** The heartbeat monitor *)


(** X17: when a socket opens and a positive heartbeat timeout is
    configured, the client stops the monitor it had, if any, and arms one
    interval timer that checks every [max(1000, floor(timeout / 2))]
    milliseconds, so never more often than once a second; with no
    timeout, or one that is not positive, it keeps no monitor. *)
Theorem open_starts_heartbeat_monitor
  (w : World) (s : SockId) (l : SockLocals) (now : Z) :
  let w' := on_open s l now w in
  let stopped := match heartbeatTimer (self w) with
                 | Some t0 => [ClearInterval t0]
                 | None => []
                 end in
  lastInboundAt (self w') = now
  /\ match heartbeatTimeoutMs (options (self w)) with
     | Some ms =>
         if ms <=? 0 then heartbeatTimer (self w') = None
         else
           heartbeatTimer (self w') = Some (fresh w)
           /\ timers w' !! fresh w = Some (HeartbeatCheck ms)
           /\ 1000 <= Z.max 1000 (ms / 2)
           /\ exists after,
                trace w' = trace w ++ stopped
                           ++ [SetInterval (fresh w) (Z.max 1000 (ms / 2))]
                           ++ after
     | None => heartbeatTimer (self w') = None
     end.
Proof.
  intros w' stopped. subst w' stopped.
  unfold on_open, startHeartbeatMonitor. cbv zeta.
  rewrite stopHeartbeatMonitor_eq. fields.
  destruct (heartbeatTimeoutMs (options (self w))) as [ms|].
  2:{ unfold settle_connect. fields. destruct (settled l); fields; auto. }
  destruct (ms <=? 0) eqn:Hms.
  { unfold settle_connect. fields. destruct (settled l); fields; auto. }
  unfold settle_connect, setInterval. fields.
  destruct (settled l); fields.
  all: split; [reflexivity|]. all: split; [reflexivity|].
  all: split; [apply lookup_insert_eq|]. all: split; [lia|].
  all: eexists; rewrite <- !app_assoc; reflexivity.
Qed.





(** ** Inbound frames *)

(** The notifications of an event packet. *)
Definition is_event_notification (e : Effect) : bool :=
  match e with
  | Emit (ev_event _) | Emit (ev_message _) | Emit (ev_notice _)
  | Emit (ev_request _) | Emit (ev_meta_event _) => true
  | _ => false
  end.

Definition is_error_notification (e : Effect) : bool :=
  match e with
  | Emit (ev_error _) => true
  | _ => false
  end.

(** X19: [handleInbound] first emits one raw notification with what it
    received.  A frame that is not JSON then only raises the parse error.
    A packet with a string [status] and a numeric [retcode] is handled
    as a response and raises no event notification, also when it has a
    [post_type].  Every other frame leaves the client, its timers and
    every request promise as they were: an event packet raises the
    [event] notification and no error, anything else only the
    unsupported-payload error. *)
Theorem inbound_frame_is_classified (data : Inbound) (w : World) :
  let w' := handleInbound data w in
  exists rest,
    trace w' = trace w
               ++ Emit (ev_raw dir_in
                          match data with
                          | Unparseable text => RawText text
                          | Parsed payload => RawJson payload
                          end) :: rest
    /\ match data with
       | Unparseable _ =>
           rest = [Emit (ev_error ParseFailed)]
           /\ self w' = self w /\ timers w' = timers w
       | Parsed payload =>
           if isApiResponsePacket payload then
             hd_error rest = Some (Emit (ev_response payload))
             /\ occurrences is_event_notification rest = 0%nat
             /\ occurrences is_error_notification rest = 0%nat
           else
             self w' = self w /\ timers w' = timers w
             /\ settlements rest = []
             /\ if isEventPacket payload then
                  hd_error rest = Some (Emit (ev_event payload))
                  /\ occurrences is_error_notification rest = 0%nat
                else rest = [Emit (ev_error UnsupportedPayload)]
       end.
Proof.
  intros w'. subst w'.
  assert (Hself : forall e (v : World), self (emit e v) = self v) by reflexivity.
  assert (Htimers : forall e (v : World), timers (emit e v) = timers v) by reflexivity.
  assert (Htrace : forall e (v : World), trace (emit e v) = trace v ++ [Emit e])
    by reflexivity.
  destruct data as [text|payload]; cbn [handleInbound].
  { eexists. rewrite !Htrace, !Hself, !Htimers, <- !app_assoc.
    split; [reflexivity|]. auto. }
  destruct (isApiResponsePacket payload).
  - destruct (get_prop "echo" payload) as [[| | |echo| |]|].
    all: try (eexists; rewrite !Htrace, <- !app_assoc;
              split; [reflexivity|]; cbn; auto; fail).
    fields. destruct (map_get echo (pendingRequests (self w))) as [pr|].
    all: eexists; fields; rewrite <- !app_assoc; (split; [reflexivity|]);
      cbn; auto.
  - destruct (isEventPacket payload).
    + unfold dispatch_event.
      destruct (get_prop "post_type" payload) as [[| | |t| |]|].
      all: try (eexists; rewrite !Htrace, !Hself, !Htimers, <- !app_assoc;
                split; [reflexivity|]; cbn; auto; fail).
      destruct (String.eqb t "message");
        [|destruct (String.eqb t "notice");
          [|destruct (String.eqb t "request");
            [|destruct (String.eqb t "meta_event")]]].
      all: eexists; rewrite !Htrace, !Hself, !Htimers, <- !app_assoc;
        (split; [reflexivity|]); cbn; auto.
    + eexists. rewrite !Htrace, !Hself, !Htimers, <- !app_assoc.
      split; [reflexivity|]. auto.
Qed.

(** ** The options of the constructor *)

(** [clampMs(given ?? fallback, fallback)], as the constructor uses it. *)
Definition clamp_option (given : option number) (fallback : Z) : Z :=
  clampMs (default (of_int fallback) given) fallback.

Lemma clamp_option_spec given fallback :
  0 <= fallback ->
  0 <= clamp_option given fallback
  /\ match given with
     | None | Some NaN | Some PosInfinity | Some NegInfinity =>
         clamp_option given fallback = fallback
     | Some (Finite q) =>
         if Qle_bool 0 q
         then clamp_option given fallback = Qfloor q
              /\ (inject_Z (Qfloor q) <= q)%Q
              /\ (q < inject_Z (Qfloor q + 1))%Q
         else clamp_option given fallback = fallback
     end.
Proof.
  intros Hf. unfold clamp_option.
  destruct given as [[q| | |]|]; cbn [default from_option id clampMs].
  - destruct (Qle_bool 0 q) eqn:E; [|auto].
    split; [|split; [reflexivity|split; [apply Qfloor_le|apply Qlt_floor]]].
    apply Qle_bool_iff in E. rewrite <- (Qfloor_Z 0).
    apply Qfloor_resp_le, E.
  - auto.
  - auto.
  - auto.
  - rewrite clampMs_default. auto.
Qed.

(** X20: the constructor never keeps a negative, fractional or
    non-finite number in the four numeric options it reads.  When the
    defaults are not negative, each of the reconnect base delay, the
    reconnect attempt cap, the reconnect delay cap and the request
    timeout is a natural number: the number the caller gave rounded down
    when that is finite and not negative, and the default when the option
    is absent, negative, [NaN] or infinite. *)
Theorem constructor_clamps_options (d : Defaults) (o : OneBotWsClientOptions)
  (Hbase : 0 <= DEFAULT_RECONNECT_BASE_DELAY_MS d)
  (Hcap : 0 <= DEFAULT_RECONNECT_MAX_ATTEMPTS d)
  (Hmax : 0 <= DEFAULT_RECONNECT_MAX_DELAY_MS d)
  (Htime : 0 <= DEFAULT_REQUEST_TIMEOUT_MS d) :
  let r := resolve_options d o in
  let clamped (given : option number) (fallback result : Z) : Prop :=
    0 <= result
    /\ match given with
       | None | Some NaN | Some PosInfinity | Some NegInfinity => result = fallback
       | Some (Finite q) =>
           if Qle_bool 0 q
           then result = Qfloor q
                /\ (inject_Z result <= q)%Q /\ (q < inject_Z (result + 1))%Q
           else result = fallback
       end in
  clamped (raw_reconnectBaseDelayMs o) (DEFAULT_RECONNECT_BASE_DELAY_MS d)
    (reconnectBaseDelayMs r)
  /\ clamped (raw_reconnectMaxAttempts o) (DEFAULT_RECONNECT_MAX_ATTEMPTS d)
       (reconnectMaxAttempts r)
  /\ clamped (raw_reconnectMaxDelayMs o) (DEFAULT_RECONNECT_MAX_DELAY_MS d)
       (reconnectMaxDelayMs r)
  /\ clamped (raw_requestTimeoutMs o) (DEFAULT_REQUEST_TIMEOUT_MS d)
       (requestTimeoutMs r)
  /\ reconnect r = default (DEFAULT_RECONNECT_ENABLED d) (raw_reconnect o)
  /\ url r = raw_url o.
Proof.
  intros r clamped. subst r clamped. cbn [resolve_options reconnectBaseDelayMs
    reconnectMaxAttempts reconnectMaxDelayMs requestTimeoutMs reconnect url].
  assert (H : forall given fallback, 0 <= fallback ->
            0 <= clampMs (default (of_int fallback) given) fallback
            /\ match given with
               | None | Some NaN | Some PosInfinity | Some NegInfinity =>
                   clampMs (default (of_int fallback) given) fallback = fallback
               | Some (Finite q) =>
                   if Qle_bool 0 q
                   then clampMs (default (of_int fallback) given) fallback = Qfloor q
                        /\ (inject_Z (clampMs (default (of_int fallback) given) fallback) <= q)%Q
                        /\ (q < inject_Z (clampMs (default (of_int fallback) given) fallback + 1))%Q
                   else clampMs (default (of_int fallback) given) fallback = fallback
               end).
  { intros given fallback Hf.
    destruct (clamp_option_spec given fallback Hf) as [H0 H1].
    unfold clamp_option in *. split; [exact H0|].
    destruct given as [[q| | |]|]; try exact H1.
    destruct (Qle_bool 0 q); [|exact H1].
    destruct H1 as (H1 & H2 & H3). rewrite H1. auto. }
  repeat split; try apply H; try assumption; reflexivity.
Qed.

(** Sample defaults, and a caller who gives a fractional timeout, a
    negative delay cap and [NaN] attempts. *)
Definition sample_defaults : Defaults := mkDefaults true 1000 10 30000 10000.

Definition odd_options : OneBotWsClientOptions :=
  mkRawOptions "ws://127.0.0.1:3001" None None None (Some NaN)
    (Some (Finite (-5 # 1))) (Some (Finite (2501 # 2))) None.

Lemma constructor_clamps_options_witness :
  resolve_options sample_defaults odd_options
  = mkOptions "ws://127.0.0.1:3001" None true 1000 10 30000 1250 None
  /\ let r := resolve_options sample_defaults odd_options in
     let clamped (given : option number) (fallback result : Z) : Prop :=
       0 <= result
       /\ match given with
          | None | Some NaN | Some PosInfinity | Some NegInfinity => result = fallback
          | Some (Finite q) =>
              if Qle_bool 0 q
              then result = Qfloor q
                   /\ (inject_Z result <= q)%Q /\ (q < inject_Z (result + 1))%Q
              else result = fallback
          end in
     clamped (raw_reconnectBaseDelayMs odd_options) 1000 (reconnectBaseDelayMs r)
     /\ clamped (raw_reconnectMaxAttempts odd_options) 10 (reconnectMaxAttempts r)
     /\ clamped (raw_reconnectMaxDelayMs odd_options) 30000 (reconnectMaxDelayMs r)
     /\ clamped (raw_requestTimeoutMs odd_options) 10000 (requestTimeoutMs r)
     /\ reconnect r = default true (raw_reconnect odd_options)
     /\ url r = raw_url odd_options.
Proof.
  split; [vm_compute; reflexivity|].
  apply (constructor_clamps_options sample_defaults odd_options);
    vm_compute; discriminate.
Defined.

(** ** The backoff of reconnection *)





(** ** When nothing reconnects *)

Definition is_reconnecting (e : Effect) : bool :=
  match e with
  | Emit (ev_reconnecting _) => true
  | _ => false
  end.

Definition is_new_socket (e : Effect) : bool :=
  match e with
  | NewWebSocket _ _ _ => true
  | _ => false
  end.

(** No armed timer is a reconnect timer. *)
Definition no_fire (tm : gmap nat TimerTask) : Prop :=
  forall t n, tm !! t <> Some (ReconnectFire n).

(** The reconnect machinery is at rest: the client was closed by its
    user or has reconnection switched off, no reconnect timer is armed,
    no [.catch] of a reconnect attempt is queued or can still be queued,
    and the state is not [reconnecting]. *)
Record dormant (w : World) : Prop := mkDormant {
  dm_guard : manuallyClosed (self w) = true
             \/ reconnect (options (self w)) = false;
  dm_timer : reconnectTimer (self w) = None;
  dm_fire : no_fire (timers w);
  dm_jobs : catchJobs w = 0%nat;
  dm_catchers : forall s l,
    sockets w !! s = Some l -> settled l = false -> catchers l = 0%nat;
  dm_state : state (self w) <> reconnecting;
}.

(** A move that keeps the machinery at rest, announces no reconnect and
    creates no socket. *)
Definition rests (w w' : World) : Prop :=
  dormant w ->
  dormant w'
  /\ occurrences is_reconnecting (trace w') = occurrences is_reconnecting (trace w)
  /\ occurrences is_new_socket (trace w') = occurrences is_new_socket (trace w).

Lemma rests_refl w : rests w w.
Proof. intros H. auto. Qed.

Lemma rests_trans w1 w2 w3 : rests w1 w2 -> rests w2 w3 -> rests w1 w3.
Proof.
  intros H12 H23 H1. destruct (H12 H1) as (H2 & E1 & E2).
  destruct (H23 H2) as (H3 & E3 & E4). split; [exact H3|]. split; congruence.
Qed.

Lemma no_fire_delete tm t : no_fire tm -> no_fire (delete t tm).
Proof.
  intros H t' n E. apply lookup_delete_Some in E as [_ E]. exact (H _ _ E).
Qed.

Lemma no_fire_insert tm t task :
  (forall n, task <> ReconnectFire n) -> no_fire tm -> no_fire (<[t := task]> tm).
Proof.
  intros Ht H t' n E. apply lookup_insert_Some in E as [[_ E]|[_ E]].
  - exact (Ht _ E).
  - exact (H _ _ E).
Qed.

Lemma no_fire_cleared entries : forall tm, no_fire tm -> no_fire (cleared entries tm).
Proof.
  induction entries as [|x rest IH]; intros tm H; [exact H|].
  cbn [cleared fold_left]. apply IH, no_fire_delete, H.
Qed.

Lemma no_fire_handle_gone (h : option TimerId) tm :
  no_fire tm ->
  no_fire match h with Some t => delete t tm | None => tm end.
Proof. intros H. destruct h; [apply no_fire_delete|]; exact H. Qed.

Lemma occurrences_rejections f error entries :
  (forall t, f (ClearTimeout t) = false) ->
  (forall p, f (Reject p error) = false) ->
  occurrences f (rejections error entries) = 0%nat.
Proof.
  intros H1 H2. induction entries as [|x rest IH]; [reflexivity|].
  cbn [rejections flat_map app occurrences]. rewrite H1, H2. exact IH.
Qed.

Lemma occurrences_handle f (h : option TimerId) (g : TimerId -> Effect) :
  (forall t, f (g t) = false) ->
  occurrences f match h with Some t => [g t] | None => [] end = 0%nat.
Proof. intros H. destruct h; cbn; rewrite ?H; reflexivity. Qed.

(** Counting in a trace written out by the field equations. *)
Ltac count :=
  repeat first
    [ rewrite occurrences_app
    | rewrite occurrences_rejections by reflexivity
    | rewrite (occurrences_handle _ _ ClearTimeout) by reflexivity
    | rewrite (occurrences_handle _ _ ClearInterval) by reflexivity ];
  cbn [occurrences is_reconnecting is_new_socket]; lia.

(** A move that leaves the flags, the options, the reconnect handle, the
    queue and the sockets alone. *)
Lemma rests_frame w w' :
  manuallyClosed (self w') = manuallyClosed (self w) ->
  options (self w') = options (self w) ->
  reconnectTimer (self w') = reconnectTimer (self w) ->
  (no_fire (timers w) -> no_fire (timers w')) ->
  catchJobs w' = catchJobs w ->
  sockets w' = sockets w ->
  (state (self w) <> reconnecting -> state (self w') <> reconnecting) ->
  occurrences is_reconnecting (trace w') = occurrences is_reconnecting (trace w) ->
  occurrences is_new_socket (trace w') = occurrences is_new_socket (trace w) ->
  rests w w'.
Proof.
  intros Hm Ho Hr Ht Hj Hs Hst E1 E2 [G T F J C S].
  split; [|auto]. split; rewrite ?Hm, ?Ho, ?Hr, ?Hj, ?Hs; auto.
Qed.

Ltac keep_no_fire :=
  let F := fresh "F" in
  intros F;
  repeat first [ apply no_fire_cleared | apply no_fire_handle_gone
               | apply no_fire_delete
               | apply no_fire_insert; [discriminate|] ];
  exact F.

Ltac frame :=
  apply rests_frame; fields; try reflexivity; auto;
  try (intros _; discriminate); try keep_no_fire; try count.

Lemma rests_clearReconnectTimer w : rests w (clearReconnectTimer w).
Proof.
  intros H. unfold clearReconnectTimer. rewrite (dm_timer _ H).
  apply rests_refl, H.
Qed.

Lemma rests_stopHeartbeatMonitor w : rests w (stopHeartbeatMonitor w).
Proof.
  rewrite stopHeartbeatMonitor_eq. apply rests_frame; fields;
    try reflexivity; auto.
  - apply no_fire_handle_gone.
  - count.
  - count.
Qed.

Lemma rests_startHeartbeatMonitor w : rests w (startHeartbeatMonitor w).
Proof.
  unfold startHeartbeatMonitor. cbv zeta.
  eapply rests_trans; [apply rests_stopHeartbeatMonitor|].
  set (w1 := stopHeartbeatMonitor w).
  destruct (heartbeatTimeoutMs (options (self w1))) as [ms|]; [|apply rests_refl].
  destruct (ms <=? 0); [apply rests_refl|].
  unfold setInterval. apply rests_frame; fields; try reflexivity; auto.
  - apply no_fire_insert. discriminate.
  - count.
  - count.
Qed.

Lemma rests_rejectAllPending error w : rests w (rejectAllPending error w).
Proof.
  rewrite rejectAllPending_eq. apply rests_frame; fields; try reflexivity; auto.
  - apply no_fire_cleared.
  - count.
  - count.
Qed.

Lemma rests_handleSocketClose event random w :
  rests w (handleSocketClose event random w).
Proof.
  intros H. unfold handleSocketClose. cbv zeta.
  set (w3 := rejectAllPending _ _).
  assert (H3 : rests w w3).
  { subst w3. rewrite rejectAllPending_eq, stopHeartbeatMonitor_eq.
    apply rests_frame; fields; try reflexivity.
    - intros F. apply no_fire_cleared, no_fire_handle_gone, F.
    - discriminate.
    - count.
    - count. }
  assert (Em : manuallyClosed (self w3) = manuallyClosed (self w))
    by (subst w3; rewrite rejectAllPending_eq, stopHeartbeatMonitor_eq; reflexivity).
  assert (Eo : options (self w3) = options (self w))
    by (subst w3; rewrite rejectAllPending_eq, stopHeartbeatMonitor_eq; reflexivity).
  rewrite Em, Eo. revert H.
  destruct (manuallyClosed (self w)) eqn:E1; [exact H3|].
  destruct (reconnect (options (self w))) eqn:E2; [|exact H3].
  intros H. destruct (dm_guard _ H); congruence.
Qed.

Lemma rests_handleInbound data w : rests w (handleInbound data w).
Proof.
  unfold handleInbound, dispatch_event.
  break_matches; apply rests_frame; fields; try reflexivity; auto;
    try apply no_fire_delete; count.
Qed.

Lemma rests_settle_connect s l error w :
  (settled l = false -> catchers l = 0%nat) ->
  rests w (settle_connect s l error w).
Proof.
  intros Hl. unfold settle_connect.
  destruct (settled l) eqn:Es; [apply rests_refl|].
  specialize (Hl eq_refl). intros [G T F J C S].
  destruct error as [e|]; fields; rewrite ?Hl, ?Nat.add_0_r.
  all: split; [split; fields; auto|split; count].
  all: intros s' l' E Hs'; apply lookup_insert_Some in E as [[_ <-]|[_ E]];
    [discriminate Hs'|exact (C _ _ E Hs')].
Qed.

Lemma dormant_sockets_insert w s l l' :
  sockets w !! s = Some l ->
  settled l' = settled l -> catchers l' = catchers l ->
  rests w (set_sockets (<[s := l']> (sockets w)) w).
Proof.
  intros Hs Hst Hc [G T F J C S]. split; [|auto].
  split; fields; auto.
  intros s' l0 E H0. apply lookup_insert_Some in E as [[<- <-]|[_ E]].
  - rewrite Hc. apply (C _ _ Hs). congruence.
  - exact (C _ _ E H0).
Qed.

Lemma rests_on_open s l now w :
  sockets w !! s = Some l -> rests w (on_open s l now w).
Proof.
  intros Hs. unfold on_open. cbv zeta.
  set (l1 := mkLocals true (settled l) (catchers l) (closeWaiters l)).
  set (w1 := set_sockets (<[s := l1]> (sockets w)) w).
  assert (H1 : rests w w1) by (apply (dormant_sockets_insert w s l l1 Hs); reflexivity).
  set (w2 := on_self (set_lastInboundAt now) (on_self (set_reconnectAttempt 0) w1)).
  assert (H2 : rests w1 w2) by (apply rests_frame; fields; try reflexivity; auto).
  set (w3 := startHeartbeatMonitor w2).
  assert (H3 : rests w2 w3) by apply rests_startHeartbeatMonitor.
  set (w4 := emit ev_open (transitionTo open w3)).
  assert (H4 : rests w3 w4).
  { subst w4. apply rests_frame; fields; try reflexivity; auto;
      try (intros _; discriminate); count. }
  intros H. pose proof H as H0. revert H.
  eapply rests_trans; [exact H1|]. eapply rests_trans; [exact H2|].
  eapply rests_trans; [exact H3|]. eapply rests_trans; [exact H4|].
  apply rests_settle_connect. subst l1. cbn [settled catchers].
  intros E. apply (dm_catchers _ H0 s l Hs E).
Qed.

Lemma rests_on_error s l w :
  sockets w !! s = Some l -> rests w (on_error s l w).
Proof.
  intros Hs H. pose proof H as H0. revert H. unfold on_error. cbv zeta.
  set (w1 := emit (ev_error WebSocketError) w).
  assert (H1 : rests w w1)
    by (subst w1; apply rests_frame; fields; try reflexivity; auto; count).
  destruct (opened l); [exact H1|].
  eapply rests_trans; [exact H1|]. apply rests_settle_connect.
  intros E. apply (dm_catchers _ H0 s l Hs E).
Qed.

Lemma rests_on_close s l code reason random w :
  sockets w !! s = Some l -> rests w (on_close s l code reason random w).
Proof.
  intros Hs H. pose proof H as H0. revert H. unfold on_close. cbv zeta.
  set (w1 := handleSocketClose _ random w).
  assert (H1 : rests w w1) by apply rests_handleSocketClose.
  set (w2 := if opened l then w1 else settle_connect s l _ w1).
  assert (H2 : rests w w2).
  { subst w2. destruct (opened l); [exact H1|].
    eapply rests_trans; [exact H1|]. apply rests_settle_connect.
    intros E. apply (dm_catchers _ H0 s l Hs E). }
  destruct (sockets w2 !! s) as [l'|] eqn:E; [|exact H2].
  eapply rests_trans; [exact H2|].
  eapply rests_trans;
    [apply (dormant_sockets_insert w2 s l'
              (mkLocals (opened l') (settled l') (catchers l') 0) E); reflexivity|].
  frame.
Qed.

Lemma rests_disconnect_resume w : rests w (disconnect_resume w).
Proof.
  unfold disconnect_resume. rewrite rejectAllPending_eq. frame.
Qed.

Lemma rests_disconnect code reason readyState close_throws w :
  rests w (disconnect code reason readyState close_throws w).
Proof.
  intros H. pose proof (dm_timer _ H) as Ht. revert H.
  unfold disconnect. cbv zeta.
  assert (E : clearReconnectTimer (on_self (set_manuallyClosed true) w)
              = on_self (set_manuallyClosed true) w)
    by (unfold clearReconnectTimer; fields; rewrite Ht; reflexivity).
  rewrite !E, ?rejectAllPending_eq, ?stopHeartbeatMonitor_eq. fields.
  intros [G T F J C S].
  destruct (ws (self w)) as [s|]; [destruct readyState, close_throws|].
  all: rewrite ?rejectAllPending_eq; fields.
  all: split; [split; fields; auto|split; count].
  all: try (apply no_fire_cleared); try (apply no_fire_handle_gone, F);
    try discriminate.
  all: intros s' l' E' Hs';
    apply lookup_alter_Some in E' as [(_ & l0 & E' & ->)|[_ E']];
    [apply (C _ _ E' Hs')|apply (C _ _ E' Hs')].
Qed.

Lemma rests_callAction action params timeoutMs echo readyState now send_throws w :
  rests w (callAction action params timeoutMs echo readyState now send_throws w).2.
Proof.
  unfold callAction.
  destruct (ws (self w)); [|apply rests_refl].
  destruct (state (self w)) eqn:Est; try apply rests_refl.
  destruct readyState; try apply rests_refl.
  destruct echo; cbn [generateEcho]; destruct send_throws; cbn [snd];
    unfold setTimeout; fields; rewrite ?map_get_set_eq; fields.
  all: frame; rewrite Est; discriminate.
Qed.

Lemma rests_run_task t task now ct w :
  timers w !! t = Some task -> rests w (run_task t task now ct w).
Proof.
  intros Ht H. pose proof (dm_fire _ H) as F. revert H.
  destruct task as [e a m p|n|ms]; cbn [run_task].
  - frame.
  - exfalso. exact (F _ _ Ht).
  - break_matches; try apply rests_refl; frame.
Qed.

(** Every event but a call of [connect] keeps the machinery at rest. *)
Lemma rests_step ev w : ev <> CallConnect -> rests w (step ev w).
Proof.
  intros Hev. destruct ev; cbn [step]; try congruence.
  - apply rests_disconnect.
  - apply rests_callAction.
  - destruct (sockets w !! s) eqn:E; [|apply rests_refl].
    apply rests_on_open, E.
  - destruct (sockets w !! s); [|apply rests_refl].
    unfold on_message. eapply rests_trans; [|apply rests_handleInbound].
    frame.
  - destruct (sockets w !! s) eqn:E; [|apply rests_refl].
    apply rests_on_error, E.
  - destruct (sockets w !! s) eqn:E; [|apply rests_refl].
    apply rests_on_close, E.
  - destruct (timers w !! t) eqn:E; [|apply rests_refl].
    apply rests_run_task, E.
  - intros H. rewrite (dm_jobs _ H). apply rests_refl, H.
  - destruct (resumeJobs w); [apply rests_refl|].
    eapply rests_trans; [|apply rests_disconnect_resume].
    frame.
Qed.


(** *** The options never change *)

Lemma options_scheduleReconnect reason random w :
  options (self (scheduleReconnect reason random w)) = options (self w).
Proof. unfold scheduleReconnect. break_matches; reflexivity. Qed.

Lemma options_startHeartbeatMonitor w :
  options (self (startHeartbeatMonitor w)) = options (self w).
Proof.
  unfold startHeartbeatMonitor. cbv zeta. rewrite stopHeartbeatMonitor_eq.
  break_matches; reflexivity.
Qed.

Lemma options_handleSocketClose event random w :
  options (self (handleSocketClose event random w)) = options (self w).
Proof.
  unfold handleSocketClose. cbv zeta.
  rewrite rejectAllPending_eq, stopHeartbeatMonitor_eq.
  break_matches; rewrite ?options_scheduleReconnect; reflexivity.
Qed.

Lemma options_handleInbound data w :
  options (self (handleInbound data w)) = options (self w).
Proof. unfold handleInbound, dispatch_event. break_matches; reflexivity. Qed.

Lemma options_settle_connect s l error w :
  options (self (settle_connect s l error w)) = options (self w).
Proof. unfold settle_connect. break_matches; reflexivity. Qed.

Lemma options_connect via w : options (self (connect via w)) = options (self w).
Proof.
  unfold connect. cbv zeta. rewrite clearReconnectTimer_eq.
  break_matches; reflexivity.
Qed.

Lemma options_on_open s l now w :
  options (self (on_open s l now w)) = options (self w).
Proof.
  unfold on_open. cbv zeta.
  rewrite options_settle_connect. fields.
  rewrite options_startHeartbeatMonitor. reflexivity.
Qed.

Lemma options_on_close s l code reason random w :
  options (self (on_close s l code reason random w)) = options (self w).
Proof.
  unfold on_close. cbv zeta.
  break_matches; fields; rewrite ?options_settle_connect;
    apply options_handleSocketClose.
Qed.

Lemma options_disconnect code reason readyState close_throws w :
  options (self (disconnect code reason readyState close_throws w))
  = options (self w).
Proof.
  unfold disconnect. cbv zeta.
  rewrite ?rejectAllPending_eq, ?stopHeartbeatMonitor_eq, ?clearReconnectTimer_eq.
  fields. break_matches; rewrite ?rejectAllPending_eq; reflexivity.
Qed.

Lemma options_callAction action params timeoutMs echo readyState now send_throws w :
  options (self (callAction action params timeoutMs echo readyState now
                   send_throws w).2)
  = options (self w).
Proof.
  unfold callAction.
  destruct (ws (self w)); [|reflexivity].
  destruct (state (self w)); try reflexivity.
  destruct readyState; try reflexivity.
  destruct echo; cbn [generateEcho]; destruct send_throws; cbn [snd];
    break_matches; reflexivity.
Qed.

Lemma options_step ev w : options (self (step ev w)) = options (self w).
Proof.
  destruct ev; cbn [step].
  - apply options_connect.
  - apply options_disconnect.
  - apply options_callAction.
  - destruct (sockets w !! s); [apply options_on_open|reflexivity].
  - destruct (sockets w !! s); [|reflexivity].
    unfold on_message. rewrite options_handleInbound. reflexivity.
  - destruct (sockets w !! s); [|reflexivity].
    unfold on_error. cbv zeta. break_matches;
      rewrite ?options_settle_connect; reflexivity.
  - destruct (sockets w !! s); [apply options_on_close|reflexivity].
  - destruct (timers w !! t) as [[e a m p|n|ms]|]; try reflexivity.
    + cbn [run_task]. rewrite options_connect. reflexivity.
    + cbn [run_task]. break_matches; reflexivity.
  - destruct (catchJobs w); [reflexivity|].
    unfold connect_catch. rewrite options_scheduleReconnect. reflexivity.
  - destruct (resumeJobs w); [reflexivity|].
    unfold disconnect_resume. rewrite rejectAllPending_eq. reflexivity.
Qed.

Lemma options_run evs : forall w, options (self (run evs w)) = options (self w).
Proof.
  induction evs as [|ev evs IH]; intros w; [reflexivity|].
  cbn [run fold_left]. fold (run evs (step ev w)).
  rewrite IH. apply options_step.
Qed.

(** A call of [connect] on a client without reconnection keeps the
    machinery at rest. *)
Lemma dormant_connect w :
  reconnect (options (self w)) = false ->
  dormant w ->
  dormant (connect false w)
  /\ occurrences is_reconnecting (trace (connect false w))
     = occurrences is_reconnecting (trace w).
Proof.
  intros Hoff H. unfold connect. cbv zeta.
  destruct (state (self w)) eqn:Est; try (split; [exact H|reflexivity]).
  all: destruct (connectPromise (self w)); [split; [exact H|reflexivity]|].
  all: unfold clearReconnectTimer; fields; rewrite (dm_timer _ H); fields.
  all: destruct H as [G T F J C S].
  all: split; [split; fields; auto; try discriminate|count].
  all: intros s' l' E' Hs'; apply lookup_insert_Some in E' as [[_ <-]|[_ E']];
    [reflexivity|apply (C _ _ E' Hs')].
Qed.

Lemma dormant_off_step ev w :
  reconnect (options (self w)) = false ->
  dormant w ->
  dormant (step ev w)
  /\ occurrences is_reconnecting (trace (step ev w))
     = occurrences is_reconnecting (trace w).
Proof.
  intros Hoff H.
  assert (Hev : ev = CallConnect \/ ev <> CallConnect)
    by (destruct ev; (left; reflexivity) || (right; discriminate)).
  destruct Hev as [->|Hev].
  - apply dormant_connect; assumption.
  - destruct (rests_step ev w Hev H) as (H1 & H2 & _). auto.
Qed.

Lemma dormant_off_run evs : forall w,
  reconnect (options (self w)) = false ->
  dormant w ->
  dormant (run evs w)
  /\ occurrences is_reconnecting (trace (run evs w))
     = occurrences is_reconnecting (trace w).
Proof.
  induction evs as [|ev evs IH]; intros w Hoff H; [auto|].
  cbn [run fold_left]. fold (run evs (step ev w)).
  destruct (dormant_off_step ev w Hoff H) as [H1 E1].
  destruct (IH (step ev w)) as [H2 E2]; [rewrite options_step; exact Hoff|exact H1|].
  split; [exact H2|congruence].
Qed.

Lemma dormant_init o : reconnect o = false -> dormant (init o).
Proof.
  intros Hoff. split; cbn; auto; try discriminate.
Qed.

Lemma rests_run evs : forall w,
  Forall (fun ev => ev <> CallConnect) evs -> rests w (run evs w).
Proof.
  induction evs as [|ev evs IH]; intros w Hevs; [apply rests_refl|].
  cbn [run fold_left]. fold (run evs (step ev w)).
  inversion Hevs as [|? ? Hev Hrest]; subst.
  eapply rests_trans; [apply rests_step; exact Hev|apply IH; exact Hrest].
Qed.

Definition off_options : Options :=
  mkOptions "ws://127.0.0.1:3001" None false 1000 3 30000 5000 (Some 2000).

(** A client without reconnection that connects, loses its socket,
    is told of a socket error, lets timers and continuations run and
    connects again. *)
Definition off_events : list Event :=
  [CallConnect; SocketOpen 0 10; SocketClose 0 1006 "" 0.5%Q;
   RunConnectCatch 0.5%Q; TimerFires 0 20 false; CallConnect; SocketError 1;
   SocketClose 1 1006 "" 0.5%Q; RunConnectCatch 0.5%Q].

(** The demo client after its user closed it: [disconnect] was called
    on the open socket and the socket has closed. *)
Definition demo_closed : World :=
  run (demo_open ++ [CallDisconnect 1000 "bye" OPEN false;
                     SocketClose 0 1000 "bye" 0.5%Q])
    (init demo_options).

Lemma demo_closed_dormant : dormant demo_closed.
Proof.
  assert (Et : timers demo_closed = ∅) by (vm_compute; reflexivity).
  assert (Es : sockets demo_closed = {[ 0%nat := mkLocals true true 0 0 ]})
    by (vm_compute; reflexivity).
  split.
  - left. vm_compute. reflexivity.
  - vm_compute. reflexivity.
  - intros t n. rewrite Et, lookup_empty. discriminate.
  - vm_compute. reflexivity.
  - intros s l E. rewrite Es in E. apply lookup_singleton_Some in E as [_ <-].
    discriminate.
  - vm_compute. discriminate.
Qed.

(** X24: a client built with [reconnect] switched off never reconnects,
    whatever happens to it: after any events from the initial state it
    has announced no [reconnecting] event, is not in state
    [reconnecting], holds no reconnect timer and no armed timer is a
    reconnect timer. *)
Theorem reconnect_disabled_never_reconnects (o : Options) (evs : list Event) :
  reconnect o = false ->
  let w := run evs (init o) in
  occurrences is_reconnecting (trace w) = 0%nat
  /\ state (self w) <> reconnecting
  /\ reconnectTimer (self w) = None
  /\ no_fire (timers w).
Proof.
  intros Hoff w.
  destruct (dormant_off_run evs (init o) Hoff (dormant_init o Hoff)) as [H E].
  fold w in H, E. destruct H as [G T F J C S].
  repeat split; assumption.
Qed.

Lemma reconnect_disabled_never_reconnects_witness :
  reconnect off_options = false
  /\ let w := run off_events (init off_options) in
     occurrences is_reconnecting (trace w) = 0%nat
     /\ state (self w) <> reconnecting
     /\ reconnectTimer (self w) = None
     /\ no_fire (timers w).
Proof.
  split; [reflexivity|].
  apply (reconnect_disabled_never_reconnects off_options off_events).
  reflexivity.
Defined.

(** X25: once the reconnect machinery is at rest (the client was closed
    by its user or has reconnection off, no reconnect timer is armed and
    no reconnect attempt is in flight), only a call of [connect] wakes
    it: any other events open no socket, announce no [reconnecting]
    event and leave the machinery at rest. *)
Theorem only_connect_wakes_a_resting_client (w : World) (evs : list Event) :
  dormant w ->
  Forall (fun ev => ev <> CallConnect) evs ->
  let w' := run evs w in
  dormant w'
  /\ occurrences is_new_socket (trace w') = occurrences is_new_socket (trace w)
  /\ occurrences is_reconnecting (trace w')
     = occurrences is_reconnecting (trace w).
Proof.
  intros H Hevs w'.
  destruct (rests_run evs w Hevs H) as (H1 & E1 & E2).
  auto.
Qed.

Lemma only_connect_wakes_a_resting_client_witness :
  dormant demo_closed
  /\ let w' := run [RunDisconnectResume; SocketClose 0 1006 "" 0.5%Q;
                    RunConnectCatch 0.5%Q; TimerFires 0 99 false;
                    SocketError 0] demo_closed in
     dormant w'
     /\ occurrences is_new_socket (trace w')
        = occurrences is_new_socket (trace demo_closed)
     /\ occurrences is_reconnecting (trace w')
        = occurrences is_reconnecting (trace demo_closed).
Proof.
  split; [exact demo_closed_dormant|].
  apply (only_connect_wakes_a_resting_client demo_closed);
    [exact demo_closed_dormant|].
  repeat constructor; discriminate.
Defined.


(** ** A reconnect attempt outlives [disconnect] *)

(** The client was closed by its user while attempt number [n] was the
    last one made. *)
Record abandoned (n : Z) (o : Options) (w : World) : Prop := mkAbandoned {
  ab_manual : manuallyClosed (self w) = true;
  ab_timer : reconnectTimer (self w) = None;
  ab_attempt : reconnectAttempt (self w) = n;
  ab_options : options (self w) = o;
}.

Lemma abandoned_disconnect w s l code reason readyState :
  ws (self w) = Some s -> sockets w !! s = Some l -> readyState <> CLOSED ->
  let w1 := disconnect code reason readyState false w in
  abandoned (reconnectAttempt (self w)) (options (self w)) w1
  /\ sockets w1 !! s = Some (add_closeWaiter l)
  /\ catchJobs w1 = catchJobs w.
Proof.
  intros Hws Hs Hrs.
  rewrite (disconnect_open_or_closed _ _ _ _ _ Hrs), (disconnect_waits _ _ _ _ s Hws).
  cbv zeta. rewrite stopHeartbeatMonitor_eq, clearReconnectTimer_eq. fields.
  split; [split; reflexivity|]. split; [|reflexivity].
  rewrite lookup_alter_eq, Hs. reflexivity.
Qed.

Lemma abandoned_on_close n o w s l code reason random :
  abandoned n o w -> sockets w !! s = Some l ->
  opened l = false -> settled l = false ->
  let w2 := on_close s l code reason random w in
  abandoned n o w2
  /\ catchJobs w2 = (catchJobs w + catchers l)%nat
  /\ resumeJobs w2 = (resumeJobs w + closeWaiters l)%nat
  /\ connectPromise (self w2) = None.
Proof.
  intros [Hm Ht Ha Ho] Hs Hop Hse. unfold on_close. cbv zeta.
  rewrite (handleSocketClose_manual _ _ _ Hm), Hop.
  unfold settle_connect. rewrite Hse.
  rewrite rejectAllPending_eq, stopHeartbeatMonitor_eq. fields.
  rewrite lookup_insert_eq. fields.
  split; [split; assumption|]. repeat split; reflexivity.
Qed.

Lemma abandoned_resume n o w k :
  abandoned n o w ->
  let w3 := disconnect_resume (set_resumeJobs k w) in
  abandoned n o w3
  /\ catchJobs w3 = catchJobs w
  /\ connectPromise (self w3) = connectPromise (self w)
  /\ last (trace w3) = Some DisconnectReturned.
Proof.
  intros [Hm Ht Ha Ho]. unfold disconnect_resume. cbv zeta.
  rewrite rejectAllPending_eq. fields.
  split; [split; assumption|]. split; [reflexivity|]. split; [reflexivity|].
  apply last_snoc.
Qed.

Lemma abandoned_catch n o w k random :
  abandoned n o w -> n + 1 <= reconnectMaxAttempts o ->
  let w4 := connect_catch random (set_catchJobs k w) in
  manuallyClosed (self w4) = true
  /\ state (self w4) = reconnecting
  /\ reconnectTimer (self w4) = Some (fresh w)
  /\ timers w4 !! fresh w = Some (ReconnectFire (n + 1))
  /\ connectPromise (self w4) = connectPromise (self w)
  /\ options (self w4) = o.
Proof.
  intros [Hm Ht Ha Ho] Hle. unfold connect_catch, scheduleReconnect. cbv zeta.
  fields. rewrite Ht, Ha, Ho.
  assert (E : (reconnectMaxAttempts o <? n + 1) = false) by (apply Z.ltb_ge; lia).
  rewrite E. unfold setTimeout. fields.
  rewrite lookup_insert_eq. auto 7.
Qed.

Lemma reconnect_timer_fires w t n now close_throws :
  timers w !! t = Some (ReconnectFire n) ->
  state (self w) = reconnecting -> connectPromise (self w) = None ->
  let w5 := step (TimerFires t now close_throws) w in
  manuallyClosed (self w5) = false
  /\ state (self w5) = connecting
  /\ ws (self w5) = Some (fresh w)
  /\ last (trace w5)
     = Some (NewWebSocket (fresh w) (url (options (self w)))
               (authorization (options (self w)))).
Proof.
  intros Ht Hst Hcp. cbn [step]. rewrite Ht. cbn [run_task].
  unfold connect. fields. rewrite Hst, Hcp. cbv zeta.
  rewrite clearReconnectTimer_eq. fields.
  repeat split; try reflexivity. apply last_snoc.
Qed.

(** A reconnect attempt in flight: the sample client lost its socket
    and its reconnect timer has fired. *)
Definition demo_retrying : World :=
  run (demo_open ++ [SocketClose 0 1006 "" 0.5%Q; TimerFires 1 2000 false])
    (init demo_options).

(** X26: [disconnect()] does not cancel a reconnect attempt that is
    still connecting.  When the attempt's socket closes, [disconnect()]
    returns, and the attempt's [.catch] handler then schedules the next
    reconnect although the client is marked as closed by its user: the
    state is [reconnecting], a reconnect timer is armed, and when it
    fires the client opens a new socket. *)
Theorem reconnect_attempt_outlives_disconnect
        (w : World) (s : SockId) (l : SockLocals) (code : Z) (reason : string)
        (readyState : ReadyState) (c : Z) (r : string) (random random' : Q)
        (now : Z) (close_throws : bool) :
  ws (self w) = Some s ->
  sockets w !! s = Some l ->
  opened l = false -> settled l = false -> (0 < catchers l)%nat ->
  readyState <> CLOSED ->
  reconnectAttempt (self w) + 1 <= reconnectMaxAttempts (options (self w)) ->
  let w3 := run [CallDisconnect code reason readyState false;
                 SocketClose s c r random; RunDisconnectResume] w in
  let w4 := step (RunConnectCatch random') w3 in
  last (trace w3) = Some DisconnectReturned
  /\ manuallyClosed (self w4) = true
  /\ state (self w4) = reconnecting
  /\ exists t,
       reconnectTimer (self w4) = Some t
       /\ timers w4 !! t = Some (ReconnectFire (reconnectAttempt (self w) + 1))
       /\ let w5 := step (TimerFires t now close_throws) w4 in
          manuallyClosed (self w5) = false
          /\ state (self w5) = connecting
          /\ last (trace w5)
             = Some (NewWebSocket (fresh w4) (url (options (self w)))
                       (authorization (options (self w)))).
Proof.
  intros Hws Hs Hop Hse Hca Hrs Hle.
  cbn [run fold_left].
  destruct (abandoned_disconnect w s l code reason readyState Hws Hs Hrs)
    as (A1 & S1 & J1).
  set (w1 := step (CallDisconnect code reason readyState false) w).
  change (disconnect code reason readyState false w) with w1 in A1, S1, J1.
  clearbody w1.
  destruct (abandoned_on_close _ _ w1 s (add_closeWaiter l) c r random A1 S1 Hop Hse)
    as (A2 & J2 & R2 & P2).
  assert (E2 : step (SocketClose s c r random) w1
               = on_close s (add_closeWaiter l) c r random w1)
    by (cbn [step]; rewrite S1; reflexivity).
  rewrite E2. set (w2 := on_close s (add_closeWaiter l) c r random w1) in *.
  clearbody w2. clear E2.
  cbn [closeWaiters add_closeWaiter catchers] in J2, R2.
  destruct (resumeJobs w2) as [|k] eqn:Ek; [lia|].
  destruct (abandoned_resume _ _ w2 k A2) as (A3 & J3 & P3 & L3).
  assert (E3 : step RunDisconnectResume w2 = disconnect_resume (set_resumeJobs k w2))
    by (cbn [step]; rewrite Ek; reflexivity).
  rewrite E3. set (w3 := disconnect_resume (set_resumeJobs k w2)) in *.
  clearbody w3. clear E3.
  split; [exact L3|].
  destruct (catchJobs w3) as [|m] eqn:Em; [lia|].
  destruct (abandoned_catch _ _ w3 m random' A3 Hle) as (M4 & S4 & T4 & F4 & P4 & O4).
  assert (E4 : step (RunConnectCatch random') w3
               = connect_catch random' (set_catchJobs m w3))
    by (cbn [step]; rewrite Em; reflexivity).
  rewrite E4. set (w4 := connect_catch random' (set_catchJobs m w3)) in *.
  clearbody w4. clear E4.
  split; [exact M4|]. split; [exact S4|].
  exists (fresh w3). split; [exact T4|]. split; [exact F4|].
  rewrite P3, P2 in P4.
  destruct (reconnect_timer_fires w4 (fresh w3) _ now close_throws F4 S4 P4)
    as (M5 & S5 & _ & L5).
  rewrite O4 in L5. auto.
Qed.

Lemma reconnect_attempt_outlives_disconnect_witness :
  let w := demo_retrying in
  let w3 := run [CallDisconnect 1000 "bye" CONNECTING false;
                 SocketClose 2 1006 "" 0.5%Q; RunDisconnectResume] w in
  let w4 := step (RunConnectCatch 0.5%Q) w3 in
  last (trace w3) = Some DisconnectReturned
  /\ manuallyClosed (self w4) = true
  /\ state (self w4) = reconnecting
  /\ exists t,
       reconnectTimer (self w4) = Some t
       /\ timers w4 !! t = Some (ReconnectFire (reconnectAttempt (self w) + 1))
       /\ let w5 := step (TimerFires t 5000 false) w4 in
          manuallyClosed (self w5) = false
          /\ state (self w5) = connecting
          /\ last (trace w5)
             = Some (NewWebSocket (fresh w4) (url (options (self w)))
                       (authorization (options (self w)))).
Proof.
  apply (reconnect_attempt_outlives_disconnect demo_retrying 2%nat
           (mkLocals false false 1 0));
    try (vm_compute; reflexivity); try discriminate; vm_compute; lia.
Defined.


End OneBotProps.

(* ================================================================== *)
(** * Properties of the channel plugin                                 *)
(* ================================================================== *)

Module QQProps.
Import JsString CQ CQProps CQMore QQ.

(** X22: what [dispatchQQMessage] sends.  With a reply target that
    is not empty it sends an array: the reply segment with the target as
    given, then the trimmed text when that is not blank.  Without one it
    sends the trimmed text as a plain string, and when the text is blank
    it sends an empty array. *)
Theorem outbound_message_cases (body : string) (reply : option string) :
  outbound_message body reply
  = match reply with
    | Some (String c id) =>
        MessageSegments
          (reply_segment (String c id)
           :: if truthy (trim body) then [text_segment (trim body)] else [])
    | _ =>
        if truthy (trim body) then MessageText (trim body)
        else MessageSegments []
    end.
Proof.
  unfold outbound_message. cbv zeta. rewrite buildOutboundSegments_parts.
  cbn [replyToId mentions text default from_option id flat_map].
  unfold text_part, reply_part.
  destruct reply as [[|c id]|]; cbn [truthy app];
    destruct (truthy (trim body)) eqn:E; try reflexivity.
  all: cbn [length Nat.leb andb text_segment seg_type seg_data String.eqb
            Ascii.eqb Bool.eqb].
  all: rewrite lookup_singleton_eq; reflexivity.
Qed.

(** ** Id lists *)

Fixpoint no_separator (s : string) : bool :=
  match s with
  | EmptyString => true
  | String c s' => negb (is_separator c) && no_separator s'
  end.

(** An entry of an id list: not empty, without comma or whitespace. *)
Definition id_entry (s : string) : Prop :=
  s <> "" /\ no_separator s = true.

Lemma split_separators_pieces b s :
  Forall (fun piece => no_separator piece = true) (split_separators b s).
Proof.
  revert b. induction s as [|c s IH]; intros b; cbn [split_separators].
  - repeat constructor.
  - destruct (is_separator c) eqn:Ec.
    + destruct b; [apply IH|]. constructor; [reflexivity|apply IH].
    + specialize (IH false). destruct (split_separators false s) as [|p ps].
      * repeat constructor. cbn. rewrite Ec. reflexivity.
      * apply Forall_cons in IH as [Hp Hps]. constructor; [|exact Hps].
        cbn [no_separator]. rewrite Ec, Hp. reflexivity.
Qed.

Lemma is_separator_space c : is_separator c = false -> is_space c = false.
Proof. unfold is_separator. intros H. apply orb_false_iff in H as [_ H]. exact H. Qed.

Lemma trimEnd_no_separator s : no_separator s = true -> trimEnd s = s.
Proof.
  induction s as [|c s IH]; [reflexivity|]. cbn [no_separator]. intros H.
  apply andb_true_iff in H as [Hc Hs]. apply negb_true_iff in Hc.
  rewrite (trimEnd_cons _ _ (is_separator_space _ Hc)), (IH Hs). reflexivity.
Qed.

Lemma trim_no_separator s : no_separator s = true -> trim s = s.
Proof.
  intros H. unfold trim. destruct s as [|c s]; [reflexivity|].
  pose proof H as H'. cbn [no_separator] in H'.
  apply andb_true_iff in H' as [Hc _]. apply negb_true_iff in Hc.
  rewrite (trimStart_fixed _ _ (is_separator_space _ Hc)).
  apply trimEnd_no_separator, H.
Qed.

Lemma map_trim_pieces l :
  Forall (fun piece => no_separator piece = true) l -> map trim l = l.
Proof.
  induction 1 as [|x l Hx _ IH]; [reflexivity|].
  cbn [map]. rewrite (trim_no_separator x Hx), IH. reflexivity.
Qed.

Lemma splitIdList_pieces r :
  truthy r = true ->
  splitIdList (Some r)
  = filter (fun entry => truthy entry = true) (split_separators false r).
Proof.
  intros H. unfold splitIdList. rewrite H, map_trim_pieces; [reflexivity|].
  apply split_separators_pieces.
Qed.

(** Splitting a string that starts with an entry. *)
Lemma split_separators_entry x b rest :
  id_entry x ->
  split_separators b (x +:+ String "," rest) = x :: split_separators true rest.
Proof.
  intros [Hne Hx]. revert b. induction x as [|c x IH]; intros b; [congruence|].
  cbn [no_separator] in Hx. apply andb_true_iff in Hx as [Hc Hx].
  apply negb_true_iff in Hc.
  rewrite append_cons. cbn [split_separators]. rewrite Hc.
  destruct x as [|d x].
  - rewrite append_nil. cbn [split_separators].
    change (is_separator ",") with true. cbn iota. reflexivity.
  - rewrite (IH ltac:(discriminate) Hx false). reflexivity.
Qed.

Lemma split_separators_last x b :
  id_entry x -> split_separators b x = [x].
Proof.
  intros [Hne Hx]. revert b. induction x as [|c x IH]; intros b; [congruence|].
  cbn [no_separator] in Hx. apply andb_true_iff in Hx as [Hc Hx].
  apply negb_true_iff in Hc. cbn [split_separators]. rewrite Hc.
  destruct x as [|d x]; [reflexivity|].
  rewrite (IH ltac:(discriminate) Hx false). reflexivity.
Qed.

Lemma split_separators_join l b :
  l <> [] -> Forall id_entry l ->
  split_separators b (join "," l) = l.
Proof.
  intros Hne H. revert b. induction H as [|x l Hx Hl IH]; intros b; [congruence|].
  destruct l as [|y l].
  - unfold join. cbn [String.concat]. apply split_separators_last, Hx.
  - change (join "," (x :: y :: l)) with (x +:+ String "," (join "," (y :: l))).
    rewrite (split_separators_entry x b _ Hx), (IH ltac:(discriminate) true).
    reflexivity.
Qed.

Lemma filter_truthy_entries l :
  Forall id_entry l -> filter (fun entry => truthy entry = true) l = l.
Proof.
  induction 1 as [|x l [Hx _] _ IH]; [reflexivity|].
  rewrite filter_cons_True by (destruct x; [congruence|reflexivity]).
  rewrite IH. reflexivity.
Qed.

Lemma splitIdList_entries raw : Forall id_entry (splitIdList raw).
Proof.
  destruct raw as [r|]; [|constructor]. unfold splitIdList.
  destruct (truthy r); [|constructor].
  rewrite map_trim_pieces by apply split_separators_pieces.
  apply Forall_forall. intros x Hx.
  apply list_elem_of_filter in Hx as [Ht Hin]. split.
  - destruct x; [discriminate Ht|discriminate].
  - clear Ht. revert x Hin. apply Forall_forall, split_separators_pieces.
Qed.

(** X23: every entry that [splitIdList] returns is not empty and
    contains no comma and no whitespace, so an absent, empty or blank
    list gives no entry; writing the entries with commas between them and
    splitting again gives the same entries. *)
Theorem splitIdList_entries_are_ids (raw : option string) :
  Forall id_entry (splitIdList raw)
  /\ splitIdList None = []
  /\ splitIdList (Some "") = []
  /\ splitIdList (Some (join "," (splitIdList raw))) = splitIdList raw.
Proof.
  pose proof (splitIdList_entries raw) as H.
  split; [exact H|]. split; [reflexivity|]. split; [reflexivity|].
  destruct (splitIdList raw) as [|x l] eqn:E; [reflexivity|].
  assert (Ht : truthy (join "," (x :: l)) = true).
  { apply Forall_cons in H as [[Hx _] _]. unfold join.
    destruct x as [|c x]; [congruence|].
    destruct l; reflexivity. }
  rewrite (splitIdList_pieces _ Ht), split_separators_join by (discriminate || exact H).
  apply filter_truthy_entries, H.
Qed.

End QQProps.
